(** * Monte Carlo race simulation: a shallow embedding of [race.py]

    The development follows the two classes of the program:
    [RaceSimulator] (one stochastic race, lap by lap) and [MonteCarloRace]
    (many races folded into win / podium / DNF counters and a summary table).

    Reading conventions.
    - In the first part Python [float] values are read as exact rationals
      ([Q]): it carries the properties that rest on the control flow and on
      the counters, which rounding does not touch.  The only NaN the
      program writes on purpose ([np.nan] for the time of a car that did not
      finish, and for an average over no finish) is [None] in an [option Q].
      The last part, [Binary64], reads the simulator and the trial loop
      over IEEE 754 binary64 (Rocq's primitive [float]) and carries what
      depends on rounding, overflow, underflow and NaN.
    - Python [int] values are [Z].
    - The process-wide generator behind [np.random] is an explicit state
      threaded through every call ([RandomSource]).
    - Exceptions are values ([Raise]); the generator state survives them.
    - A [dict] is an association list in insertion order with unique keys,
      updated in place ([dict_set]).
    - pandas' [sort_values] is taken by its contract ([DataFrameSort]): a
      reordering of the rows that is descending in the column.
    - Printing ([verbose], [progress_every]) is not modelled. *)

From Stdlib Require Import ZArith QArith Qminmax String List Bool Lia Lqa.
From Stdlib Require Import Permutation Sorted.
From Stdlib Require Import PrimFloat SpecFloat FloatOps FloatAxioms.
Import ListNotations.

Open Scope Q_scope.

(** ** Exceptions and results *)

Inductive PyError : Type :=
| ZeroDivisionError
| KeyError (key : string)
| ValueError (msg : string)
| IndexError
| UnboundLocalError (var : string)
| OverflowError.

Inductive Result (A : Type) : Type :=
| Ok (a : A)
| Raise (e : PyError).

Arguments Ok {A} a.
Arguments Raise {A} e.

Definition rbind {A B : Type} (r : Result A) (k : A -> Result B) : Result B :=
  match r with
  | Ok a => k a
  | Raise e => Raise e
  end.

Declare Scope py_scope.
Delimit Scope py_scope with py.

Notation "x <~ r ;; k" := (rbind r (fun x => k))
  (at level 100, r at next level, right associativity) : py_scope.

(** ** The random generator

    [rand] is [np.random.rand()] (one uniform sample of [0, 1)), [randn] is
    the standard normal sample that [np.random.normal] scales and shifts.
    Nothing else is assumed of the generator: every theorem below holds for
    every stream of draws. *)

Class RandomSource : Type := {
  RNG : Type;
  rand : RNG -> Q * RNG;
  randn : RNG -> Q * RNG;
  rand_range : forall g, 0 <= fst (rand g) /\ fst (rand g) < 1
}.

(** ** Dictionaries in insertion order *)

Definition dict (V : Type) : Type := list (string * V).

Fixpoint dict_get {V : Type} (d : dict V) (k : string) : option V :=
  match d with
  | [] => None
  | (k', v) :: d' => if String.eqb k' k then Some v else dict_get d' k
  end.

(** [d[k] = v]: an existing key keeps its position, a new key goes last. *)
Fixpoint dict_set {V : Type} (d : dict V) (k : string) (v : V) : dict V :=
  match d with
  | [] => [(k, v)]
  | (k', v') :: d' =>
      if String.eqb k' k then (k, v) :: d' else (k', v') :: dict_set d' k v
  end.

Definition keys {V : Type} (d : dict V) : list string := map fst d.

(** [d[k]] as an expression: [KeyError] on a missing key. *)
Definition dict_lookup {V : Type} (d : dict V) (k : string) : Result V :=
  match dict_get d k with
  | Some v => Ok v
  | None => Raise (KeyError k)
  end.

(** [d[k] += 1]. *)
Definition dict_incr (d : dict Z) (k : string) : Result (dict Z) :=
  (v <~ dict_lookup d k ;; Ok (dict_set d k (v + 1)%Z))%py.

(** [d[k].append(x)]. *)
Definition dict_append {V : Type} (d : dict (list V)) (k : string) (x : V)
  : Result (dict (list V)) :=
  (l <~ dict_lookup d k ;; Ok (dict_set d k (l ++ [x])))%py.

(** ** Python built-ins used by the program *)

(** [range(lo, hi)]. *)
Definition py_range (lo hi : Z) : list Z :=
  map (fun i => (lo + Z.of_nat i)%Z) (seq 0 (Z.to_nat (hi - lo))).

(** [x in l] for a list of integers. *)
Definition lap_in (x : Z) (l : list Z) : bool := existsb (Z.eqb x) l.

(** [max(a, b)]: the first argument stays unless the second is greater. *)
Definition py_max (a b : Q) : Q := if Qlt_le_dec a b then b else a.

(** [a / b] on floats. *)
Definition py_div (a b : Q) : Result Q :=
  if Qeq_bool b 0 then Raise ZeroDivisionError else Ok (a / b).

(** [a / b] on integers (true division). *)
Definition py_truediv (a b : Z) : Result Q :=
  if Z.eqb b 0 then Raise ZeroDivisionError else Ok (inject_Z a / inject_Z b).

(** ** Data classes *)

Record Car : Type := {
  name : string;
  base_speed : Q;
  speed_std : Q;
  crash_prob : Q;
  pit_mean : Q;
  pit_std : Q;
  pit_laps : list Z;
  tyre_decay : Q;
  boost_laps : list Z;
  boost_speed : Q;
  boost_crash : Q
}.

Record Track : Type := {
  lap_length : Q;
  n_laps : Z;
  weather_variance : Q
}.

(** [status] is the string ["Finished"] or [f"DNF on lap {lap}"]; the program
    only ever compares it with ["Finished"]. *)
Inductive Status : Type :=
| Finished
| DNF_on_lap (lap : Z).

(** One entry of the dictionary returned by [RaceSimulator.run]. *)
Record Outcome : Type := {
  time : option Q;
  status : Status;
  laps : Z
}.

Definition is_finished (o : Outcome) : bool :=
  match status o with
  | Finished => true
  | DNF_on_lap _ => false
  end.

(** ** The simulation monad *)

Section Monad.
Context {RS : RandomSource}.

(** State of the generator in, result or exception and state out. *)
Definition Sim (A : Type) : Type := RNG -> Result A * RNG.

Definition ret {A : Type} (a : A) : Sim A := fun g => (Ok a, g).

Definition raise {A : Type} (e : PyError) : Sim A := fun g => (Raise e, g).

Definition lift {A : Type} (r : Result A) : Sim A := fun g => (r, g).

Definition bind {A B : Type} (m : Sim A) (k : A -> Sim B) : Sim B :=
  fun g =>
    match m g with
    | (Ok a, g') => k a g'
    | (Raise e, g') => (Raise e, g')
    end.

(** [np.random.rand()]. *)
Definition np_random_rand : Sim Q :=
  fun g => let (u, g') := rand g in (Ok u, g').

(** [np.random.normal(loc, scale)]: numpy refuses a negative scale before
    drawing, and otherwise returns [loc + scale * z] for a standard normal
    [z]. *)
Definition np_random_normal (loc scale : Q) : Sim Q :=
  fun g =>
    if Qlt_le_dec scale 0 then (Raise (ValueError "scale < 0"), g)
    else let (z, g') := randn g in (Ok (loc + scale * z), g').

End Monad.

Notation "x <- m ;; k" := (bind m (fun x => k))
  (at level 100, m at next level, right associativity) : py_scope.

Open Scope py_scope.

(** ** One race *)

Module RaceSimulator.

(** What one completed lap computed; a ghost record, kept so that the
    per-lap quantities of the loop body can be stated about. *)
Record LapRecord : Type := {
  lr_lap : Z;
  lr_laps_since_pit : Z;
  lr_tyre_penalty : Q;
  lr_speed : Q;
  lr_lap_time : Q;
  lr_pit_time : option Q
}.

Inductive LapResult : Type :=
| Crashed
| Completed (rec : LapRecord) (total_time : Q) (last_pit_lap : Z).

(** The state of the [for lap] loop when it is left. *)
Record LoopExit : Type := {
  exit_status : Status;
  exit_total_time : Q;
  exit_lap : option Z;
  exit_log : list LapRecord
}.

Section WithRandomSource.
Context {RS : RandomSource}.

Definition _pit_stop_time (car : Car) : Sim Q :=
  x <- np_random_normal (pit_mean car) (pit_std car) ;;
  ret (py_max x 0).

Definition lap_crash_prob (car : Car) (lap : Z) : Q :=
  if lap_in lap (boost_laps car)
  then crash_prob car + boost_crash car
  else crash_prob car.

Definition laps_since_pit (lap last_pit_lap : Z) : Z :=
  (lap - last_pit_lap - 1)%Z.

Definition tyre_penalty (car : Car) (lap last_pit_lap : Z) : Q :=
  base_speed car * tyre_decay car * inject_Z (laps_since_pit lap last_pit_lap).

(** The body of the [for lap] loop (lines 78 to 102). *)
Definition simulate_lap (car : Car) (track : Track) (lap : Z)
    (total_time : Q) (last_pit_lap : Z) : Sim LapResult :=
  u <- np_random_rand ;;
  if Qlt_le_dec u (lap_crash_prob car lap) then ret Crashed
  else
    x <- np_random_normal (base_speed car) (speed_std car) ;;
    w <- np_random_normal 0 (weather_variance track) ;;
    let speed :=
      x - tyre_penalty car lap last_pit_lap
      + (if lap_in lap (boost_laps car) then boost_speed car else 0)
      + w in
    let speed := py_max speed (1 # 1000) in
    lap_time <- lift (py_div (lap_length track) speed) ;;
    let total_time := total_time + lap_time in
    if lap_in lap (pit_laps car) then
      p <- _pit_stop_time car ;;
      ret (Completed
             {| lr_lap := lap;
                lr_laps_since_pit := laps_since_pit lap last_pit_lap;
                lr_tyre_penalty := tyre_penalty car lap last_pit_lap;
                lr_speed := speed;
                lr_lap_time := lap_time;
                lr_pit_time := Some p |}
             (total_time + p) lap)
    else
      ret (Completed
             {| lr_lap := lap;
                lr_laps_since_pit := laps_since_pit lap last_pit_lap;
                lr_tyre_penalty := tyre_penalty car lap last_pit_lap;
                lr_speed := speed;
                lr_lap_time := lap_time;
                lr_pit_time := None |}
             total_time last_pit_lap).

Definition log_lap (rec : LapRecord) (e : LoopExit) : LoopExit :=
  {| exit_status := exit_status e;
     exit_total_time := exit_total_time e;
     exit_lap := exit_lap e;
     exit_log := rec :: exit_log e |}.

(** The [for lap in ...] loop with its [break]; [lap_var] is the loop
    variable as it stands when the loop is left. *)
Fixpoint lap_loop (car : Car) (track : Track) (lap_list : list Z)
    (total_time : Q) (last_pit_lap : Z) (lap_var : option Z) : Sim LoopExit :=
  match lap_list with
  | [] =>
      ret {| exit_status := Finished;
             exit_total_time := total_time;
             exit_lap := lap_var;
             exit_log := [] |}
  | lap :: rest =>
      r <- simulate_lap car track lap total_time last_pit_lap ;;
      match r with
      | Crashed =>
          ret {| exit_status := DNF_on_lap lap;
                 exit_total_time := total_time;
                 exit_lap := Some lap;
                 exit_log := [] |}
      | Completed rec total_time' last_pit_lap' =>
          e <- lap_loop car track rest total_time' last_pit_lap' (Some lap) ;;
          ret (log_lap rec e)
      end
  end.

(** The inner loop of one car, from [total_time = 0.0], [last_pit_lap = 0]. *)
Definition drive (car : Car) (track : Track) : Sim LoopExit :=
  lap_loop car track (py_range 1 (n_laps track + 1)) 0 0%Z None.

(** The dictionary stored under [car.name] (lines 104 to 108). *)
Definition car_outcome (track : Track) (e : LoopExit) : Result Outcome :=
  match exit_status e with
  | Finished =>
      Ok {| time := Some (exit_total_time e);
            status := Finished;
            laps := n_laps track |}
  | DNF_on_lap k =>
      match exit_lap e with
      | Some lap => Ok {| time := None; status := DNF_on_lap k; laps := lap |}
      | None => Raise (UnboundLocalError "lap")
      end
  end.

Fixpoint run_cars (cars : list Car) (track : Track) (results : dict Outcome)
  : Sim (dict Outcome) :=
  match cars with
  | [] => ret results
  | car :: rest =>
      e <- drive car track ;;
      o <- lift (car_outcome track e) ;;
      run_cars rest track (dict_set results (name car) o)
  end.

Definition run (cars : list Car) (track : Track) : Sim (dict Outcome) :=
  run_cars cars track [].

End WithRandomSource.

End RaceSimulator.

(** ** Many races *)

(** [sorted(items, key=...)]: Python's sort is stable and compares with [<]
    only; [lt a b] is [key(a) < key(b)]. *)
Fixpoint sorted_insert {A : Type} (lt : A -> A -> bool) (x : A) (l : list A)
  : list A :=
  match l with
  | [] => [x]
  | y :: l' => if lt y x then y :: sorted_insert lt x l' else x :: y :: l'
  end.

Definition py_sorted {A : Type} (lt : A -> A -> bool) (l : list A) : list A :=
  fold_right (sorted_insert lt) [] l.

(** [<] on two [time] entries; a comparison with NaN is false. *)
Definition time_lt (a b : option Q) : bool :=
  match a, b with
  | Some x, Some y => if Qlt_le_dec x y then true else false
  | _, _ => false
  end.

(** [+] on floats that may be NaN. *)
Definition nan_add (a b : option Q) : option Q :=
  match a, b with
  | Some x, Some y => Some (x + y)
  | _, _ => None
  end.

(** [np.mean] of a non-empty list: the sum over the length. *)
Definition np_mean (l : list (option Q)) : option Q :=
  match fold_left nan_add l (Some 0) with
  | Some s => Some (s / inject_Z (Z.of_nat (length l)))
  | None => None
  end.

(** One row of the summary table. *)
Record Row : Type := {
  Car_name : string;
  Win_pct : Q;
  Podium_pct : Q;
  DNF_pct : Q;
  Avg_time : option Q
}.

(** [DataFrame.sort_values("Win %", ascending=False)] on a frame that has the
    column.  The program leaves [kind] at pandas' default (["quicksort"]),
    for which pandas promises a reordering of the rows that is descending in
    the column, and no more: the order of equal rows is the library's. *)
Class DataFrameSort : Type := {
  sort_values : list Row -> list Row;
  sort_values_perm : forall rows, Permutation rows (sort_values rows);
  sort_values_desc :
    forall rows,
      StronglySorted (fun a b => Win_pct b <= Win_pct a) (sort_values rows)
}.

Module MonteCarloRace.

(** The four tracking dictionaries. *)
Record Acc : Type := {
  winner_counts : dict Z;
  podium_counts : dict Z;
  finish_times : dict (list (option Q));
  dnfs : dict Z
}.

(** [{c.name: v for c in cars}]. *)
Definition by_name {V : Type} (cars : list Car) (v : V) : dict V :=
  fold_left (fun d c => dict_set d (name c) v) cars [].

Definition init (cars : list Car) : Acc :=
  {| winner_counts := by_name cars 0%Z;
     podium_counts := by_name cars 0%Z;
     finish_times := by_name cars [];
     dnfs := by_name cars 0%Z |}.

(** [for n, _ in order[:3]: podium_counts[n] += 1]. *)
Fixpoint incr_all (d : dict Z) (names : list string) : Result (dict Z) :=
  match names with
  | [] => Ok d
  | n :: rest => d' <~ dict_incr d n ;; incr_all d' rest
  end.

(** Win and podium statistics of one race (lines 134 to 140). *)
Definition count_podium (acc : Acc) (res : dict Outcome) : Result Acc :=
  let finished := filter (fun kv => is_finished (snd kv)) res in
  match finished with
  | [] => Ok acc
  | _ :: _ =>
      let order :=
        py_sorted (fun a b => time_lt (time (snd a)) (time (snd b))) finished in
      match order with
      | [] => Raise IndexError
      | (w, _) :: _ =>
          wc <~ dict_incr (winner_counts acc) w ;;
          pc <~ incr_all (podium_counts acc) (map fst (firstn 3 order)) ;;
          Ok {| winner_counts := wc;
                podium_counts := pc;
                finish_times := finish_times acc;
                dnfs := dnfs acc |}
      end
  end.

(** Time and DNF statistics of one race (lines 142 to 146). *)
Fixpoint count_times (acc : Acc) (items : list (string * Outcome))
  : Result Acc :=
  match items with
  | [] => Ok acc
  | (n, d) :: rest =>
      if is_finished d then
        ft <~ dict_append (finish_times acc) n (time d) ;;
        count_times {| winner_counts := winner_counts acc;
                       podium_counts := podium_counts acc;
                       finish_times := ft;
                       dnfs := dnfs acc |} rest
      else
        dn <~ dict_incr (dnfs acc) n ;;
        count_times {| winner_counts := winner_counts acc;
                       podium_counts := podium_counts acc;
                       finish_times := finish_times acc;
                       dnfs := dn |} rest
  end.

(** What one iteration of the trial loop does with the race's results. *)
Definition record_trial (acc : Acc) (res : dict Outcome) : Result Acc :=
  acc' <~ count_podium acc res ;; count_times acc' res.

(** One row of the summary (lines 152 to 161). *)
Definition summary_row (acc : Acc) (n_iter : Z) (c : Car) : Result Row :=
  let nm := name c in
  times <~ dict_lookup (finish_times acc) nm ;;
  let finishes := length times in
  w <~ dict_lookup (winner_counts acc) nm ;;
  win <~ py_truediv (100 * w) n_iter ;;
  p <~ dict_lookup (podium_counts acc) nm ;;
  podium <~ py_truediv (100 * p) n_iter ;;
  d <~ dict_lookup (dnfs acc) nm ;;
  dnf <~ py_truediv (100 * d) n_iter ;;
  Ok {| Car_name := nm;
        Win_pct := win;
        Podium_pct := podium;
        DNF_pct := dnf;
        Avg_time := match finishes with
                    | O => None
                    | S _ => np_mean times
                    end |}.

Fixpoint summary_rows (acc : Acc) (n_iter : Z) (cars : list Car)
  : Result (list Row) :=
  match cars with
  | [] => Ok []
  | c :: rest =>
      r <~ summary_row acc n_iter c ;;
      rs <~ summary_rows acc n_iter rest ;;
      Ok (r :: rs)
  end.

Section WithLibraries.
Context {RS : RandomSource} {DS : DataFrameSort}.

(** The trial loop; [trial_list] is [range(1, n_iter + 1)]. *)
Fixpoint trials (cars : list Car) (track : Track) (trial_list : list Z)
    (acc : Acc) : Sim Acc :=
  match trial_list with
  | [] => ret acc
  | _ :: rest =>
      res <- RaceSimulator.run cars track ;;
      acc' <- lift (record_trial acc res) ;;
      trials cars track rest acc'
  end.

(** [pd.DataFrame(summary).sort_values("Win %", ascending=False)]: a frame
    built from no row has no column, and sorting it by a missing column
    raises [KeyError]. *)
Definition sort_by_win (summary : list Row) : Result (list Row) :=
  match summary with
  | [] => Raise (KeyError "Win %")
  | _ :: _ => Ok (sort_values summary)
  end.

Definition run (cars : list Car) (track : Track) (n_iter : Z)
  : Sim (list Row) :=
  acc <- trials cars track (py_range 1 (n_iter + 1)) (init cars) ;;
  summary <- lift (summary_rows acc n_iter cars) ;;
  lift (sort_by_win summary).

End WithLibraries.

End MonteCarloRace.

(** ** Concrete libraries, for running the model

    A scripted generator: the state is the list of raw draws still to come,
    each an integer number of hundredths.  [rand] reads it modulo 100 (so
    within [0, 1)), [randn] as it is; an exhausted script yields zeros. *)

Definition script_rand (g : list Z) : Q * list Z :=
  match g with
  | [] => (0, [])
  | x :: g' => (Qmake (x mod 100) 100, g')
  end.

Definition script_randn (g : list Z) : Q * list Z :=
  match g with
  | [] => (0, [])
  | x :: g' => (Qmake x 100, g')
  end.

Lemma script_rand_range (g : list Z) :
  0 <= fst (script_rand g) /\ fst (script_rand g) < 1.
Proof.
  destruct g as [|x g']; simpl.
  - split; [apply Qle_refl | reflexivity].
  - pose proof (Z.mod_pos_bound x 100 eq_refl) as [Hlo Hhi].
    unfold Qle, Qlt; simpl. split; lia.
Qed.

Definition ScriptedSource : RandomSource :=
  {| RNG := list Z;
     rand := script_rand;
     randn := script_randn;
     rand_range := script_rand_range |}.

(** ** Well-formed configurations

    [np.random.normal] raises on a negative standard deviation, so a run can
    only be promised to return for cars and tracks whose deviations are not
    negative. *)

Definition valid_car (car : Car) : Prop :=
  0 <= speed_std car /\ 0 <= pit_std car.

Definition valid_track (track : Track) : Prop :=
  0 <= weather_variance track.

(** * Facts about dictionaries *)

Section DictFacts.
Context {V : Type}.
Implicit Types (d : dict V) (k : string) (v : V).

Lemma dict_get_set_same d k v : dict_get (dict_set d k v) k = Some v.
Proof.
  induction d as [|[k' v'] d IH]; simpl.
  - now rewrite String.eqb_refl.
  - destruct (String.eqb k' k) eqn:E; simpl.
    + now rewrite String.eqb_refl.
    + now rewrite E.
Qed.

Lemma dict_get_set_other d k k' v :
  k <> k' -> dict_get (dict_set d k v) k' = dict_get d k'.
Proof.
  intros Hne. induction d as [|[k0 v0] d IH]; simpl.
  - destruct (String.eqb_spec k k'); [contradiction | reflexivity].
  - destruct (String.eqb_spec k0 k) as [->|Hk]; simpl.
    + destruct (String.eqb_spec k k'); [contradiction | reflexivity].
    + destruct (String.eqb_spec k0 k'); [reflexivity | exact IH].
Qed.

Lemma in_keys_get d k : In k (keys d) <-> exists v, dict_get d k = Some v.
Proof.
  induction d as [|[k0 v0] d IH]; simpl.
  - split; [tauto | intros [v Hv]; discriminate].
  - destruct (String.eqb_spec k0 k) as [->|Hk].
    + split; [eauto | auto].
    + rewrite <- IH. split; [intros [?|?]; [contradiction | assumption] | auto].
Qed.

Lemma not_in_keys_get d k : ~ In k (keys d) <-> dict_get d k = None.
Proof.
  rewrite in_keys_get. destruct (dict_get d k).
  - split; [intros H; exfalso; eauto | discriminate].
  - split; [reflexivity | intros _ [v Hv]; discriminate].
Qed.

Lemma keys_set_in d k v k' :
  In k' (keys (dict_set d k v)) <-> k' = k \/ In k' (keys d).
Proof.
  rewrite !in_keys_get. destruct (String.eqb_spec k k') as [->|Hne].
  - rewrite dict_get_set_same. split; eauto.
  - rewrite dict_get_set_other by assumption.
    split; [auto | intros [->|H]; [contradiction | assumption]].
Qed.

Lemma keys_set_present d k v :
  In k (keys d) -> keys (dict_set d k v) = keys d.
Proof.
  induction d as [|[k0 v0] d IH]; simpl; [tauto|].
  intros Hin. destruct (String.eqb_spec k0 k) as [->|Hk]; simpl.
  - reflexivity.
  - f_equal. apply IH. destruct Hin; [contradiction | assumption].
Qed.

Lemma keys_set_absent d k v :
  ~ In k (keys d) -> keys (dict_set d k v) = keys d ++ [k].
Proof.
  induction d as [|[k0 v0] d IH]; simpl; [reflexivity|].
  intros Hin. destruct (String.eqb_spec k0 k) as [->|Hk]; simpl.
  - tauto.
  - f_equal. apply IH. tauto.
Qed.

Lemma NoDup_keys_set d k v : NoDup (keys d) -> NoDup (keys (dict_set d k v)).
Proof.
  intros Hnd. destruct (in_dec string_dec k (keys d)) as [Hin|Hout].
  - now rewrite keys_set_present.
  - rewrite keys_set_absent by assumption.
    apply NoDup_rev in Hnd. rewrite <- (rev_involutive (keys d ++ [k])).
    apply NoDup_rev. rewrite rev_app_distr. simpl. constructor.
    + now rewrite <- in_rev.
    + assumption.
Qed.

Lemma dict_get_in d k v : dict_get d k = Some v -> In (k, v) d.
Proof.
  induction d as [|[k0 v0] d IH]; simpl; [discriminate|].
  destruct (String.eqb_spec k0 k) as [->|Hk].
  - intros [= ->]. now left.
  - auto.
Qed.

Lemma in_dict_get d k v : NoDup (keys d) -> In (k, v) d -> dict_get d k = Some v.
Proof.
  induction d as [|[k0 v0] d IH]; simpl; [tauto|].
  intros Hnd [[= -> ->]|Hin].
  - now rewrite String.eqb_refl.
  - inversion Hnd as [|? ? Hout Hnd']; subst.
    destruct (String.eqb_spec k0 k) as [->|Hk].
    + exfalso. apply Hout. change (In (fst (k, v)) (map fst d)).
      now apply in_map.
    + now apply IH.
Qed.

End DictFacts.

Lemma dict_lookup_ok {V : Type} (d : dict V) (k : string) (v : V) :
  dict_lookup d k = Ok v <-> dict_get d k = Some v.
Proof.
  unfold dict_lookup. destruct (dict_get d k); split; congruence.
Qed.

(** [d[k] += 1] succeeds exactly on a present key, keeps the keys, adds one
    at [k] and leaves the other entries alone. *)
Lemma dict_incr_inv (d d' : dict Z) (k : string) :
  dict_incr d k = Ok d' ->
  exists v, dict_get d k = Some v /\ d' = dict_set d k (v + 1)%Z.
Proof.
  unfold dict_incr, dict_lookup. destruct (dict_get d k) as [v|]; simpl.
  - intros [= <-]. eauto.
  - discriminate.
Qed.

Lemma dict_incr_ok (d : dict Z) (k : string) :
  In k (keys d) -> exists d', dict_incr d k = Ok d'.
Proof.
  rewrite in_keys_get. intros [v Hv]. unfold dict_incr, dict_lookup.
  rewrite Hv. simpl. eauto.
Qed.

Lemma dict_incr_keys (d d' : dict Z) (k : string) :
  dict_incr d k = Ok d' -> keys d' = keys d.
Proof.
  intros H. apply dict_incr_inv in H as (v & Hv & ->).
  apply keys_set_present. apply in_keys_get. eauto.
Qed.

Lemma dict_append_keys {V : Type} (d d' : dict (list V)) (k : string) (x : V) :
  dict_append d k x = Ok d' -> keys d' = keys d.
Proof.
  unfold dict_append, dict_lookup.
  destruct (dict_get d k) as [l|] eqn:E; simpl; [|discriminate].
  intros [= <-]. apply keys_set_present. apply in_keys_get. eauto.
Qed.

Lemma dict_append_ok {V : Type} (d : dict (list V)) (k : string) (x : V) :
  In k (keys d) -> exists d', dict_append d k x = Ok d'.
Proof.
  rewrite in_keys_get. intros [v Hv]. unfold dict_append, dict_lookup.
  rewrite Hv. simpl. eauto.
Qed.

(** * Facts about [range] *)

Lemma py_range_nil (lo hi : Z) : (hi <= lo)%Z -> py_range lo hi = [].
Proof.
  intros H. unfold py_range.
  replace (Z.to_nat (hi - lo)) with O by lia. reflexivity.
Qed.

Lemma py_range_cons (lo hi : Z) :
  (lo < hi)%Z -> py_range lo hi = lo :: py_range (lo + 1) hi.
Proof.
  intros H. unfold py_range.
  replace (Z.to_nat (hi - lo)) with (S (Z.to_nat (hi - (lo + 1)))) by lia.
  simpl. f_equal; [lia|].
  rewrite <- seq_shift, map_map. apply map_ext. intros i. lia.
Qed.

Lemma py_range_length (lo hi : Z) :
  length (py_range lo hi) = Z.to_nat (hi - lo).
Proof. unfold py_range. now rewrite length_map, length_seq. Qed.

(** Induction along [range(lo, hi)], from the low end. *)
Lemma py_range_ind (hi : Z) (P : Z -> Prop) :
  (forall lo, (hi <= lo)%Z -> P lo) ->
  (forall lo, (lo < hi)%Z -> P (lo + 1)%Z -> P lo) ->
  forall lo, P lo.
Proof.
  intros Hbase Hstep lo.
  remember (Z.to_nat (hi - lo)) as n eqn:Hn. revert lo Hn.
  induction n as [|n IH]; intros lo Hn.
  - apply Hbase. lia.
  - apply Hstep; [lia|]. apply IH. lia.
Qed.

(** A split of [range(1, n + 1)] around one of its elements. *)
Lemma py_range_split (lo hi k : Z) (pre post : list Z) :
  py_range lo hi = pre ++ k :: post ->
  pre = py_range lo k /\ post = py_range (k + 1) hi /\ (lo <= k < hi)%Z.
Proof.
  revert lo. induction pre as [|p pre IH]; intros lo; simpl.
  - destruct (Z_lt_le_dec lo hi) as [Hlt|Hge].
    + rewrite (py_range_cons lo hi Hlt). intros [= -> <-].
      rewrite py_range_nil by lia. repeat split; lia.
    + rewrite (py_range_nil lo hi Hge). discriminate.
  - destruct (Z_lt_le_dec lo hi) as [Hlt|Hge].
    + rewrite (py_range_cons lo hi Hlt). intros [= <- Hrest].
      apply IH in Hrest as (-> & -> & Hk).
      rewrite (py_range_cons lo k) by lia. repeat split; lia.
    + rewrite (py_range_nil lo hi Hge). discriminate.
Qed.

(** * One lap *)

Import RaceSimulator.

(** Time added to [total_time] by a completed lap. *)
Definition lap_cost (rec : LapRecord) : Q :=
  match lr_pit_time rec with
  | Some p => lr_lap_time rec + p
  | None => lr_lap_time rec
  end.

(** What the loop body is bound to have computed when it completes [lap]
    from [last_pit_lap]. *)
Record lap_record_ok (car : Car) (track : Track) (lap last_pit_lap : Z)
    (rec : LapRecord) : Prop := {
  ok_lap : lr_lap rec = lap;
  ok_laps_since_pit : lr_laps_since_pit rec = laps_since_pit lap last_pit_lap;
  ok_tyre_penalty : lr_tyre_penalty rec = tyre_penalty car lap last_pit_lap;
  ok_speed : (1 # 1000) <= lr_speed rec;
  ok_lap_time : lr_lap_time rec = lap_length track / lr_speed rec;
  ok_pit :
    if lap_in lap (pit_laps car)
    then exists p, lr_pit_time rec = Some p /\ 0 <= p
    else lr_pit_time rec = None
}.

Lemma py_max_floor (a b : Q) : b <= py_max a b.
Proof. unfold py_max. destruct (Qlt_le_dec a b); lra. Qed.

Lemma py_max_left (a b : Q) : a <= py_max a b.
Proof. unfold py_max. destruct (Qlt_le_dec a b); lra. Qed.

Lemma py_max_keep (a b : Q) : b <= a -> py_max a b = a.
Proof. unfold py_max. destruct (Qlt_le_dec a b); [lra | reflexivity]. Qed.

Lemma py_div_pos (a b : Q) : 0 < b -> py_div a b = Ok (a / b).
Proof.
  intros Hb. unfold py_div.
  destruct (Qeq_bool b 0) eqn:E; [|reflexivity].
  apply Qeq_bool_eq in E. lra.
Qed.

Section LapFacts.
Context {RS : RandomSource}.

Lemma np_random_normal_inv (loc scale : Q) (g g' : RNG) (r : Result Q) :
  np_random_normal loc scale g = (r, g') ->
  (scale < 0 /\ r = Raise (ValueError "scale < 0") /\ g' = g) \/
  (0 <= scale /\ r = Ok (loc + scale * fst (randn g)) /\ g' = snd (randn g)).
Proof.
  unfold np_random_normal. destruct (Qlt_le_dec scale 0) as [Hneg|Hpos].
  - intros [= <- <-]. left. auto.
  - destruct (randn g) as [z g1]. intros [= <- <-]. right. auto.
Qed.

Lemma np_random_normal_ok (loc scale : Q) (g : RNG) :
  0 <= scale ->
  np_random_normal loc scale g = (Ok (loc + scale * fst (randn g)), snd (randn g)).
Proof.
  intros H. unfold np_random_normal.
  destruct (Qlt_le_dec scale 0) as [Hneg|_]; [lra|].
  now destruct (randn g).
Qed.

Lemma pit_stop_time_inv (car : Car) (g g' : RNG) (r : Result Q) :
  _pit_stop_time car g = (r, g') ->
  (pit_std car < 0 /\ r = Raise (ValueError "scale < 0") /\ g' = g) \/
  (0 <= pit_std car /\ g' = snd (randn g) /\ exists p, r = Ok p /\ 0 <= p).
Proof.
  unfold _pit_stop_time, bind.
  destruct (np_random_normal (pit_mean car) (pit_std car) g) as [[x|e] g1] eqn:E;
    apply np_random_normal_inv in E as [(H1 & H2 & H3)|(H1 & H2 & H3)];
    try discriminate; subst.
  - unfold ret. intros [= <- <-]. right. repeat split; auto.
    eexists; split; [reflexivity | apply py_max_floor].
  - intros [= <- <-]. left. injection H2 as <-. auto.
Qed.

(** Every way the loop body can end. *)
Lemma simulate_lap_inv (car : Car) (track : Track) (lap : Z) (total_time : Q)
    (last_pit_lap : Z) (g g' : RNG) (r : Result LapResult) :
  simulate_lap car track lap total_time last_pit_lap g = (r, g') ->
  match r with
  | Raise e =>
      e = ValueError "scale < 0" /\
      lap_crash_prob car lap <= fst (rand g) /\
      ~ (valid_car car /\ valid_track track)
  | Ok Crashed =>
      fst (rand g) < lap_crash_prob car lap /\ g' = snd (rand g)
  | Ok (Completed rec total_time' last_pit_lap') =>
      lap_crash_prob car lap <= fst (rand g) /\
      lap_record_ok car track lap last_pit_lap rec /\
      total_time' == total_time + lap_cost rec /\
      last_pit_lap' = (if lap_in lap (pit_laps car) then lap else last_pit_lap)
  end.
Proof.
  unfold simulate_lap, bind, np_random_rand, valid_car, valid_track.
  destruct (rand g) as [u g1]; simpl.
  destruct (Qlt_le_dec u (lap_crash_prob car lap)) as [Hc|Hc].
  { unfold ret. intros [= <- <-]. auto. }
  destruct (np_random_normal (base_speed car) (speed_std car) g1)
    as [[x|e] g2] eqn:E1;
    apply np_random_normal_inv in E1 as [(A1 & A2 & A3)|(A1 & A2 & A3)];
    try discriminate; subst;
    [| intros [= <- <-]; injection A2 as <-; repeat split; auto; lra].
  destruct (np_random_normal 0 (weather_variance track) (snd (randn g1)))
    as [[w|e] g3] eqn:E2;
    apply np_random_normal_inv in E2 as [(B1 & B2 & B3)|(B1 & B2 & B3)];
    try discriminate; subst;
    [| intros [= <- <-]; injection B2 as <-; repeat split; auto; lra].
  set (speed := py_max _ (1 # 1000)).
  assert (Hs : (1 # 1000) <= speed) by apply py_max_floor.
  unfold lift. rewrite py_div_pos by lra.
  destruct (lap_in lap (pit_laps car)) eqn:Hpit.
  - destruct (_pit_stop_time car (snd (randn (snd (randn g1)))))
      as [[p|e] g4] eqn:E3;
      apply pit_stop_time_inv in E3
        as [(C1 & C2 & C3)|(C1 & C2 & p0 & C3 & C4)];
      try discriminate; subst.
    + injection C3 as <-. unfold ret. intros [= <- <-]. split; [assumption|].
      split; [|split; [unfold lap_cost; simpl; lra | reflexivity]].
      constructor; simpl; auto. rewrite Hpit. eauto.
    + intros [= <- <-]. injection C2 as <-. repeat split; auto; lra.
  - unfold ret. intros [= <- <-]. split; [assumption|].
    split; [|split; [unfold lap_cost; simpl; lra | reflexivity]].
    constructor; simpl; auto. now rewrite Hpit.
Qed.

(** With deviations that are not negative the loop body returns. *)
Lemma simulate_lap_returns (car : Car) (track : Track) (lap : Z)
    (total_time : Q) (last_pit_lap : Z) (g : RNG) :
  valid_car car -> valid_track track ->
  exists r g', simulate_lap car track lap total_time last_pit_lap g = (Ok r, g').
Proof.
  intros Hc Ht.
  destruct (simulate_lap car track lap total_time last_pit_lap g)
    as [[r|e] g'] eqn:E.
  - eauto.
  - apply simulate_lap_inv in E as (_ & _ & Hno). tauto.
Qed.

End LapFacts.

(** * The lap loop of one car *)

(** Time added by the laps of a log. *)
Definition log_cost (log : list LapRecord) : Q :=
  fold_right (fun rec s => lap_cost rec + s) 0 log.

(** A log whose records were each computed by the loop body, the pit lap of
    one feeding the next. *)
Fixpoint log_ok (car : Car) (track : Track) (last_pit_lap : Z)
    (log : list LapRecord) : Prop :=
  match log with
  | [] => True
  | rec :: rest =>
      lap_record_ok car track (lr_lap rec) last_pit_lap rec /\
      log_ok car track
        (if lap_in (lr_lap rec) (pit_laps car) then lr_lap rec else last_pit_lap)
        rest
  end.

(** The value of the loop variable after a loop over [lap_list] that ran to
    its end. *)
Definition last_lap (lap_list : list Z) (lap_var : option Z) : option Z :=
  match lap_list with
  | [] => lap_var
  | _ :: _ => Some (List.last lap_list 0%Z)
  end.

(** How the loop was left: at the end of the list, or by [break] at lap [k]
    with the laps before [k] completed and those after it never started. *)
Definition loop_exit_ok (lap_list : list Z) (lap_var : option Z)
    (e : LoopExit) : Prop :=
  (exit_status e = Finished /\
   map lr_lap (exit_log e) = lap_list /\
   exit_lap e = last_lap lap_list lap_var) \/
  (exists pre k post,
     lap_list = pre ++ k :: post /\
     exit_status e = DNF_on_lap k /\
     exit_lap e = Some k /\
     map lr_lap (exit_log e) = pre).

Section LoopFacts.
Context {RS : RandomSource}.

Lemma lap_loop_inv (car : Car) (track : Track) (lap_list : list Z) :
  forall (total_time : Q) (last_pit_lap : Z) (lap_var : option Z)
         (g g' : RNG) (e : LoopExit),
    lap_loop car track lap_list total_time last_pit_lap lap_var g = (Ok e, g') ->
    exit_total_time e == total_time + log_cost (exit_log e) /\
    log_ok car track last_pit_lap (exit_log e) /\
    loop_exit_ok lap_list lap_var e.
Proof.
  induction lap_list as [|lap rest IH]; intros total last lv g g' e; simpl.
  - unfold ret. intros [= <- <-]. simpl. split; [lra|]. split; [exact I|].
    left. auto.
  - unfold bind at 1.
    destruct (simulate_lap car track lap total last g) as [[r|err] g1] eqn:E;
      [|discriminate].
    apply simulate_lap_inv in E. destruct r as [|rec total' last'].
    + unfold ret. intros [= <- <-]. simpl. split; [lra|]. split; [exact I|].
      right. exists [], lap, rest. auto.
    + destruct E as (Hu & Hrec & Htot & ->). unfold bind.
      destruct (lap_loop car track rest total' _ (Some lap) g1)
        as [[e1|err] g2] eqn:E1; [|discriminate].
      apply IH in E1 as (Ht & Hlog & Hexit).
      unfold ret. intros [= <- <-]. simpl.
      pose proof (ok_lap _ _ _ _ _ Hrec) as Hlap.
      split; [rewrite Ht, Htot; lra|]. split.
      * rewrite Hlap. auto.
      * destruct Hexit as [(Hs & Hl & Hv)|(pre & k & post & Hl & Hs & Hv & Hp)].
        -- left. simpl. repeat split; [assumption | now rewrite Hlap, Hl |].
           rewrite Hv. destruct rest; reflexivity.
        -- right. exists (lap :: pre), k, post. simpl.
           rewrite Hlap, Hl, Hp. auto.
Qed.

(** The only exception the loop can raise is numpy's refusal of a negative
    deviation. *)
Lemma lap_loop_raise (car : Car) (track : Track) (lap_list : list Z) :
  forall (total_time : Q) (last_pit_lap : Z) (lap_var : option Z)
         (g g' : RNG) (err : PyError),
    lap_loop car track lap_list total_time last_pit_lap lap_var g
    = (Raise err, g') ->
    err = ValueError "scale < 0" /\ ~ (valid_car car /\ valid_track track).
Proof.
  induction lap_list as [|lap rest IH]; intros total last lv g g' err; simpl.
  - discriminate.
  - unfold bind at 1.
    destruct (simulate_lap car track lap total last g) as [[r|err1] g1] eqn:E.
    + destruct r as [|rec total' last']; [discriminate|]. unfold bind.
      destruct (lap_loop car track rest total' last' (Some lap) g1)
        as [[e1|err1] g2] eqn:E1; [discriminate|].
      intros [= <- <-]. eapply IH; eassumption.
    + intros [= <- <-]. apply simulate_lap_inv in E. tauto.
Qed.

Lemma lap_loop_returns (car : Car) (track : Track) (lap_list : list Z)
    (total_time : Q) (last_pit_lap : Z) (lap_var : option Z) (g : RNG) :
  valid_car car -> valid_track track ->
  exists e g',
    lap_loop car track lap_list total_time last_pit_lap lap_var g = (Ok e, g').
Proof.
  intros Hc Ht.
  destruct (lap_loop car track lap_list total_time last_pit_lap lap_var g)
    as [[e|err] g'] eqn:E.
  - eauto.
  - apply lap_loop_raise in E. tauto.
Qed.

End LoopFacts.

(** ** Tyre age

    The specification's reading of "last pit lap": the latest lap before
    [lap], among the laps of the race, on which the car is scheduled to stop,
    and 0 when there is none. *)
Definition latest_stop (stops : list Z) (lap : Z) : Z :=
  fold_right Z.max 0%Z (filter (fun L => (1 <=? L)%Z && (L <? lap)%Z) stops).

Definition last_pit_before (car : Car) (lap : Z) : Z :=
  latest_stop (pit_laps car) lap.

Lemma latest_stop_bounds (stops : list Z) (lap : Z) :
  (1 <= lap)%Z -> (0 <= latest_stop stops lap < lap)%Z.
Proof.
  intros Hlap. unfold latest_stop.
  induction stops as [|a l IH]; simpl; [lia|].
  destruct (Z.leb_spec 1 a); destruct (Z.ltb_spec a lap); simpl; lia.
Qed.

Lemma latest_stop_succ (stops : list Z) (lap : Z) :
  (1 <= lap)%Z ->
  latest_stop stops (lap + 1) =
  if lap_in lap stops then lap else latest_stop stops lap.
Proof.
  intros Hlap. induction stops as [|a l IH]; [reflexivity|].
  pose proof (latest_stop_bounds l (lap + 1) ltac:(lia)) as Hb1.
  pose proof (latest_stop_bounds l lap Hlap) as Hb0.
  unfold latest_stop, lap_in in *. simpl.
  destruct (Z.eqb_spec lap a) as [<-|Hne]; simpl.
  - destruct (Z.leb_spec 1 lap); [|lia].
    destruct (Z.ltb_spec lap (lap + 1)); [|lia]. simpl. lia.
  - destruct (Z.leb_spec 1 a); destruct (Z.ltb_spec a (lap + 1));
      destruct (Z.ltb_spec a lap); simpl; try lia; try exact IH.
    rewrite IH. destruct (existsb (Z.eqb lap) l); lia.
Qed.

Lemma last_pit_before_succ (car : Car) (lap : Z) :
  (1 <= lap)%Z ->
  last_pit_before car (lap + 1) =
  if lap_in lap (pit_laps car) then lap else last_pit_before car lap.
Proof. apply latest_stop_succ. Qed.

(** On consecutive laps the running [last_pit_lap] of the loop is the
    specification's last pit lap. *)
Lemma log_ok_laps_since_pit (car : Car) (track : Track) (hi : Z) :
  forall (lo : Z) (log : list LapRecord),
    (1 <= lo)%Z ->
    map lr_lap log = py_range lo hi ->
    log_ok car track (last_pit_before car lo) log ->
    Forall (fun rec =>
              lr_laps_since_pit rec
              = (lr_lap rec - last_pit_before car (lr_lap rec) - 1)%Z) log.
Proof.
  intros lo. pattern lo. apply (py_range_ind hi); clear lo.
  - intros lo Hge log _ Hmap _. rewrite py_range_nil in Hmap by assumption.
    destruct log; [constructor | discriminate].
  - intros lo Hlt IH log Hlo Hmap Hlog.
    rewrite py_range_cons in Hmap by assumption.
    destruct log as [|rec rest]; [discriminate|].
    simpl in Hmap. injection Hmap as Hlap Hrest.
    destruct Hlog as [Hrec Hlog]. rewrite Hlap in Hrec, Hlog.
    constructor.
    + rewrite (ok_laps_since_pit _ _ _ _ _ Hrec), Hlap. reflexivity.
    + apply IH; [lia | assumption |].
      now rewrite last_pit_before_succ.
Qed.

(** * One car, one race *)

(** What the stored outcome says about the way the loop was left. *)
Definition outcome_ok (track : Track) (e : LoopExit) (o : Outcome) : Prop :=
  status o = exit_status e /\
  match exit_status e with
  | Finished => time o = Some (exit_total_time e) /\ laps o = n_laps track
  | DNF_on_lap k => time o = None /\ laps o = k
  end.

Lemma car_outcome_ok (track : Track) (lap_list : list Z) (e : LoopExit) :
  loop_exit_ok lap_list None e ->
  exists o, car_outcome track e = Ok o /\ outcome_ok track e o.
Proof.
  unfold car_outcome, outcome_ok.
  intros [(Hs & _ & _)|(pre & k & post & _ & Hs & Hv & _)]; rewrite Hs.
  - eexists; split; [reflexivity|]. simpl. auto.
  - rewrite Hv. eexists; split; [reflexivity|]. simpl. auto.
Qed.

Section DriveFacts.
Context {RS : RandomSource}.

(** The laps of the log are the laps driven: all of them for a finisher, the
    laps before the crash lap for a car that crashed. *)
Lemma drive_inv (car : Car) (track : Track) (g g' : RNG) (e : LoopExit) :
  drive car track g = (Ok e, g') ->
  exit_total_time e == log_cost (exit_log e) /\
  log_ok car track 0 (exit_log e) /\
  match exit_status e with
  | Finished => map lr_lap (exit_log e) = py_range 1 (n_laps track + 1)
  | DNF_on_lap k =>
      (1 <= k <= n_laps track)%Z /\
      exit_lap e = Some k /\
      map lr_lap (exit_log e) = py_range 1 k
  end /\
  exists o, car_outcome track e = Ok o /\ outcome_ok track e o.
Proof.
  unfold drive. intros H. apply lap_loop_inv in H as (Ht & Hlog & Hexit).
  split; [rewrite Ht; lra|]. split; [assumption|].
  split; [|eapply car_outcome_ok; eassumption].
  destruct Hexit as [(Hs & Hl & _)|(pre & k & post & Hl & Hs & Hv & Hp)];
    rewrite Hs.
  - assumption.
  - apply py_range_split in Hl as (Hpre & _ & Hk).
    repeat split; try lia; congruence.
Qed.

Lemma drive_returns (car : Car) (track : Track) (g : RNG) :
  valid_car car -> valid_track track ->
  exists e g', drive car track g = (Ok e, g').
Proof. apply lap_loop_returns. Qed.

(** ** All cars, one race *)

Lemma run_cars_app (l1 l2 : list Car) (track : Track) :
  forall (results : dict Outcome) (g : RNG),
    run_cars (l1 ++ l2) track results g
    = bind (run_cars l1 track results) (fun r => run_cars l2 track r) g.
Proof.
  induction l1 as [|c l1 IH]; intros results g; simpl.
  - reflexivity.
  - unfold bind, lift in *.
    destruct (drive c track g) as [[e|err] g1]; [|reflexivity].
    destruct (car_outcome track e) as [o|err]; [|reflexivity].
    apply IH.
Qed.

(** One step of the loop over the cars, when it returns. *)
Lemma run_cars_cons_inv (c : Car) (rest : list Car) (track : Track)
    (results res : dict Outcome) (g g' : RNG) :
  run_cars (c :: rest) track results g = (Ok res, g') ->
  exists e g1 o,
    drive c track g = (Ok e, g1) /\
    car_outcome track e = Ok o /\
    run_cars rest track (dict_set results (name c) o) g1 = (Ok res, g').
Proof.
  simpl. unfold bind at 1.
  destruct (drive c track g) as [[e|err] g1] eqn:He; [|discriminate].
  unfold bind at 1. unfold lift.
  destruct (car_outcome track e) as [o|err] eqn:Ho; [|discriminate].
  intros H. exists e, g1, o. repeat split; assumption.
Qed.

Lemma run_cars_returns (cars : list Car) (track : Track) :
  Forall valid_car cars -> valid_track track ->
  forall (results : dict Outcome) (g : RNG),
    exists res g', run_cars cars track results g = (Ok res, g').
Proof.
  intros Hc Ht. induction Hc as [|c rest Hv _ IH]; intros results g; simpl.
  - unfold ret. eauto.
  - destruct (drive_returns c track g Hv Ht) as (e & g1 & He).
    pose proof (drive_inv _ _ _ _ _ He) as (_ & _ & _ & o & Ho & _).
    unfold bind at 1. rewrite He. unfold bind at 1. unfold lift.
    rewrite Ho. apply IH.
Qed.

(** An entry of a name that no later car bears is left alone. *)
Lemma run_cars_get_other (cars : list Car) (track : Track) (n : string) :
  ~ In n (map name cars) ->
  forall (results res : dict Outcome) (g g' : RNG),
    run_cars cars track results g = (Ok res, g') ->
    dict_get res n = dict_get results n.
Proof.
  induction cars as [|c rest IH]; intros Hout results res g g' H.
  - simpl in H. unfold ret in H. now injection H as <- _.
  - apply run_cars_cons_inv in H as (e & g1 & o & _ & _ & H).
    simpl in Hout. rewrite (IH ltac:(tauto) _ _ _ _ H).
    apply dict_get_set_other. tauto.
Qed.

(** The keys of the results are the names of the cars, once each. *)
Lemma run_cars_keys (cars : list Car) (track : Track) :
  forall (results res : dict Outcome) (g g' : RNG),
    run_cars cars track results g = (Ok res, g') ->
    (NoDup (keys results) -> NoDup (keys res)) /\
    (forall n, In n (keys res) <-> In n (keys results) \/ In n (map name cars)).
Proof.
  induction cars as [|c rest IH]; intros results res g g' H.
  - simpl in H. unfold ret in H. injection H as <- _. simpl.
    split; [auto | tauto].
  - apply run_cars_cons_inv in H as (e & g1 & o & _ & _ & H).
    apply IH in H as [Hnd Hk]. split.
    + intros Hr. apply Hnd. now apply NoDup_keys_set.
    + intros n. rewrite Hk, keys_set_in. simpl.
      split; [intros [[->|?]|?] | intros [?|[<-|?]]]; auto.
Qed.

(** Every entry of the results is the outcome of one drive of a car of that
    name. *)
Lemma run_cars_entries (cars : list Car) (track : Track) :
  forall (results res : dict Outcome) (g g' : RNG),
    run_cars cars track results g = (Ok res, g') ->
    forall n o,
      dict_get res n = Some o ->
      dict_get results n = Some o \/
      exists c g0 e g1,
        In c cars /\ name c = n /\
        drive c track g0 = (Ok e, g1) /\ car_outcome track e = Ok o.
Proof.
  induction cars as [|c rest IH]; intros results res g g' H n o Hn.
  - simpl in H. unfold ret in H. injection H as <- _. auto.
  - apply run_cars_cons_inv in H as (e & g1 & o1 & He & Ho & H).
    destruct (IH _ _ _ _ H n o Hn) as [Hset|(c' & g0 & e' & g2 & Hin & Hr)].
    + destruct (string_dec (name c) n) as [<-|Hne].
      * rewrite dict_get_set_same in Hset. injection Hset as <-.
        right. exists c, g, e, g1. simpl. auto.
      * rewrite dict_get_set_other in Hset by assumption. auto.
    + right. exists c', g0, e', g2. simpl. tauto.
Qed.

(** The outcome stored for the car at one position of the list: it is the
    drive of that car from the generator state left by the cars before it. *)
Lemma run_cars_at (pre post : list Car) (c : Car) (track : Track)
    (results res : dict Outcome) (g g' : RNG) :
  run_cars (pre ++ c :: post) track results g = (Ok res, g') ->
  exists r1 g1 e g2 o,
    run_cars pre track results g = (Ok r1, g1) /\
    drive c track g1 = (Ok e, g2) /\
    car_outcome track e = Ok o /\
    run_cars post track (dict_set r1 (name c) o) g2 = (Ok res, g') /\
    (~ In (name c) (map name post) -> dict_get res (name c) = Some o).
Proof.
  rewrite run_cars_app. unfold bind at 1.
  destruct (run_cars pre track results g) as [[r1|err] g1]; [|discriminate].
  intros H.
  pose proof (run_cars_cons_inv _ _ _ _ _ _ _ H) as (e & g2 & o & He & Ho & Hp).
  exists r1, g1, e, g2, o. repeat split; auto.
  intros Hout. rewrite (run_cars_get_other _ _ _ Hout _ _ _ _ Hp).
  apply dict_get_set_same.
Qed.

End DriveFacts.

(** * Example configurations *)

Definition car_A : Car :=
  {| name := "A"; base_speed := 100; speed_std := 0; crash_prob := 1 # 2;
     pit_mean := 20; pit_std := 1; pit_laps := [2%Z]; tyre_decay := 1 # 100;
     boost_laps := [3%Z]; boost_speed := 4; boost_crash := 1 # 10 |}.

Definition car_B : Car :=
  {| name := "B"; base_speed := 50; speed_std := 0; crash_prob := 1 # 2;
     pit_mean := 20; pit_std := 1; pit_laps := []; tyre_decay := 0;
     boost_laps := []; boost_speed := 0; boost_crash := 0 |}.

Definition short_track : Track :=
  {| lap_length := 1000; n_laps := 3; weather_variance := 0 |}.

Definition one_lap_track : Track :=
  {| lap_length := 1000; n_laps := 1; weather_variance := 0 |}.

Lemma car_A_valid : valid_car car_A.
Proof. unfold valid_car; simpl; split; lra. Defined.

Lemma car_B_valid : valid_car car_B.
Proof. unfold valid_car; simpl; split; lra. Defined.

Lemma short_track_valid : valid_track short_track.
Proof. unfold valid_track; simpl; lra. Defined.

Lemma one_lap_track_valid : valid_track one_lap_track.
Proof. unfold valid_track; simpl; lra. Defined.

(** * Claims about one race *)

(** What claim C6 says of one entry [o] of the results, read off the loop
    exit [e] it was built from. *)
Definition laps_claim (track : Track) (e : LoopExit) (o : Outcome) : Prop :=
  status o = exit_status e /\
  exit_total_time e == log_cost (exit_log e) /\
  match status o with
  | Finished =>
      laps o = n_laps track /\
      time o = Some (exit_total_time e) /\
      map lr_lap (exit_log e) = py_range 1 (n_laps track + 1)
  | DNF_on_lap k =>
      laps o = k /\
      (1 <= k <= n_laps track)%Z /\
      time o = None /\
      map lr_lap (exit_log e) = py_range 1 k
  end.

(** C6. In the results of one race every car has an entry, and every entry
    is the outcome of one run of the lap loop for a car of that name, with:
    laps completed equal to the circuit's [n_laps] when the status is
    Finished, and to the crash lap [k] when the status is DNF on lap [k];
    the laps that added time are exactly laps [1 .. n_laps], respectively
    [1 .. k - 1], and the accumulated total is the sum of their lap and pit
    times, so the crash lap adds nothing and no later lap is run.  For
    deviations that are not negative the race does return its results. *)
Theorem laps_completed {RS : RandomSource} (cars : list Car) (track : Track)
    (g : RNG) :
  (Forall valid_car cars -> valid_track track ->
   exists res g', RaceSimulator.run cars track g = (Ok res, g')) /\
  (forall res g',
     RaceSimulator.run cars track g = (Ok res, g') ->
     (forall c, In c cars -> In (name c) (keys res)) /\
     (forall n o,
        dict_get res n = Some o ->
        exists c g0 e g1,
          In c cars /\ name c = n /\
          drive c track g0 = (Ok e, g1) /\
          car_outcome track e = Ok o /\
          laps_claim track e o)).
Proof.
  split.
  - intros Hc Ht. now apply run_cars_returns.
  - unfold RaceSimulator.run. intros res g' H. split.
    + intros c Hin. apply (run_cars_keys _ _ _ _ _ _ H). right.
      now apply in_map.
    + intros n o Hn.
      destruct (run_cars_entries _ _ _ _ _ _ H n o Hn)
        as [Habs|(c & g0 & e & g1 & Hin & Hname & He & Ho)];
        [discriminate|].
      exists c, g0, e, g1. repeat split; try assumption.
      * pose proof (drive_inv _ _ _ _ _ He) as (_ & _ & _ & o' & Ho' & Hs & _).
        congruence.
      * apply (drive_inv _ _ _ _ _ He).
      * pose proof (drive_inv _ _ _ _ _ He)
          as (_ & _ & Hlaps & o' & Ho' & Hs & Hout).
        assert (o' = o) by congruence. subst o'. rewrite Hs.
        destruct (exit_status e); intuition.
Qed.

Lemma laps_completed_witness :
  exists res g',
    @RaceSimulator.run ScriptedSource [car_A; car_B] short_track
      [90; 0; 0; 90; 0; 0; 3; 65; 0; 0; 20]%Z = (Ok res, g').
Proof.
  apply (@laps_completed ScriptedSource [car_A; car_B] short_track).
  - repeat constructor; simpl; lra.
  - exact short_track_valid.
Defined.

Lemma py_range_in (lo hi x : Z) : In x (py_range lo hi) -> (lo <= x < hi)%Z.
Proof.
  unfold py_range. rewrite in_map_iff. intros (i & <- & Hi).
  apply in_seq in Hi. lia.
Qed.

Lemma py_range_consecutive (lo hi x y : Z) (pre post : list Z) :
  py_range lo hi = pre ++ x :: y :: post -> (lo <= x)%Z /\ y = (x + 1)%Z.
Proof.
  intros H. apply py_range_split in H as (_ & Hpost & Hx).
  split; [lia|].
  destruct (Z_lt_le_dec (x + 1) hi) as [Hlt|Hge].
  - rewrite py_range_cons in Hpost by assumption. congruence.
  - rewrite py_range_nil in Hpost by assumption. discriminate.
Qed.

Lemma lap_in_true (x : Z) (l : list Z) : In x l -> lap_in x l = true.
Proof.
  intros H. unfold lap_in. apply existsb_exists. exists x.
  split; [assumption | apply Z.eqb_refl].
Qed.

Lemma log_ok_records (car : Car) (track : Track) (log : list LapRecord) :
  forall last_pit_lap,
    log_ok car track last_pit_lap log ->
    Forall (fun rec =>
              exists last, lap_record_ok car track (lr_lap rec) last rec) log.
Proof.
  induction log as [|rec rest IH]; intros last Hlog; constructor.
  - destruct Hlog as [Hrec _]. eauto.
  - destruct Hlog as [_ Hrest]. eapply IH; eassumption.
Qed.

(** The reset is observed on a run: [car_A] stops on lap 2, and its three
    laps see tyre ages 0, 1, 0. *)
Example tyre_age_run :
  exists e g',
    @drive ScriptedSource car_A short_track
      [90; 0; 0; 90; 0; 0; 3; 75; 0; 0; 20]%Z = (Ok e, g') /\
    exit_status e = Finished /\
    map lr_laps_since_pit (exit_log e) = [0; 1; 0]%Z.
Proof. eexists. eexists. vm_compute. repeat split. Qed.

(** A raw speed below zero is replaced by the floor: with a tyre decay of
    200% per lap the second lap of this car would run at 100 - 200, and runs
    at 1/1000. *)
Definition car_worn : Car :=
  {| name := "W"; base_speed := 100; speed_std := 0; crash_prob := 0;
     pit_mean := 0; pit_std := 0; pit_laps := []; tyre_decay := 2;
     boost_laps := []; boost_speed := 0; boost_crash := 0 |}.

Example clamped_speed_run :
  exists e g',
    @drive ScriptedSource car_worn short_track [] = (Ok e, g') /\
    exit_status e = Finished /\
    Forall2 Qeq (map lr_speed (exit_log e)) [100; 1 # 1000; 1 # 1000].
Proof.
  eexists. eexists. vm_compute. repeat split.
  repeat constructor; reflexivity.
Qed.

(** ** Order of evaluation *)

(** Claim C4 as it is stated: the entry of every name is the same whatever
    the order in which the cars are listed. *)
Definition order_independent {RS : RandomSource} (cars : list Car)
    (track : Track) (g : RNG) : Prop :=
  forall cars',
    Permutation cars cars' ->
    forall res res' g1 g2,
      RaceSimulator.run cars track g = (Ok res, g1) ->
      RaceSimulator.run cars' track g = (Ok res', g2) ->
      forall n, dict_get res n = dict_get res' n.

(** C4, refuted as stated.  The cars draw from one generator, one after the
    other.  With the draws 0.10, 0.90, 0, 0 and two cars that crash below
    0.5, the car listed first crashes on lap 1 and the other finishes; so
    swapping the two cars swaps their fates. *)
Lemma order_changes_outcomes :
  ~ @order_independent ScriptedSource [car_A; car_B] one_lap_track
      [10; 90; 0; 0]%Z.
Proof.
  intros H.
  specialize (H [car_B; car_A] (perm_swap car_B car_A [])).
  specialize (H _ _ _ _ eq_refl eq_refl "A"%string).
  vm_compute in H. discriminate H.
Qed.

(** C4, amended.  The outcome stored for a car is the outcome of its own lap
    loop, started from the generator state that the cars listed before it
    leave behind; it depends on nothing else.  In particular the cars listed
    after it, their number, parameters and order, do not affect it (as long
    as none of them bears its name and overwrites the entry). *)
Theorem outcome_from_own_draws {RS : RandomSource} (pre : list Car) (c : Car)
    (track : Track) (g : RNG) :
  Forall valid_car pre -> valid_car c -> valid_track track ->
  exists r1 g1 e g2 o,
    RaceSimulator.run pre track g = (Ok r1, g1) /\
    drive c track g1 = (Ok e, g2) /\
    car_outcome track e = Ok o /\
    forall post,
      Forall valid_car post ->
      ~ In (name c) (map name post) ->
      exists res g',
        RaceSimulator.run (pre ++ c :: post) track g = (Ok res, g') /\
        dict_get res (name c) = Some o.
Proof.
  intros Hpre Hc Ht. unfold RaceSimulator.run.
  destruct (run_cars_returns pre track Hpre Ht [] g) as (r1 & g1 & Hr1).
  destruct (drive_returns c track g1 Hc Ht) as (e & g2 & He).
  pose proof (drive_inv _ _ _ _ _ He) as (_ & _ & _ & o & Ho & _).
  exists r1, g1, e, g2, o. repeat split; try assumption.
  intros post Hpost Hout.
  assert (Hall : Forall valid_car (pre ++ c :: post)).
  { apply Forall_app. split; [assumption | now constructor]. }
  destruct (run_cars_returns _ track Hall Ht [] g) as (res & g' & Hres).
  exists res, g'. split; [assumption|].
  apply run_cars_at in Hres
    as (r1' & g1' & e' & g2' & o' & Hr1' & He' & Ho' & _ & Hget).
  rewrite Hr1 in Hr1'. injection Hr1' as <- <-.
  rewrite He in He'. injection He' as <- <-.
  rewrite Ho in Ho'. injection Ho' as <-.
  now apply Hget.
Qed.

Lemma outcome_from_own_draws_witness :
  exists r1 g1 e g2 o,
    @RaceSimulator.run ScriptedSource [car_B] short_track
      [90; 0; 0; 90; 0; 0; 90; 0; 0; 75; 0; 0]%Z = (Ok r1, g1) /\
    @drive ScriptedSource car_A short_track g1 = (Ok e, g2) /\
    car_outcome short_track e = Ok o /\
    forall post,
      Forall valid_car post ->
      ~ In (name car_A) (map name post) ->
      exists res g',
        @RaceSimulator.run ScriptedSource ([car_B] ++ car_A :: post)
          short_track [90; 0; 0; 90; 0; 0; 90; 0; 0; 75; 0; 0]%Z
        = (Ok res, g') /\
        dict_get res (name car_A) = Some o.
Proof.
  apply (@outcome_from_own_draws ScriptedSource [car_B] car_A short_track).
  - constructor; [exact car_B_valid | constructor].
  - exact car_A_valid.
  - exact short_track_valid.
Defined.

(** * Sorting *)

Section SortedFacts.
Context {A : Type} (lt : A -> A -> bool).

Lemma sorted_insert_perm (x : A) (l : list A) :
  Permutation (x :: l) (sorted_insert lt x l).
Proof.
  induction l as [|y l IH]; simpl.
  - apply Permutation_refl.
  - destruct (lt y x).
    + eapply perm_trans; [apply perm_swap|]. now apply perm_skip.
    + apply Permutation_refl.
Qed.

Lemma py_sorted_perm (l : list A) : Permutation l (py_sorted lt l).
Proof.
  induction l as [|x l IH]; simpl.
  - apply perm_nil.
  - eapply perm_trans; [apply perm_skip, IH | apply sorted_insert_perm].
Qed.

Lemma py_sorted_in (l : list A) (x : A) : In x (py_sorted lt l) <-> In x l.
Proof.
  split; apply Permutation_in;
    [apply Permutation_sym|]; apply py_sorted_perm.
Qed.

Lemma py_sorted_nonempty (x : A) (l : list A) : py_sorted lt (x :: l) <> [].
Proof.
  intros H. pose proof (py_sorted_perm (x :: l)) as Hp. rewrite H in Hp.
  apply Permutation_sym, Permutation_nil in Hp. discriminate.
Qed.

End SortedFacts.

(** ** A sort that honours the contract of [sort_values]

    [win_gt a b] is [a] before [b] in descending order of Win %. *)
Definition win_gt (a b : Row) : bool :=
  if Qlt_le_dec (Win_pct b) (Win_pct a) then true else false.

Definition descending : Row -> Row -> Prop :=
  fun a b => Win_pct b <= Win_pct a.

Lemma win_insert_sorted (x : Row) (l : list Row) :
  StronglySorted descending l ->
  StronglySorted descending (sorted_insert win_gt x l).
Proof.
  induction 1 as [|y l Hl IH Hy]; simpl.
  - repeat constructor.
  - unfold win_gt at 1. destruct (Qlt_le_dec (Win_pct x) (Win_pct y)) as [Hlt|Hle].
    + constructor; [exact IH|].
      apply (Permutation_Forall (sorted_insert_perm win_gt x l)).
      constructor; [unfold descending; lra | exact Hy].
    + constructor; [now constructor|].
      constructor; [exact Hle|].
      eapply Forall_impl; [|exact Hy]. unfold descending. intros r Hr. lra.
Qed.

Lemma win_sorted_desc (l : list Row) :
  StronglySorted descending (py_sorted win_gt l).
Proof.
  induction l as [|x l IH]; simpl.
  - constructor.
  - now apply win_insert_sorted.
Qed.

(** A stable descending sort (what [kind="stable"] would give). *)
Definition StableSort : DataFrameSort :=
  {| sort_values := py_sorted win_gt;
     sort_values_perm := py_sorted_perm win_gt;
     sort_values_desc := win_sorted_desc |}.

(** * The tracking dictionaries *)

Import MonteCarloRace.

Section ByName.
Context {V : Type}.

Lemma by_name_fold_get (cars : list Car) (v : V) :
  forall (d : dict V) (n : string),
    dict_get (fold_left (fun d c => dict_set d (name c) v) cars d) n
    = if in_dec string_dec n (map name cars) then Some v else dict_get d n.
Proof.
  induction cars as [|c rest IH]; intros d n; simpl.
  - reflexivity.
  - rewrite IH.
    destruct (in_dec string_dec n (map name rest)) as [Hin|Hout].
    + destruct (string_dec (name c) n); [reflexivity|].
      destruct (in_dec string_dec n (map name rest)); tauto.
    + destruct (string_dec (name c) n) as [->|Hne].
      * apply dict_get_set_same.
      * destruct (in_dec string_dec n (map name rest)); [tauto|].
        now apply dict_get_set_other.
Qed.

Lemma by_name_get (cars : list Car) (v : V) (n : string) :
  dict_get (by_name cars v) n
  = if in_dec string_dec n (map name cars) then Some v else None.
Proof. unfold by_name. now rewrite by_name_fold_get. Qed.

Lemma by_name_keys (cars : list Car) (v : V) (n : string) :
  In n (keys (by_name cars v)) <-> In n (map name cars).
Proof.
  rewrite in_keys_get, by_name_get.
  destruct (in_dec string_dec n (map name cars)).
  - split; eauto.
  - split; [intros [x Hx]; discriminate | tauto].
Qed.

(** The dictionary only depends on the names of the cars. *)
Lemma by_name_names (cars cars' : list Car) (v : V) :
  map name cars = map name cars' -> by_name cars v = by_name cars' v.
Proof.
  unfold by_name. generalize (@nil (string * V)). revert cars'.
  induction cars as [|c rest IH]; intros [|c' rest'] d H;
    try discriminate; [reflexivity|].
  simpl in *. injection H as Hc Hrest. rewrite Hc. now apply IH.
Qed.

End ByName.

(** [incr_all] keeps the keys, never lowers a count, and raises the count
    of each listed name. *)
Lemma incr_all_inv (names : list string) :
  forall d d',
    incr_all d names = Ok d' ->
    keys d' = keys d /\
    forall n v,
      dict_get d n = Some v ->
      exists v',
        dict_get d' n = Some v' /\ (v <= v')%Z /\
        (In n names -> (v + 1 <= v')%Z) /\
        (~ In n names -> v' = v).
Proof.
  induction names as [|m rest IH]; intros d d'; simpl.
  - intros [= <-]. split; [reflexivity|]. intros n v Hv.
    exists v. repeat split; [assumption | lia | tauto].
  - unfold rbind. destruct (dict_incr d m) as [d1|err] eqn:E; [|discriminate].
    intros H. apply IH in H as [Hk Hmono].
    pose proof (dict_incr_keys _ _ _ E) as Hk1.
    apply dict_incr_inv in E as (v0 & Hv0 & ->).
    split; [congruence|]. intros n v Hv.
    destruct (string_dec m n) as [->|Hne].
    + rewrite Hv in Hv0. injection Hv0 as <-.
      destruct (Hmono n (v + 1)%Z (dict_get_set_same _ _ _))
        as (v' & Hv' & Hle & _ & _).
      exists v'. repeat split; [assumption | lia | lia | tauto].
    + destruct (Hmono n v) as (v' & Hv' & Hle & Hin & Hout).
      { now rewrite dict_get_set_other. }
      exists v'. repeat split; [assumption | lia | | ].
      * intros [?|?]; [contradiction | auto].
      * intros Hno. apply Hout. tauto.
Qed.

Lemma incr_all_ok (names : list string) :
  forall d, incl names (keys d) -> exists d', incr_all d names = Ok d'.
Proof.
  induction names as [|m rest IH]; intros d Hincl; simpl.
  - eauto.
  - destruct (dict_incr_ok d m) as [d1 Hd1].
    { apply Hincl. now left. }
    rewrite Hd1. simpl. apply IH.
    rewrite (dict_incr_keys _ _ _ Hd1). intros x Hx. apply Hincl. now right.
Qed.

(** * One trial *)

(** The finishers of a race in ranking order, as [count_podium] computes
    them, and the winner. *)
Definition race_order (res : dict Outcome) : list (string * Outcome) :=
  py_sorted (fun a b => time_lt (time (snd a)) (time (snd b)))
    (filter (fun kv => is_finished (snd kv)) res).

Definition winner (res : dict Outcome) : option string :=
  match race_order res with
  | [] => None
  | (w, _) :: _ => Some w
  end.

Definition is_winner (res : dict Outcome) (n : string) : bool :=
  match winner res with
  | Some w => String.eqb w n
  | None => false
  end.

Lemma race_order_in (res : dict Outcome) (n : string) (o : Outcome) :
  In (n, o) (race_order res) <-> In (n, o) res /\ is_finished o = true.
Proof. unfold race_order. now rewrite py_sorted_in, filter_In. Qed.

Lemma winner_finished (res : dict Outcome) (w : string) :
  winner res = Some w ->
  exists o, In (w, o) res /\ is_finished o = true.
Proof.
  unfold winner. destruct (race_order res) as [|[w' o] rest] eqn:E;
    [discriminate|].
  intros [= <-]. exists o. apply race_order_in. rewrite E. now left.
Qed.

Lemma count_podium_inv (acc acc' : Acc) (res : dict Outcome) :
  count_podium acc res = Ok acc' ->
  finish_times acc' = finish_times acc /\
  dnfs acc' = dnfs acc /\
  keys (winner_counts acc') = keys (winner_counts acc) /\
  keys (podium_counts acc') = keys (podium_counts acc) /\
  (forall n v,
     dict_get (winner_counts acc) n = Some v ->
     dict_get (winner_counts acc') n
     = Some (if is_winner res n then v + 1 else v)%Z) /\
  (forall n v,
     dict_get (podium_counts acc) n = Some v ->
     exists v',
       dict_get (podium_counts acc') n = Some v' /\ (v <= v')%Z /\
       (is_winner res n = true -> (v + 1 <= v')%Z)).
Proof.
  unfold count_podium, is_winner, winner, race_order.
  destruct (filter (fun kv => is_finished (snd kv)) res) as [|p l] eqn:F.
  - intros [= <-]. simpl. repeat split; try reflexivity.
    + intros n v Hv. exact Hv.
    + intros n v Hv. exists v. repeat split; [assumption | lia | discriminate].
  - destruct (py_sorted _ (p :: l)) as [|[w o] rest] eqn:S; [discriminate|].
    unfold rbind.
    destruct (dict_incr (winner_counts acc) w) as [wc|err] eqn:Ew;
      [|discriminate].
    destruct (incr_all (podium_counts acc) (map fst (firstn 3 ((w, o) :: rest))))
      as [pc|err] eqn:Ep; [|discriminate].
    intros [= <-]. simpl.
    pose proof (dict_incr_keys _ _ _ Ew) as Hkw.
    apply dict_incr_inv in Ew as (v0 & Hv0 & ->).
    apply incr_all_inv in Ep as [Hkp Hmono].
    repeat split; try assumption.
    + intros n v Hv. destruct (String.eqb_spec w n) as [->|Hne].
      * rewrite dict_get_set_same. congruence.
      * now rewrite dict_get_set_other.
    + intros n v Hv. destruct (Hmono n v Hv) as (v' & Hv' & Hle & Hin & _).
      exists v'. repeat split; try assumption.
      intros Hw. apply Hin. apply String.eqb_eq in Hw. subst n. now left.
Qed.

Lemma in_firstn {A : Type} (n : nat) (l : list A) (x : A) :
  In x (firstn n l) -> In x l.
Proof.
  intros H. rewrite <- (firstn_skipn n l). apply in_or_app. now left.
Qed.

Lemma count_podium_ok (acc : Acc) (res : dict Outcome) :
  incl (keys res) (keys (winner_counts acc)) ->
  incl (keys res) (keys (podium_counts acc)) ->
  exists acc', count_podium acc res = Ok acc'.
Proof.
  intros Hw Hp. unfold count_podium.
  destruct (filter (fun kv => is_finished (snd kv)) res) as [|p l] eqn:F;
    [eauto|].
  set (lt := fun a b : string * Outcome => time_lt (time (snd a)) (time (snd b))).
  assert (Hin : forall kv, In kv (py_sorted lt (p :: l)) -> In (fst kv) (keys res)).
  { intros kv Hkv. apply py_sorted_in in Hkv. rewrite <- F in Hkv.
    apply filter_In in Hkv as [Hkv _]. now apply in_map. }
  destruct (py_sorted lt (p :: l)) as [|[w o] rest] eqn:S.
  { now apply py_sorted_nonempty in S. }
  destruct (dict_incr_ok (winner_counts acc) w) as [wc Hwc].
  { apply Hw. apply (Hin (w, o)). now left. }
  rewrite Hwc. simpl.
  destruct (incr_all_ok (map fst (firstn 3 ((w, o) :: rest))) (podium_counts acc))
    as [pc Hpc].
  { intros n Hn. apply in_map_iff in Hn as (kv & <- & Hkv).
    apply Hp, Hin. eapply in_firstn; eassumption. }
  simpl in Hpc. rewrite Hpc. simpl. eauto.
Qed.

(** What the time and DNF loop adds for one name. *)
Definition dnf_at (items : dict Outcome) (n : string) : Z :=
  match dict_get items n with
  | Some o => if is_finished o then 0%Z else 1%Z
  | None => 0%Z
  end.

Definition times_at (items : dict Outcome) (n : string) : list (option Q) :=
  match dict_get items n with
  | Some o => if is_finished o then [time o] else []
  | None => []
  end.

Lemma count_times_inv (items : dict Outcome) :
  NoDup (keys items) ->
  forall acc acc',
    count_times acc items = Ok acc' ->
    winner_counts acc' = winner_counts acc /\
    podium_counts acc' = podium_counts acc /\
    keys (finish_times acc') = keys (finish_times acc) /\
    keys (dnfs acc') = keys (dnfs acc) /\
    (forall n v,
       dict_get (dnfs acc) n = Some v ->
       dict_get (dnfs acc') n = Some (v + dnf_at items n)%Z) /\
    (forall n l,
       dict_get (finish_times acc) n = Some l ->
       dict_get (finish_times acc') n = Some (l ++ times_at items n)).
Proof.
  induction items as [|[m d] rest IH]; intros Hnd acc acc'.
  - simpl. intros [= <-]. repeat split; try reflexivity.
    + intros n v Hv. unfold dnf_at. simpl. rewrite Hv. f_equal. lia.
    + intros n l Hl. unfold times_at. simpl. now rewrite app_nil_r.
  - inversion Hnd as [|? ? Hout Hnd']; subst.
    assert (Hm : dict_get rest m = None) by now apply not_in_keys_get.
    assert (Hother : forall n, m <> n ->
              dnf_at ((m, d) :: rest) n = dnf_at rest n /\
              times_at ((m, d) :: rest) n = times_at rest n).
    { intros n Hne. unfold dnf_at, times_at. simpl.
      destruct (String.eqb_spec m n); [contradiction | auto]. }
    simpl. destruct (is_finished d) eqn:Hf; unfold rbind.
    + destruct (dict_append (finish_times acc) m (time d)) as [ft|err] eqn:E;
        [|discriminate].
      intros H. apply (IH Hnd') in H as (Hw & Hp & Hkt & Hkd & Hd & Ht).
      simpl in *. pose proof (dict_append_keys _ _ _ _ E) as Hk.
      unfold dict_append, dict_lookup in E.
      destruct (dict_get (finish_times acc) m) as [l0|] eqn:El0;
        [|discriminate]. simpl in E. injection E as <-.
      repeat split; try assumption; try congruence.
      * intros n v Hv. rewrite (Hd n v Hv). f_equal. f_equal.
        unfold dnf_at. simpl. destruct (String.eqb_spec m n) as [<-|Hne].
        -- now rewrite Hm, Hf.
        -- reflexivity.
      * intros n l Hl. destruct (string_dec m n) as [<-|Hne].
        -- rewrite (Ht m (l0 ++ [time d]) (dict_get_set_same _ _ _)).
           unfold times_at. simpl. rewrite String.eqb_refl, Hm, Hf.
           rewrite app_nil_r. congruence.
        -- rewrite (Ht n l); [|now rewrite dict_get_set_other].
           now rewrite (proj2 (Hother n Hne)).
    + destruct (dict_incr (dnfs acc) m) as [dn|err] eqn:E; [|discriminate].
      intros H. apply (IH Hnd') in H as (Hw & Hp & Hkt & Hkd & Hd & Ht).
      simpl in *. pose proof (dict_incr_keys _ _ _ E) as Hk.
      apply dict_incr_inv in E as (v0 & Hv0 & ->).
      repeat split; try assumption; try congruence.
      * intros n v Hv. destruct (string_dec m n) as [<-|Hne].
        -- rewrite (Hd m (v0 + 1)%Z (dict_get_set_same _ _ _)).
           unfold dnf_at. simpl. rewrite String.eqb_refl, Hm, Hf.
           f_equal. assert (v = v0) by congruence. lia.
        -- rewrite (Hd n v); [|now rewrite dict_get_set_other].
           now rewrite (proj1 (Hother n Hne)).
      * intros n l Hl. rewrite (Ht n l Hl). f_equal. f_equal.
        unfold times_at. simpl. destruct (String.eqb_spec m n) as [<-|Hne].
        -- now rewrite Hm, Hf.
        -- reflexivity.
Qed.

Lemma count_times_ok (items : dict Outcome) :
  forall acc,
    incl (keys items) (keys (finish_times acc)) ->
    incl (keys items) (keys (dnfs acc)) ->
    exists acc', count_times acc items = Ok acc'.
Proof.
  induction items as [|[m d] rest IH]; intros acc Ht Hd; simpl.
  - eauto.
  - assert (Ht' : incl (keys rest) (keys (finish_times acc))).
    { intros x Hx. apply Ht. now right. }
    assert (Hd' : incl (keys rest) (keys (dnfs acc))).
    { intros x Hx. apply Hd. now right. }
    destruct (is_finished d).
    + destruct (dict_append_ok (finish_times acc) m (time d)) as [ft Hft].
      { apply Ht. now left. }
      rewrite Hft. simpl. apply IH; simpl; [|assumption].
      now rewrite (dict_append_keys _ _ _ _ Hft).
    + destruct (dict_incr_ok (dnfs acc) m) as [dn Hdn].
      { apply Hd. now left. }
      rewrite Hdn. simpl. apply IH; simpl; [assumption|].
      now rewrite (dict_incr_keys _ _ _ Hdn).
Qed.

(** * The trial loop *)

(** What holds of the tracking dictionaries between two trials: every car
    has its four entries, and no car has more wins than podiums. *)
Record acc_inv (names : list string) (acc : Acc) : Prop := {
  inv_wins : incl names (keys (winner_counts acc));
  inv_podium : incl names (keys (podium_counts acc));
  inv_times : incl names (keys (finish_times acc));
  inv_dnfs : incl names (keys (dnfs acc));
  inv_order :
    forall n w p,
      dict_get (winner_counts acc) n = Some w ->
      dict_get (podium_counts acc) n = Some p ->
      (0 <= w <= p)%Z
}.

Lemma init_inv (cars : list Car) : acc_inv (map name cars) (init cars).
Proof.
  constructor; simpl; try (intros n Hn; now apply by_name_keys).
  intros n w p. rewrite !by_name_get.
  destruct (in_dec string_dec n (map name cars)); [|discriminate].
  intros [= <-] [= <-]. lia.
Qed.

Lemma record_trial_inv (names : list string) (acc acc' : Acc)
    (res : dict Outcome) :
  NoDup (keys res) ->
  acc_inv names acc ->
  record_trial acc res = Ok acc' ->
  acc_inv names acc'.
Proof.
  intros Hnd [Hw Hp Ht Hd Ho]. unfold record_trial, rbind.
  destruct (count_podium acc res) as [acc1|err] eqn:E1; [|discriminate].
  intros E2.
  apply count_podium_inv in E1 as (Ht1 & Hd1 & Hkw & Hkp & Hwin & Hpod).
  apply (count_times_inv res Hnd) in E2 as (Hw2 & Hp2 & Hkt & Hkd & _ & _).
  constructor.
  - rewrite Hw2, Hkw. exact Hw.
  - rewrite Hp2, Hkp. exact Hp.
  - rewrite Hkt, Ht1. exact Ht.
  - rewrite Hkd, Hd1. exact Hd.
  - rewrite Hw2, Hp2. intros n w' p' Hw' Hp'.
    assert (Hiw : In n (keys (winner_counts acc))).
    { rewrite <- Hkw. apply in_keys_get. eauto. }
    assert (Hip : In n (keys (podium_counts acc))).
    { rewrite <- Hkp. apply in_keys_get. eauto. }
    apply in_keys_get in Hiw as [w Hgw]. apply in_keys_get in Hip as [p Hgp].
    pose proof (Ho n w p Hgw Hgp) as Hwp.
    rewrite (Hwin n w Hgw) in Hw'. injection Hw' as <-.
    destruct (Hpod n p Hgp) as (p1 & Hp1 & Hle & Hin).
    rewrite Hp1 in Hp'. injection Hp' as <-.
    destruct (is_winner res n); [specialize (Hin eq_refl)|]; lia.
Qed.

Lemma record_trial_ok (names : list string) (acc : Acc) (res : dict Outcome) :
  acc_inv names acc ->
  incl (keys res) names ->
  exists acc', record_trial acc res = Ok acc'.
Proof.
  intros [Hw Hp Ht Hd _] Hres. unfold record_trial.
  destruct (count_podium_ok acc res) as [acc1 E1].
  { intros n Hn. auto. }
  { intros n Hn. auto. }
  rewrite E1. simpl.
  apply count_podium_inv in E1 as (Ht1 & Hd1 & _).
  apply count_times_ok.
  - rewrite Ht1. intros n Hn. auto.
  - rewrite Hd1. intros n Hn. auto.
Qed.

Section TrialFacts.
Context {RS : RandomSource}.

(** The results of a race have one entry per name of a car. *)
Lemma run_keys (cars : list Car) (track : Track) (g g' : RNG)
    (res : dict Outcome) :
  RaceSimulator.run cars track g = (Ok res, g') ->
  NoDup (keys res) /\ forall n, In n (keys res) <-> In n (map name cars).
Proof.
  unfold RaceSimulator.run. intros H.
  apply run_cars_keys in H as [Hnd Hk]. split.
  - apply Hnd. constructor.
  - intros n. rewrite Hk. simpl. tauto.
Qed.

(** One iteration of the trial loop, when it returns. *)
Lemma trials_cons_inv (cars : list Car) (track : Track) (i : Z)
    (rest : list Z) (acc acc' : Acc) (g g' : RNG) :
  trials cars track (i :: rest) acc g = (Ok acc', g') ->
  exists res g1 acc1,
    RaceSimulator.run cars track g = (Ok res, g1) /\
    record_trial acc res = Ok acc1 /\
    trials cars track rest acc1 g1 = (Ok acc', g').
Proof.
  simpl. unfold bind at 1.
  destruct (RaceSimulator.run cars track g) as [[res|err] g1] eqn:E;
    [|discriminate].
  unfold bind at 1. unfold lift.
  destruct (record_trial acc res) as [acc1|err] eqn:E1; [|discriminate].
  intros H. exists res, g1, acc1. repeat split; assumption.
Qed.

Lemma trials_inv (cars : list Car) (track : Track) (trial_list : list Z) :
  forall acc acc' g g',
    acc_inv (map name cars) acc ->
    trials cars track trial_list acc g = (Ok acc', g') ->
    acc_inv (map name cars) acc'.
Proof.
  induction trial_list as [|i rest IH]; intros acc acc' g g' Hinv H.
  - simpl in H. unfold ret in H. now injection H as <- _.
  - apply trials_cons_inv in H as (res & g1 & acc1 & Hres & Hrec & H).
    eapply IH; [|exact H].
    eapply record_trial_inv; [|exact Hinv|exact Hrec].
    apply (run_keys _ _ _ _ _ Hres).
Qed.

Lemma trials_returns (cars : list Car) (track : Track) (trial_list : list Z) :
  Forall valid_car cars -> valid_track track ->
  forall acc g,
    acc_inv (map name cars) acc ->
    exists acc' g', trials cars track trial_list acc g = (Ok acc', g').
Proof.
  intros Hc Ht. induction trial_list as [|i rest IH]; intros acc g Hinv; simpl.
  - unfold ret. eauto.
  - destruct (run_cars_returns cars track Hc Ht [] g) as (res & g1 & Hres).
    fold (RaceSimulator.run cars track g) in Hres.
    pose proof (run_keys _ _ _ _ _ Hres) as [Hnd Hk].
    destruct (record_trial_ok (map name cars) acc res Hinv) as [acc1 Hrec].
    { intros n Hn. now apply Hk. }
    unfold bind at 1. rewrite Hres. unfold bind at 1. unfold lift.
    rewrite Hrec. apply IH.
    eapply record_trial_inv; eassumption.
Qed.

End TrialFacts.

(** C10. After any number of trials, every competitor has a win count and a
    podium count, and the podium count is at least the win count (which is
    not negative).  For deviations that are not negative the trial loop does
    return. *)
Theorem podium_at_least_wins {RS : RandomSource} (cars : list Car)
    (track : Track) (n_trials : Z) (g : RNG) :
  (Forall valid_car cars -> valid_track track ->
   exists acc g',
     trials cars track (py_range 1 (n_trials + 1)) (init cars) g
     = (Ok acc, g')) /\
  (forall acc g',
     trials cars track (py_range 1 (n_trials + 1)) (init cars) g
     = (Ok acc, g') ->
     forall c,
       In c cars ->
       exists w p,
         dict_get (winner_counts acc) (name c) = Some w /\
         dict_get (podium_counts acc) (name c) = Some p /\
         (0 <= w <= p)%Z).
Proof.
  split.
  - intros Hc Ht. apply trials_returns; [assumption | assumption |].
    apply init_inv.
  - intros acc g' H c Hc.
    apply trials_inv in H; [|apply init_inv].
    destruct H as [Hw Hp _ _ Ho].
    assert (Hn : In (name c) (map name cars)) by now apply in_map.
    destruct (proj1 (in_keys_get _ _) (Hw _ Hn)) as [w Hgw].
    destruct (proj1 (in_keys_get _ _) (Hp _ Hn)) as [p Hgp].
    exists w, p. repeat split; try assumption; apply (Ho _ _ _ Hgw Hgp).
Qed.

Lemma podium_at_least_wins_witness :
  exists acc g',
    @trials ScriptedSource [car_A; car_B] one_lap_track (py_range 1 (2 + 1))
      (init [car_A; car_B]) [90; 0; 0; 10; 90; 0; 0; 90; 0; 0]%Z
    = (Ok acc, g') /\
    dict_get (winner_counts acc) "A" = Some 2%Z /\
    dict_get (podium_counts acc) "A" = Some 2%Z /\
    dict_get (winner_counts acc) "B" = Some 0%Z /\
    dict_get (podium_counts acc) "B" = Some 1%Z /\
    forall c,
      In c [car_A; car_B] ->
      exists w p,
        dict_get (winner_counts acc) (name c) = Some w /\
        dict_get (podium_counts acc) (name c) = Some p /\
        (0 <= w <= p)%Z.
Proof.
  eexists. eexists.
  assert (H : @trials ScriptedSource [car_A; car_B] one_lap_track
                (py_range 1 (2 + 1)) (init [car_A; car_B])
                [90; 0; 0; 10; 90; 0; 0; 90; 0; 0]%Z = (Ok _, _))
    by (vm_compute; reflexivity).
  split; [exact H|].
  repeat (split; [reflexivity|]).
  exact (proj2 (@podium_at_least_wins ScriptedSource [car_A; car_B]
                  one_lap_track 2 [90; 0; 0; 10; 90; 0; 0; 90; 0; 0]%Z)
           _ _ H).
Defined.

(** * The summary table *)

Lemma summary_row_name (acc : Acc) (n_iter : Z) (c : Car) (r : Row) :
  summary_row acc n_iter c = Ok r -> Car_name r = name c.
Proof.
  unfold summary_row, rbind.
  repeat match goal with
         | |- context [match ?x with Ok _ => _ | Raise _ => _ end] =>
             destruct x; [|discriminate]
         end.
  intros [= <-]. reflexivity.
Qed.

Lemma summary_rows_names (acc : Acc) (n_iter : Z) (cars : list Car) :
  forall rows,
    summary_rows acc n_iter cars = Ok rows ->
    map Car_name rows = map name cars.
Proof.
  induction cars as [|c rest IH]; intros rows; simpl.
  - intros [= <-]. reflexivity.
  - unfold rbind.
    destruct (summary_row acc n_iter c) as [r|err] eqn:E; [|discriminate].
    destruct (summary_rows acc n_iter rest) as [rs|err]; [|discriminate].
    intros [= <-]. simpl. f_equal.
    + eapply summary_row_name; eassumption.
    + now apply IH.
Qed.

Lemma py_truediv_ok (a b : Z) :
  b <> 0%Z -> py_truediv a b = Ok (inject_Z a / inject_Z b).
Proof.
  intros H. unfold py_truediv. destruct (Z.eqb_spec b 0); [contradiction|].
  reflexivity.
Qed.

(** With every car entered in the dictionaries and a trial count other
    than zero, each row is computed from the car's four entries. *)
Lemma summary_row_ok (acc : Acc) (n_iter : Z) (c : Car) :
  n_iter <> 0%Z ->
  acc_inv [name c] acc ->
  exists times w p d,
    dict_get (finish_times acc) (name c) = Some times /\
    dict_get (winner_counts acc) (name c) = Some w /\
    dict_get (podium_counts acc) (name c) = Some p /\
    dict_get (dnfs acc) (name c) = Some d /\
    summary_row acc n_iter c
    = Ok {| Car_name := name c;
            Win_pct := inject_Z (100 * w) / inject_Z n_iter;
            Podium_pct := inject_Z (100 * p) / inject_Z n_iter;
            DNF_pct := inject_Z (100 * d) / inject_Z n_iter;
            Avg_time := match length times with
                        | O => None
                        | S _ => np_mean times
                        end |}.
Proof.
  intros Hn [Hw Hp Ht Hd _].
  assert (Hin : In (name c) [name c]) by now left.
  destruct (proj1 (in_keys_get _ _) (Ht _ Hin)) as [times Hgt].
  destruct (proj1 (in_keys_get _ _) (Hw _ Hin)) as [w Hgw].
  destruct (proj1 (in_keys_get _ _) (Hp _ Hin)) as [p Hgp].
  destruct (proj1 (in_keys_get _ _) (Hd _ Hin)) as [d Hgd].
  exists times, w, p, d. repeat split; try assumption.
  unfold summary_row, dict_lookup. rewrite Hgt, Hgw, Hgp, Hgd. simpl.
  rewrite !py_truediv_ok by assumption. reflexivity.
Qed.

Lemma acc_inv_incl (names names' : list string) (acc : Acc) :
  incl names' names -> acc_inv names acc -> acc_inv names' acc.
Proof.
  intros Hincl [Hw Hp Ht Hd Ho].
  constructor; try assumption; intros n Hn; auto.
Qed.

Lemma summary_rows_ok (acc : Acc) (n_iter : Z) (cars : list Car) :
  n_iter <> 0%Z ->
  acc_inv (map name cars) acc ->
  exists rows, summary_rows acc n_iter cars = Ok rows.
Proof.
  intros Hn. induction cars as [|c rest IH]; intros Hinv; simpl.
  - eauto.
  - destruct (summary_row_ok acc n_iter c Hn) as (t & w & p & d & _ & _ & _ & _ & E).
    { eapply acc_inv_incl; [|exact Hinv]. intros x [<-|[]]. now left. }
    rewrite E. simpl.
    destruct IH as [rows Hrows].
    { eapply acc_inv_incl; [|exact Hinv]. intros x Hx. now right. }
    rewrite Hrows. simpl. eauto.
Qed.

(** With a trial count of zero the first row already fails, on its first
    division. *)
Lemma summary_rows_zero (acc : Acc) (c : Car) (rest : list Car) :
  acc_inv (map name (c :: rest)) acc ->
  summary_rows acc 0 (c :: rest) = Raise ZeroDivisionError.
Proof.
  intros [Hw _ Ht _ _]. simpl in *.
  destruct (proj1 (in_keys_get _ _) (Ht _ (or_introl eq_refl))) as [times Hgt].
  destruct (proj1 (in_keys_get _ _) (Hw _ (or_introl eq_refl))) as [w Hgw].
  unfold summary_row, dict_lookup. rewrite Hgt, Hgw. reflexivity.
Qed.

Section RunFacts.
Context {RS : RandomSource} {DS : DataFrameSort}.

(** How [run] is put together, when it returns. *)
Lemma run_inv (cars : list Car) (track : Track) (n_iter : Z) (g g' : RNG)
    (table : list Row) :
  MonteCarloRace.run cars track n_iter g = (Ok table, g') ->
  exists acc rows,
    trials cars track (py_range 1 (n_iter + 1)) (init cars) g = (Ok acc, g') /\
    summary_rows acc n_iter cars = Ok rows /\
    rows <> [] /\
    table = sort_values rows.
Proof.
  unfold MonteCarloRace.run, bind, lift.
  destruct (trials cars track (py_range 1 (n_iter + 1)) (init cars) g)
    as [[acc|err] g1] eqn:E; [|discriminate].
  destruct (summary_rows acc n_iter cars) as [rows|err] eqn:E1;
    [|discriminate].
  destruct rows as [|r rows]; simpl; [discriminate|].
  intros [= <- <-]. exists acc, (r :: rows).
  repeat split; try reflexivity; try assumption. discriminate.
Qed.

Lemma run_returns (cars : list Car) (track : Track) (n_iter : Z) (g : RNG) :
  Forall valid_car cars -> valid_track track ->
  cars <> [] -> (1 <= n_iter)%Z ->
  exists acc rows g',
    trials cars track (py_range 1 (n_iter + 1)) (init cars) g = (Ok acc, g') /\
    summary_rows acc n_iter cars = Ok rows /\
    MonteCarloRace.run cars track n_iter g = (Ok (sort_values rows), g').
Proof.
  intros Hc Ht Hne Hn.
  destruct (trials_returns cars track (py_range 1 (n_iter + 1)) Hc Ht
              (init cars) g (init_inv cars)) as (acc & g' & Hacc).
  pose proof (trials_inv _ _ _ _ _ _ _ (init_inv cars) Hacc) as Hinv.
  destruct (summary_rows_ok acc n_iter cars ltac:(lia) Hinv) as [rows Hrows].
  exists acc, rows, g'. repeat split; try assumption.
  unfold MonteCarloRace.run, bind, lift. rewrite Hacc, Hrows.
  pose proof (summary_rows_names _ _ _ _ Hrows) as Hnm.
  destruct rows as [|r rows]; [|reflexivity].
  destruct cars; [contradiction | discriminate].
Qed.

End RunFacts.

(** * Claims about the aggregator *)

(** C1. With a trial count of 0 the aggregator returns no table: it raises
    before any draw is made (the generator is left as it was) and before a
    summary row is complete: [ZeroDivisionError] on the first division of
    the first row, or, with no competitor, [KeyError] for the missing
    column on sorting. *)
Theorem zero_trials_raise {RS : RandomSource} {DS : DataFrameSort}
    (cars : list Car) (track : Track) (g : RNG) :
  MonteCarloRace.run cars track 0 g
  = (Raise match cars with
           | [] => KeyError "Win %"
           | _ :: _ => ZeroDivisionError
           end, g).
Proof.
  unfold MonteCarloRace.run, bind, lift. simpl.
  destruct cars as [|c rest]; [reflexivity|].
  rewrite summary_rows_zero; [reflexivity | apply init_inv].
Qed.

Section EmptyField.
Context {RS : RandomSource}.

Lemma trials_no_cars (track : Track) (trial_list : list Z) (g : RNG) :
  trials [] track trial_list (init []) g = (Ok (init []), g).
Proof. induction trial_list as [|i rest IH]; [reflexivity | exact IH]. Qed.

End EmptyField.

(** C2, on the code: with no competitor the aggregator does not return an
    empty table.  Whatever the trial count, the trials run (to no effect),
    the summary has no row, the frame built from it has no column, and
    sorting it by "Win %" raises [KeyError]. *)
Theorem no_cars_raise {RS : RandomSource} {DS : DataFrameSort}
    (track : Track) (n_iter : Z) (g : RNG) :
  MonteCarloRace.run [] track n_iter g = (Raise (KeyError "Win %"), g).
Proof.
  unfold MonteCarloRace.run, bind, lift. now rewrite trials_no_cars.
Qed.

(** The failing input of C2, run. *)
Example no_cars_one_trial :
  @MonteCarloRace.run ScriptedSource StableSort [] one_lap_track 1 []
  = (Raise (KeyError "Win %"), []).
Proof. reflexivity. Qed.

(** ** Ranking *)

(** Claim C3 asks, beyond the descending order, that rows with equal Win %
    keep the order of the input list.  The program leaves that to
    [sort_values] with pandas' default [kind], whose treatment of equal
    rows is the library's own and is not decided by the program's text:
    the contract of [DataFrameSort] neither gives nor excludes it, and the
    claim is left open here.  What the program itself ensures is below. *)

(** Every table the aggregator returns has one row per competitor, in the
    descending order of Win % that [sort_values] delivers; for a non-empty
    competitor list, at least one trial and deviations that are not
    negative it does return a table. *)
Lemma table_is_ranked {RS : RandomSource} {DS : DataFrameSort}
    (cars : list Car) (track : Track) (n_iter : Z) (g : RNG) :
  (Forall valid_car cars -> valid_track track ->
   cars <> [] -> (1 <= n_iter)%Z ->
   exists table g', MonteCarloRace.run cars track n_iter g = (Ok table, g')) /\
  (forall table g',
     MonteCarloRace.run cars track n_iter g = (Ok table, g') ->
     StronglySorted descending table /\
     Permutation (map name cars) (map Car_name table)).
Proof.
  split.
  - intros Hc Ht Hne Hn.
    destruct (run_returns cars track n_iter g Hc Ht Hne Hn)
      as (acc & rows & g' & _ & _ & H).
    eauto.
  - intros table g' H. apply run_inv in H as (acc & rows & _ & Hrows & _ & ->).
    split; [apply sort_values_desc|].
    rewrite <- (summary_rows_names _ _ _ _ Hrows).
    apply Permutation_map, sort_values_perm.
Qed.

(** * Example cars without variance *)

Definition steady_A : Car :=
  {| name := "A"; base_speed := 100; speed_std := 0; crash_prob := 0;
     pit_mean := 0; pit_std := 0; pit_laps := []; tyre_decay := 0;
     boost_laps := []; boost_speed := 0; boost_crash := 0 |}.

Definition steady_B : Car :=
  {| name := "B"; base_speed := 50; speed_std := 0; crash_prob := 0;
     pit_mean := 0; pit_std := 0; pit_laps := []; tyre_decay := 0;
     boost_laps := []; boost_speed := 0; boost_crash := 0 |}.

Lemma python_range_one : py_range 1 (1 + 1) = [1%Z].
Proof. reflexivity. Qed.

(** * Raising the crash probability *)

(** The same car with another baseline crash probability. *)
Definition with_crash_prob (c : Car) (p : Q) : Car :=
  {| name := name c;
     base_speed := base_speed c;
     speed_std := speed_std c;
     crash_prob := p;
     pit_mean := pit_mean c;
     pit_std := pit_std c;
     pit_laps := pit_laps c;
     tyre_decay := tyre_decay c;
     boost_laps := boost_laps c;
     boost_speed := boost_speed c;
     boost_crash := boost_crash c |}.

Lemma with_crash_prob_valid (c : Car) (p : Q) :
  valid_car c -> valid_car (with_crash_prob c p).
Proof. exact (fun H => H). Qed.

Section Monotone.
Context {RS : RandomSource}.
Variables (c : Car) (p' : Q).
Hypothesis Hp : crash_prob c <= p'.

Lemma lap_crash_prob_mono (lap : Z) :
  lap_crash_prob c lap <= lap_crash_prob (with_crash_prob c p') lap.
Proof.
  unfold lap_crash_prob. simpl. destruct (lap_in lap (boost_laps c)); lra.
Qed.

(** A lap that the riskier car completes, the original car completes in
    the same way, on the same draws. *)
Lemma simulate_lap_mono (track : Track) (lap : Z) (total_time : Q)
    (last_pit_lap : Z) (g g' : RNG) (rec : LapRecord) (t : Q) (l : Z) :
  simulate_lap (with_crash_prob c p') track lap total_time last_pit_lap g
  = (Ok (Completed rec t l), g') ->
  simulate_lap c track lap total_time last_pit_lap g
  = (Ok (Completed rec t l), g').
Proof.
  pose proof (lap_crash_prob_mono lap) as Hm.
  unfold simulate_lap, bind, np_random_rand.
  destruct (rand g) as [u g1].
  destruct (Qlt_le_dec u (lap_crash_prob (with_crash_prob c p') lap))
    as [Hc'|Hc']; [discriminate|].
  destruct (Qlt_le_dec u (lap_crash_prob c lap)) as [Hc|Hc]; [lra|].
  exact (fun H => H).
Qed.

Lemma lap_loop_mono (track : Track) (lap_list : list Z) :
  forall total_time last_pit_lap lap_var g g' e,
    lap_loop (with_crash_prob c p') track lap_list total_time last_pit_lap
      lap_var g = (Ok e, g') ->
    exit_status e = Finished ->
    lap_loop c track lap_list total_time last_pit_lap lap_var g = (Ok e, g').
Proof.
  induction lap_list as [|lap rest IH]; intros total last lv g g' e; simpl.
  - auto.
  - unfold bind at 1 3.
    destruct (simulate_lap (with_crash_prob c p') track lap total last g)
      as [[[|rec t l]|err] g1] eqn:E; try discriminate.
    + unfold ret. intros [= <- <-]. discriminate.
    + rewrite (simulate_lap_mono _ _ _ _ _ _ _ _ _ E).
      unfold bind.
      destruct (lap_loop (with_crash_prob c p') track rest t l (Some lap) g1)
        as [[e1|err] g2] eqn:E1; [|discriminate].
      unfold ret. intros [= <- <-] Hs.
      rewrite (IH _ _ _ _ _ _ E1 Hs). reflexivity.
Qed.

Lemma drive_mono (track : Track) (g g' : RNG) (e : LoopExit) :
  drive (with_crash_prob c p') track g = (Ok e, g') ->
  exit_status e = Finished ->
  drive c track g = (Ok e, g').
Proof. apply lap_loop_mono. Qed.

End Monotone.

(** ** Rows of the table, by name *)

(** The row of a competitor in the summary table. *)
Definition row_of (n : string) (table : list Row) : option Row :=
  find (fun r => String.eqb (Car_name r) n) table.

Lemma row_of_some (n : string) (table : list Row) (r : Row) :
  row_of n table = Some r -> In r table /\ Car_name r = n.
Proof.
  intros H. apply find_some in H as [Hin Heq].
  split; [assumption | now apply String.eqb_eq].
Qed.

Lemma row_of_exists (n : string) (table : list Row) :
  In n (map Car_name table) -> exists r, row_of n table = Some r.
Proof.
  intros Hin. apply in_map_iff in Hin as (r0 & Hn & Hr0).
  unfold row_of.
  destruct (find (fun r => String.eqb (Car_name r) n) table) as [r|] eqn:E.
  - eauto.
  - pose proof (find_none _ _ E r0 Hr0) as Hno. simpl in Hno.
    rewrite Hn, String.eqb_refl in Hno. discriminate.
Qed.

Lemma summary_row_inv (acc : Acc) (n_iter : Z) (c : Car) (r : Row) :
  summary_row acc n_iter c = Ok r ->
  exists w d,
    dict_get (winner_counts acc) (name c) = Some w /\
    dict_get (dnfs acc) (name c) = Some d /\
    Car_name r = name c /\
    Win_pct r = inject_Z (100 * w) / inject_Z n_iter /\
    DNF_pct r = inject_Z (100 * d) / inject_Z n_iter.
Proof.
  unfold summary_row, dict_lookup, py_truediv, rbind.
  destruct (dict_get (finish_times acc) (name c)); [|discriminate].
  destruct (dict_get (winner_counts acc) (name c)) as [w|]; [|discriminate].
  destruct (Z.eqb n_iter 0); [discriminate|].
  destruct (dict_get (podium_counts acc) (name c)); [|discriminate].
  destruct (dict_get (dnfs acc) (name c)) as [d|]; [|discriminate].
  intros [= <-]. exists w, d. repeat split.
Qed.

Lemma summary_rows_in (acc : Acc) (n_iter : Z) (cars : list Car) :
  forall rows r,
    summary_rows acc n_iter cars = Ok rows ->
    In r rows ->
    exists c, In c cars /\ summary_row acc n_iter c = Ok r.
Proof.
  induction cars as [|c rest IH]; intros rows r; simpl.
  - intros [= <-] [].
  - unfold rbind.
    destruct (summary_row acc n_iter c) as [r0|err] eqn:E; [|discriminate].
    destruct (summary_rows acc n_iter rest) as [rs|err]; [|discriminate].
    intros [= <-] [<-|Hin].
    + exists c. auto.
    + destruct (IH rs r eq_refl Hin) as (c0 & Hc0 & Hr). exists c0. auto.
Qed.

Lemma summary_rows_by_name (acc : Acc) (n_iter : Z) (cars : list Car) :
  forall cars',
    map name cars = map name cars' ->
    summary_rows acc n_iter cars = summary_rows acc n_iter cars'.
Proof.
  induction cars as [|c rest IH]; intros [|c' rest'] H; try discriminate;
    [reflexivity|].
  simpl in *. injection H as Hc Hrest. rewrite (IH rest' Hrest).
  unfold summary_row. now rewrite Hc.
Qed.

Section RowFacts.
Context {DS : DataFrameSort}.

(** The row found for a name in the sorted table shows the win and DNF
    counts stored under that name. *)
Lemma row_of_sorted (acc : Acc) (n_iter : Z) (cars : list Car)
    (rows : list Row) (n : string) :
  summary_rows acc n_iter cars = Ok rows ->
  In n (map name cars) ->
  (exists r, row_of n (sort_values rows) = Some r) /\
  forall r,
    row_of n (sort_values rows) = Some r ->
    exists w d,
      dict_get (winner_counts acc) n = Some w /\
      dict_get (dnfs acc) n = Some d /\
      Win_pct r = inject_Z (100 * w) / inject_Z n_iter /\
      DNF_pct r = inject_Z (100 * d) / inject_Z n_iter.
Proof.
  intros Hrows Hn. split.
  - apply row_of_exists.
    apply (Permutation_in n (Permutation_map Car_name (sort_values_perm rows))).
    now rewrite (summary_rows_names _ _ _ _ Hrows).
  - intros r Hr. apply row_of_some in Hr as [Hin Hname].
    apply (Permutation_in r (Permutation_sym (sort_values_perm rows))) in Hin.
    destruct (summary_rows_in _ _ _ _ _ Hrows Hin) as (c0 & _ & Hc0).
    apply summary_row_inv in Hc0 as (w & d & Hw & Hd & Hnm & Hwin & Hdnf).
    exists w, d. rewrite <- Hname, Hnm. auto.
Qed.

End RowFacts.

(** ** The counts after one trial *)

Lemma dnf_not_winner (res : dict Outcome) (n : string) (o : Outcome) :
  NoDup (keys res) ->
  dict_get res n = Some o ->
  is_finished o = false ->
  is_winner res n = false.
Proof.
  intros Hnd Hget Hf. unfold is_winner.
  destruct (winner res) as [w|] eqn:E; [|reflexivity].
  apply winner_finished in E as (o1 & Hin & Hf1).
  destruct (String.eqb_spec w n) as [->|]; [|reflexivity].
  apply (in_dict_get _ _ _ Hnd) in Hin. congruence.
Qed.

Section OneTrial.
Context {RS : RandomSource}.

Lemma one_trial_counts (cars : list Car) (track : Track) (i : Z)
    (g g1 : RNG) (res : dict Outcome) :
  RaceSimulator.run cars track g = (Ok res, g1) ->
  exists acc,
    trials cars track [i] (init cars) g = (Ok acc, g1) /\
    acc_inv (map name cars) acc /\
    forall n,
      In n (map name cars) ->
      dict_get (winner_counts acc) n
      = Some (if is_winner res n then 1 else 0)%Z /\
      dict_get (dnfs acc) n = Some (dnf_at res n).
Proof.
  intros Hrun. pose proof (run_keys _ _ _ _ _ Hrun) as [Hnd Hk].
  destruct (record_trial_ok (map name cars) (init cars) res (init_inv cars))
    as [acc Hrec].
  { intros n Hn. now apply Hk. }
  exists acc. split; [|split].
  - simpl. unfold bind, lift, ret. now rewrite Hrun, Hrec.
  - eapply record_trial_inv; [exact Hnd | apply init_inv | exact Hrec].
  - intros n Hn. unfold record_trial, rbind in Hrec.
    destruct (count_podium (init cars) res) as [acc1|err] eqn:E1;
      [|discriminate].
    apply count_podium_inv in E1 as (_ & Hd1 & _ & _ & Hwin & _).
    apply (count_times_inv res Hnd) in Hrec as (Hw2 & _ & _ & _ & Hd & _).
    split.
    + rewrite Hw2. rewrite (Hwin n 0%Z).
      * destruct (is_winner res n); reflexivity.
      * simpl. rewrite by_name_get.
        destruct (in_dec string_dec n (map name cars)); tauto.
    + rewrite (Hd n 0%Z); [reflexivity|].
      rewrite Hd1. simpl. rewrite by_name_get.
      destruct (in_dec string_dec n (map name cars)); tauto.
Qed.

End OneTrial.

(** ** Monotonicity in the crash probability *)

(** Claim C5 as it is stated, for the car [c] listed between [pre] and
    [post] and the raised probability [p']: in the summary the DNF % of the
    car does not go down and its Win % does not go up. *)
Definition crash_prob_monotone {RS : RandomSource} {DS : DataFrameSort}
    (pre : list Car) (c : Car) (post : list Car) (p' : Q) (track : Track)
    (n_iter : Z) (g : RNG) : Prop :=
  forall table table' g1 g2 r r',
    MonteCarloRace.run (pre ++ c :: post) track n_iter g = (Ok table, g1) ->
    MonteCarloRace.run (pre ++ with_crash_prob c p' :: post) track n_iter g
    = (Ok table', g2) ->
    row_of (name c) table = Some r ->
    row_of (name c) table' = Some r' ->
    DNF_pct r <= DNF_pct r' /\ Win_pct r' <= Win_pct r.

Definition car_risky : Car :=
  {| name := "R"; base_speed := 100; speed_std := 0; crash_prob := 4 # 10;
     pit_mean := 0; pit_std := 0; pit_laps := []; tyre_decay := 0;
     boost_laps := []; boost_speed := 0; boost_crash := 0 |}.

Definition two_lap_track : Track :=
  {| lap_length := 1000; n_laps := 2; weather_variance := 0 |}.

(** C5, refuted as stated.  A crash ends the car's draws for the race, so a
    higher crash probability shifts every later draw of the one stream.
    One car, two laps, two trials, draws 50 90 0 10 90 0 0 10 (hundredths).
    At probability 0.4 the car passes 0.50, crashes on 0.10 in lap 2, then
    in trial 2 passes 0.90 and crashes on 0.10: DNF 100 %, Win 0 %.  At 0.6
    it crashes at once on 0.50, and trial 2 reads 0.90 and 0.90 and
    finishes: DNF 50 %, Win 50 %. *)
Lemma higher_risk_fewer_dnfs :
  crash_prob car_risky <= 6 # 10 /\
  ~ @crash_prob_monotone ScriptedSource StableSort [] car_risky [] (6 # 10)
      two_lap_track 2 [50; 90; 0; 10; 90; 0; 0; 10]%Z.
Proof.
  split; [simpl; lra|].
  intros H.
  destruct (H _ _ _ _ _ _ eq_refl eq_refl eq_refl eq_refl) as [Hdnf _].
  revert Hdnf. vm_compute. intros Hdnf. apply Hdnf. reflexivity.
Qed.

Lemma percent_of_finished_dnf (res res' : dict Outcome) (n : string)
    (r r' : Row) :
  DNF_pct r = inject_Z (100 * dnf_at res n) / inject_Z 1 ->
  DNF_pct r' = inject_Z (100 * 1) / inject_Z 1 ->
  Win_pct r = inject_Z (100 * (if is_winner res n then 1 else 0)) / inject_Z 1 ->
  Win_pct r' = inject_Z (100 * 0) / inject_Z 1 ->
  DNF_pct r <= DNF_pct r' /\ Win_pct r' <= Win_pct r.
Proof.
  intros -> -> -> ->. unfold dnf_at.
  destruct (dict_get res n) as [o|]; [destruct (is_finished o)|];
    destruct (is_winner res n); split; unfold Qle; simpl; lia.
Qed.

(** C5, amended to one trial.  With N = 1 the car's lap loop starts from the
    same generator state whatever its crash probability, so raising the
    probability makes it crash no later; if it still finishes, the whole
    trial is unchanged.  Hence its DNF % does not go down and its Win % does
    not go up.  (With more trials the later trials read shifted draws, and
    neither holds.)  Both runs return a table with a row for the car, for
    deviations that are not negative. *)
Theorem crash_prob_monotone_one_trial {RS : RandomSource}
    {DS : DataFrameSort} (pre : list Car) (c : Car) (post : list Car)
    (p' : Q) (track : Track) (g : RNG) :
  crash_prob c <= p' ->
  ~ In (name c) (map name post) ->
  Forall valid_car (pre ++ c :: post) -> valid_track track ->
  (exists table g1 r,
     MonteCarloRace.run (pre ++ c :: post) track 1 g = (Ok table, g1) /\
     row_of (name c) table = Some r) /\
  (exists table' g2 r',
     MonteCarloRace.run (pre ++ with_crash_prob c p' :: post) track 1 g
     = (Ok table', g2) /\
     row_of (name c) table' = Some r') /\
  crash_prob_monotone pre c post p' track 1 g.
Proof.
  intros Hp Hpost Hvalid Ht. unfold crash_prob_monotone.
  set (c' := with_crash_prob c p').
  assert (Hnames : map name (pre ++ c' :: post) = map name (pre ++ c :: post)).
  { now rewrite !map_app. }
  assert (Hvalid' : Forall valid_car (pre ++ c' :: post)).
  { apply Forall_app in Hvalid as [Hv1 Hv2]. apply Forall_app.
    split; [assumption|]. inversion Hv2; subst. now constructor. }
  assert (Hin : In (name c) (map name (pre ++ c :: post))).
  { rewrite map_app. apply in_or_app. right. now left. }
  destruct (run_returns (pre ++ c :: post) track 1 g Hvalid Ht)
    as (acc & rows & g1 & Htr & Hrows & Hrun);
    [now destruct pre | lia |].
  destruct (run_returns (pre ++ c' :: post) track 1 g Hvalid' Ht)
    as (acc' & rows' & g1' & Htr' & Hrows' & Hrun');
    [now destruct pre | lia |].
  split.
  { destruct (proj1 (row_of_sorted _ _ _ _ _ Hrows Hin)) as [r Hr]. eauto. }
  split.
  { destruct (proj1 (row_of_sorted acc' 1 _ rows' (name c) Hrows'
                       ltac:(now rewrite Hnames))) as [r' Hr'].
    eauto. }
  intros table table' g2 g2' r r' H H' Hr Hr'.
  rewrite Hrun in H. injection H as <- <-.
  rewrite Hrun' in H'. injection H' as <- <-.
  rewrite python_range_one in Htr, Htr'.
  (* the two races *)
  destruct (run_cars_returns _ track Hvalid Ht [] g) as (res & gr & Hres).
  destruct (run_cars_returns _ track Hvalid' Ht [] g) as (res' & gr' & Hres').
  fold (RaceSimulator.run (pre ++ c :: post) track g) in Hres.
  fold (RaceSimulator.run (pre ++ c' :: post) track g) in Hres'.
  destruct (one_trial_counts _ _ 1 _ _ _ Hres) as (a & Ha & _ & Hcount).
  destruct (one_trial_counts _ _ 1 _ _ _ Hres') as (a' & Ha' & _ & Hcount').
  rewrite Htr in Ha. injection Ha as <- <-.
  rewrite Htr' in Ha'. injection Ha' as <- <-.
  pose proof (run_keys _ _ _ _ _ Hres') as [Hnd' _].
  unfold RaceSimulator.run in Hres, Hres'.
  pose proof (run_cars_at _ _ _ _ _ _ _ _ Hres')
    as (r1 & gp & e' & ge' & o' & Hpre & He' & Ho' & _ & Hget').
  specialize (Hget' Hpost). change (name c') with (name c) in Hget'.
  destruct (exit_status e') as [|k] eqn:Hs.
  - (* the riskier car still finishes: the two runs coincide *)
    pose proof (drive_mono c p' Hp track gp ge' e' He' Hs) as He.
    assert (Heq : run_cars (pre ++ c :: post) track [] g
                  = run_cars (pre ++ c' :: post) track [] g).
    { rewrite !run_cars_app. unfold bind. rewrite Hpre. simpl run_cars.
      unfold bind. now rewrite He, He'. }
    rewrite Heq, Hres' in Hres. injection Hres as <- <-.
    assert (Hacc : acc = acc').
    { assert (Hi : init (pre ++ c :: post) = init (pre ++ c' :: post)).
      { unfold init. now rewrite !(by_name_names _ _ _ Hnames). }
      simpl in Htr, Htr'. unfold bind, lift, ret in Htr, Htr'.
      unfold RaceSimulator.run in Htr, Htr'.
      rewrite Heq, Hres', Hi in Htr. rewrite Hres' in Htr'.
      destruct (record_trial (init (pre ++ c' :: post)) res');
        congruence. }
    subst acc'.
    rewrite (summary_rows_by_name _ _ _ _ (eq_sym Hnames)) in Hrows.
    assert (rows = rows') by congruence. subst rows'.
    assert (r = r') by congruence. subst r'.
    split; apply Qle_refl.
  - (* the riskier car crashes: one DNF, no win *)
    assert (Hf : is_finished o' = false).
    { unfold car_outcome in Ho'. rewrite Hs in Ho'.
      destruct (exit_lap e'); [|discriminate]. now injection Ho' as <-. }
    destruct (Hcount (name c) Hin) as [Hw Hd].
    destruct (Hcount' (name c)) as [Hw' Hd']; [now rewrite Hnames|].
    rewrite (dnf_not_winner _ _ _ Hnd' Hget' Hf) in Hw'.
    assert (Hone : dnf_at res' (name c) = 1%Z).
    { unfold dnf_at. now rewrite Hget', Hf. }
    rewrite Hone in Hd'.
    destruct (row_of_sorted _ _ _ _ _ Hrows Hin) as [_ Hrow].
    destruct (Hrow r Hr) as (w & d & Hgw & Hgd & Hwin & Hdnf).
    destruct (row_of_sorted acc' 1 _ rows' (name c) Hrows') as [_ Hrow'];
      [now rewrite Hnames|].
    destruct (Hrow' r' Hr') as (w' & d' & Hgw' & Hgd' & Hwin' & Hdnf').
    apply (percent_of_finished_dnf res res' (name c)); congruence.
Qed.

Lemma crash_prob_monotone_one_trial_witness :
  (exists table g1 r,
     @MonteCarloRace.run ScriptedSource StableSort
       ([car_B] ++ car_risky :: [car_A]) two_lap_track 1
       [90; 0; 0; 90; 0; 0; 50; 3; 4; 95; 0; 0]%Z = (Ok table, g1) /\
     row_of (name car_risky) table = Some r) /\
  @crash_prob_monotone ScriptedSource StableSort [car_B] car_risky [car_A]
    (6 # 10) two_lap_track 1 [90; 0; 0; 90; 0; 0; 50; 3; 4; 95; 0; 0]%Z.
Proof.
  assert (H : crash_prob car_risky <= 6 # 10 /\
              ~ In (name car_risky) (map name [car_A]) /\
              Forall valid_car ([car_B] ++ car_risky :: [car_A]) /\
              valid_track two_lap_track).
  { split; [simpl; lra|]. split; [simpl; intros [H|[]]; discriminate H|].
    split; [repeat constructor; simpl; lra | unfold valid_track; simpl; lra]. }
  destruct H as (H1 & H2 & H3 & H4).
  destruct (@crash_prob_monotone_one_trial ScriptedSource StableSort
              [car_B] car_risky [car_A] (6 # 10) two_lap_track
              [90; 0; 0; 90; 0; 0; 50; 3; 4; 95; 0; 0]%Z H1 H2 H3 H4)
    as (Hrun & _ & Hmono).
  split; assumption.
Defined.

(** * Further properties of the program *)

(** ** The results of a race *)

Section ResultFacts.
Context {RS : RandomSource}.

(** A finished entry carries a time, a crashed one carries none. *)
Lemma run_entry_time (cars : list Car) (track : Track) (g g' : RNG)
    (res : dict Outcome) (n : string) (o : Outcome) :
  RaceSimulator.run cars track g = (Ok res, g') ->
  dict_get res n = Some o ->
  if is_finished o then exists t, time o = Some t else time o = None.
Proof.
  unfold RaceSimulator.run. intros H Hn.
  destruct (run_cars_entries _ _ _ _ _ _ H n o Hn)
    as [Habs|(c & g0 & e & g1 & _ & _ & He & Ho)]; [discriminate|].
  unfold car_outcome in Ho. unfold is_finished.
  destruct (exit_status e).
  - injection Ho as <-. simpl. eauto.
  - destruct (exit_lap e); [|discriminate]. injection Ho as <-. reflexivity.
Qed.

(** With distinct names the results list the cars in input order. *)
Lemma run_cars_keys_order (cars : list Car) (track : Track) :
  forall (results res : dict Outcome) (g g' : RNG),
    NoDup (keys results ++ map name cars) ->
    run_cars cars track results g = (Ok res, g') ->
    keys res = keys results ++ map name cars.
Proof.
  induction cars as [|c rest IH]; intros results res g g' Hnd H.
  - simpl in H. unfold ret in H. injection H as <- _. simpl.
    now rewrite app_nil_r.
  - apply run_cars_cons_inv in H as (e & g1 & o & _ & _ & H).
    assert (Hout : ~ In (name c) (keys results)).
    { intros Hin. apply NoDup_remove_2 in Hnd. apply Hnd.
      apply in_or_app. now left. }
    pose proof (keys_set_absent results (name c) o Hout) as Hk.
    simpl. change (name c :: map name rest) with ([name c] ++ map name rest).
    rewrite app_assoc, <- Hk. eapply IH; [|exact H].
    rewrite Hk, <- app_assoc. exact Hnd.
Qed.

End ResultFacts.

(** ** The podium of one race *)

Lemma NoDup_firstn {A : Type} (n : nat) (l : list A) :
  NoDup l -> NoDup (firstn n l).
Proof.
  intros H. rewrite <- (firstn_skipn n l) in H.
  eapply NoDup_app_remove_r. exact H.
Qed.

Lemma NoDup_keys_filter {V : Type} (f : string * V -> bool) (d : dict V) :
  NoDup (keys d) -> NoDup (keys (filter f d)).
Proof.
  unfold keys. induction d as [|kv d IH]; simpl; intros H; [constructor|].
  inversion H as [|? ? Hout Hnd]; subst.
  destruct (f kv); simpl; [|auto].
  constructor; [|auto].
  intros Hin. apply Hout. apply in_map_iff in Hin as (x & Hx & Hin).
  apply filter_In in Hin as [Hin _]. rewrite <- Hx. now apply in_map.
Qed.

(** The names that [count_podium] credits with a podium. *)
Definition podium_names (res : dict Outcome) : list string :=
  map fst (firstn 3 (race_order res)).

Lemma race_order_nodup (res : dict Outcome) :
  NoDup (keys res) -> NoDup (keys (race_order res)).
Proof.
  intros H. unfold race_order, keys.
  eapply Permutation_NoDup.
  - apply Permutation_map. apply py_sorted_perm.
  - now apply NoDup_keys_filter.
Qed.

Lemma podium_names_nodup (res : dict Outcome) :
  NoDup (keys res) -> NoDup (podium_names res).
Proof.
  intros H. unfold podium_names. rewrite <- firstn_map.
  apply NoDup_firstn. now apply race_order_nodup.
Qed.

Lemma podium_names_length (res : dict Outcome) :
  (length (podium_names res) <= 3)%nat.
Proof.
  unfold podium_names. rewrite length_map. apply firstn_le_length.
Qed.

Lemma podium_names_finished (res : dict Outcome) (n : string) :
  NoDup (keys res) ->
  In n (podium_names res) ->
  exists o, dict_get res n = Some o /\ is_finished o = true.
Proof.
  intros Hnd Hin. unfold podium_names in Hin.
  apply in_map_iff in Hin as ([n' o] & Hn & Hin). simpl in Hn. subst n'.
  apply in_firstn in Hin. apply race_order_in in Hin as [Hin Hf].
  exists o. split; [now apply in_dict_get | assumption].
Qed.

Lemma winner_on_podium (res : dict Outcome) (n : string) :
  is_winner res n = true -> In n (podium_names res).
Proof.
  unfold is_winner, winner, podium_names.
  destruct (race_order res) as [|[w o] rest]; [discriminate|].
  intros H. apply String.eqb_eq in H. subst n. now left.
Qed.

(** On names without repetition [incr_all] adds exactly one to each. *)
Lemma incr_all_exact (names : list string) :
  NoDup names ->
  forall d d',
    incr_all d names = Ok d' ->
    forall n v,
      dict_get d n = Some v ->
      dict_get d' n
      = Some (if in_dec string_dec n names then v + 1 else v)%Z.
Proof.
  induction 1 as [|m rest Hout Hnd IH]; intros d d'; simpl.
  - intros [= <-] n v Hv. exact Hv.
  - unfold rbind. destruct (dict_incr d m) as [d1|err] eqn:E; [|discriminate].
    intros H n v Hv. apply dict_incr_inv in E as (v0 & Hv0 & ->).
    destruct (string_dec m n) as [->|Hne].
    + rewrite (IH _ _ H n (v + 1)%Z).
      * destruct (in_dec string_dec n rest); [contradiction | reflexivity].
      * assert (v0 = v) by congruence. subst v0. apply dict_get_set_same.
    + rewrite (IH _ _ H n v); [|now rewrite dict_get_set_other].
      destruct (in_dec string_dec n rest); reflexivity.
Qed.

Lemma count_podium_exact (acc acc' : Acc) (res : dict Outcome) :
  NoDup (keys res) ->
  count_podium acc res = Ok acc' ->
  forall n p,
    dict_get (podium_counts acc) n = Some p ->
    dict_get (podium_counts acc') n
    = Some (if in_dec string_dec n (podium_names res) then p + 1 else p)%Z.
Proof.
  intros Hnd. pose proof (podium_names_nodup res Hnd) as Hpn. revert Hpn.
  unfold count_podium, podium_names, race_order.
  destruct (filter (fun kv => is_finished (snd kv)) res) as [|q l] eqn:F.
  - intros _ [= <-] n p Hp. simpl. exact Hp.
  - destruct (py_sorted _ (q :: l)) as [|[w o] rest] eqn:S; [discriminate|].
    unfold rbind.
    destruct (dict_incr (winner_counts acc) w) as [wc|err]; [|discriminate].
    destruct (incr_all (podium_counts acc) (map fst (firstn 3 ((w, o) :: rest))))
      as [pc|err] eqn:Ep; [|discriminate].
    intros Hpn [= <-] n p Hp. simpl podium_counts.
    exact (incr_all_exact _ Hpn _ _ Ep n p Hp).
Qed.

(** ** The tally of a car after some trials *)

(** What the four dictionaries say of one name after [k] trials: it has at
    most as many wins as podiums, at most as many podiums as finishes, every
    trial counted it either as a finish (with a time) or as a DNF. *)
Definition tally_ok (k : nat) (acc : Acc) (n : string) : Prop :=
  exists w p d l,
    dict_get (winner_counts acc) n = Some w /\
    dict_get (podium_counts acc) n = Some p /\
    dict_get (dnfs acc) n = Some d /\
    dict_get (finish_times acc) n = Some l /\
    (0 <= w <= p)%Z /\
    (p <= Z.of_nat (length l))%Z /\
    (0 <= d)%Z /\
    (d + Z.of_nat (length l) = Z.of_nat k)%Z /\
    Forall (fun t => t <> None) l.

Lemma tally_init (cars : list Car) (n : string) :
  In n (map name cars) -> tally_ok 0 (init cars) n.
Proof.
  intros Hn. exists 0%Z, 0%Z, 0%Z, []. simpl.
  rewrite !by_name_get.
  destruct (in_dec string_dec n (map name cars)); [|contradiction].
  repeat split; try reflexivity; try lia. constructor.
Qed.

Lemma tally_step (k : nat) (acc acc' : Acc) (res : dict Outcome)
    (n : string) (o : Outcome) :
  NoDup (keys res) ->
  dict_get res n = Some o ->
  (if is_finished o then exists t, time o = Some t else time o = None) ->
  record_trial acc res = Ok acc' ->
  tally_ok k acc n ->
  tally_ok (S k) acc' n.
Proof.
  intros Hnd Hget Htime Hrec (w & p & d & l & Hw & Hp & Hd & Hl & Hwp & Hpl & Hd0 & Hsum & Hall).
  unfold record_trial, rbind in Hrec.
  destruct (count_podium acc res) as [acc1|err] eqn:E1; [|discriminate].
  pose proof (count_podium_exact _ _ _ Hnd E1 n p Hp) as Hp1.
  apply count_podium_inv in E1 as (Ht1 & Hd1 & _ & _ & Hwin & _).
  apply (count_times_inv res Hnd) in Hrec as (Hw2 & Hp2 & _ & _ & Hdn & Htm).
  rewrite <- Hd1 in Hd. rewrite <- Ht1 in Hl.
  pose proof (Hdn n d Hd) as Hd'. pose proof (Htm n l Hl) as Hl'.
  pose proof (Hwin n w Hw) as Hw'.
  unfold dnf_at in Hd'. unfold times_at in Hl'. rewrite Hget in Hd', Hl'.
  rewrite <- Hw2 in Hw'. rewrite <- Hp2 in Hp1.
  destruct (is_finished o) eqn:Hf.
  - destruct Htime as [t Ht].
    exists (if is_winner res n then w + 1 else w)%Z,
           (if in_dec string_dec n (podium_names res) then p + 1 else p)%Z,
           (d + 0)%Z, (l ++ [time o]).
    repeat split; try assumption.
    + destruct (is_winner res n); lia.
    + destruct (is_winner res n) eqn:Hwn.
      * apply winner_on_podium in Hwn.
        destruct (in_dec string_dec n (podium_names res)); [lia|contradiction].
      * destruct (in_dec string_dec n (podium_names res)); lia.
    + rewrite length_app. simpl.
      destruct (in_dec string_dec n (podium_names res)); lia.
    + lia.
    + rewrite length_app. simpl. lia.
    + apply Forall_app. split; [assumption|].
      constructor; [rewrite Ht; discriminate | constructor].
  - exists w, p, (d + 1)%Z, (l ++ []).
    rewrite (dnf_not_winner _ _ _ Hnd Hget Hf) in Hw'.
    destruct (in_dec string_dec n (podium_names res)) as [Hin|_].
    { apply (podium_names_finished _ _ Hnd) in Hin as (o1 & Ho1 & Hf1).
      congruence. }
    rewrite app_nil_r. rewrite app_nil_r in Hl'.
    repeat split; try assumption; lia.
Qed.

Section TallyFacts.
Context {RS : RandomSource}.

Lemma trials_tally (cars : list Car) (track : Track) (n : string) :
  In n (map name cars) ->
  forall trial_list k acc acc' g g',
    tally_ok k acc n ->
    trials cars track trial_list acc g = (Ok acc', g') ->
    tally_ok (k + length trial_list) acc' n.
Proof.
  intros Hn. induction trial_list as [|i rest IH]; intros k acc acc' g g' Hk H.
  - simpl in H. unfold ret in H. injection H as <- _.
    now rewrite Nat.add_0_r.
  - apply trials_cons_inv in H as (res & g1 & acc1 & Hres & Hrec & H).
    pose proof (run_keys _ _ _ _ _ Hres) as [Hnd Hkeys].
    destruct (proj1 (in_keys_get res n) (proj2 (Hkeys n) Hn)) as [o Ho].
    pose proof (run_entry_time _ _ _ _ _ _ _ Hres Ho) as Htime.
    pose proof (tally_step _ _ _ _ _ _ Hnd Ho Htime Hrec Hk) as Hk1.
    simpl length. rewrite Nat.add_succ_r.
    exact (IH (S k) _ _ _ _ Hk1 H).
Qed.

End TallyFacts.

(** ** Percentages *)

(** [100 * count / n_iter], as the summary computes it. *)
Definition pct (count n_iter : Z) : Q := inject_Z (100 * count) / inject_Z n_iter.

Lemma pct_as_product (a n : Z) :
  (0 < n)%Z -> pct a n == inject_Z (100 * a) * (1 # Z.to_pos n).
Proof.
  intros Hn. unfold pct, Qdiv. destruct n as [|p|p]; try lia. reflexivity.
Qed.

Lemma pct_le (a b n : Z) : (0 < n)%Z -> (a <= b)%Z -> pct a n <= pct b n.
Proof.
  intros Hn Hab. rewrite !pct_as_product by assumption.
  apply Qmult_le_compat_r; [|discriminate].
  rewrite <- Zle_Qle. lia.
Qed.

Lemma inject_Z_nonzero (n : Z) : n <> 0%Z -> ~ inject_Z n == 0.
Proof. intros Hn H. unfold Qeq in H. simpl in H. lia. Qed.

Lemma pct_zero (n : Z) : pct 0 n == 0.
Proof. unfold pct. simpl. unfold Qdiv. ring. Qed.

Lemma pct_full (n : Z) : (0 < n)%Z -> pct n n == 100.
Proof.
  intros Hn. unfold pct. rewrite inject_Z_mult. field.
  apply inject_Z_nonzero. lia.
Qed.

Lemma pct_plus (a b n : Z) : (0 < n)%Z -> pct a n + pct b n == pct (a + b) n.
Proof.
  intros Hn. unfold pct. rewrite Z.mul_add_distr_l, inject_Z_plus. field.
  apply inject_Z_nonzero. lia.
Qed.

Lemma pct_full_inv (a n : Z) : (0 < n)%Z -> pct a n == 100 -> a = n.
Proof.
  intros Hn H. rewrite <- (pct_full n Hn) in H.
  rewrite !pct_as_product in H by assumption.
  apply Qmult_inj_r in H; [|discriminate].
  unfold Qeq, inject_Z in H. cbn [Qnum Qden] in H. lia.
Qed.

(** ** The mean of the recorded times *)

Lemma nan_sum_some (l : list (option Q)) :
  Forall (fun t => t <> None) l ->
  forall s, exists s', fold_left nan_add l (Some s) = Some s'.
Proof.
  induction 1 as [|t l Ht _ IH]; intros s; simpl.
  - eauto.
  - destruct t as [x|]; [|contradiction]. apply IH.
Qed.

Lemma np_mean_some (l : list (option Q)) :
  Forall (fun t => t <> None) l -> exists m, np_mean l = Some m.
Proof.
  intros H. unfold np_mean. destruct (nan_sum_some l H 0) as [s Hs].
  rewrite Hs. eauto.
Qed.

(** ** The rows of the table *)

Lemma summary_row_full (acc : Acc) (n_iter : Z) (c : Car) (r : Row) :
  summary_row acc n_iter c = Ok r ->
  n_iter <> 0%Z /\
  exists w p d l,
    dict_get (winner_counts acc) (name c) = Some w /\
    dict_get (podium_counts acc) (name c) = Some p /\
    dict_get (dnfs acc) (name c) = Some d /\
    dict_get (finish_times acc) (name c) = Some l /\
    r = {| Car_name := name c;
           Win_pct := pct w n_iter;
           Podium_pct := pct p n_iter;
           DNF_pct := pct d n_iter;
           Avg_time := match length l with
                       | O => None
                       | S _ => np_mean l
                       end |}.
Proof.
  unfold summary_row, dict_lookup, py_truediv, rbind, pct.
  destruct (dict_get (finish_times acc) (name c)) as [l|]; [|discriminate].
  destruct (dict_get (winner_counts acc) (name c)) as [w|]; [|discriminate].
  destruct (Z.eqb_spec n_iter 0) as [|Hn]; [discriminate|].
  destruct (dict_get (podium_counts acc) (name c)) as [p|]; [|discriminate].
  destruct (dict_get (dnfs acc) (name c)) as [d|]; [|discriminate].
  intros [= <-]. split; [assumption|]. exists w, p, d, l. repeat split.
Qed.

(** What a row of the table shows, for a trial count of at least one. *)
Definition row_ok (r : Row) : Prop :=
  0 <= Win_pct r /\
  Win_pct r <= Podium_pct r /\
  Podium_pct r <= 100 /\
  0 <= DNF_pct r /\
  DNF_pct r <= 100.

Lemma row_of_tally (acc : Acc) (n_iter : Z) (c : Car) (r : Row) :
  (1 <= n_iter)%Z ->
  tally_ok (Z.to_nat n_iter) acc (name c) ->
  summary_row acc n_iter c = Ok r ->
  row_ok r.
Proof.
  intros Hn (w & p & d & l & Hw & Hp & Hd & Hl & Hwp & Hpl & Hd0 & Hsum & Hall) Hr.
  apply summary_row_full in Hr as (_ & w' & p' & d' & l' & Hw' & Hp' & Hd' & Hl' & ->).
  assert (w' = w) by congruence. assert (p' = p) by congruence.
  assert (d' = d) by congruence. assert (l' = l) by congruence. subst.
  rewrite Z2Nat.id in Hsum by lia.
  assert (Hpos : (0 < n_iter)%Z) by lia.
  unfold row_ok. simpl. repeat split.
  - rewrite <- (pct_zero n_iter). apply pct_le; lia.
  - apply pct_le; lia.
  - rewrite <- (pct_full n_iter Hpos). apply pct_le; lia.
  - rewrite <- (pct_zero n_iter). apply pct_le; lia.
  - rewrite <- (pct_full n_iter Hpos). apply pct_le; lia.
Qed.

(** X1. For a trial count of at least one, every row of a returned table
    has 0 <= Win % <= Podium % <= 100 and 0 <= DNF % <= 100. *)
Theorem table_rows_consistent {RS : RandomSource} {DS : DataFrameSort}
    (cars : list Car) (track : Track) (n_iter : Z) (g g' : RNG)
    (table : list Row) :
  (1 <= n_iter)%Z ->
  MonteCarloRace.run cars track n_iter g = (Ok table, g') ->
  Forall row_ok table.
Proof.
  intros Hn H. apply run_inv in H as (acc & rows & Htr & Hrows & _ & ->).
  apply Forall_forall. intros r Hr.
  apply (Permutation_in r (Permutation_sym (sort_values_perm rows))) in Hr.
  destruct (summary_rows_in _ _ _ _ _ Hrows Hr) as (c & Hc & Hrow).
  apply (row_of_tally acc n_iter c); [assumption | | assumption].
  replace (Z.to_nat n_iter) with (0 + length (py_range 1 (n_iter + 1)))%nat
    by (rewrite py_range_length; lia).
  pose proof (in_map name cars c Hc) as Hname.
  apply (trials_tally cars track (name c) Hname _ 0%nat (init cars) acc g g');
    [|exact Htr].
  now apply tally_init.
Qed.

Lemma table_rows_consistent_witness :
  exists table g',
    @MonteCarloRace.run ScriptedSource StableSort [car_A; car_B]
      one_lap_track 2 [90; 0; 0; 10; 90; 0; 0; 90; 0; 0]%Z = (Ok table, g') /\
    Forall row_ok table.
Proof.
  eexists. eexists. split; [vm_compute; reflexivity|].
  apply (@table_rows_consistent ScriptedSource StableSort [car_A; car_B]
           one_lap_track 2 [90; 0; 0; 10; 90; 0; 0; 90; 0; 0]%Z []).
  - lia.
  - vm_compute. reflexivity.
Defined.

(** X2. Every trial counts every car exactly once: after the trial loop has
    run over [n_trials] trials, the DNF count of a car plus the number of
    its recorded finish times is the number of trials, and its podium
    count is at most the number of its finishes. *)
Theorem every_trial_is_counted {RS : RandomSource} (cars : list Car)
    (track : Track) (n_trials : Z) (g g' : RNG) (acc : Acc) (c : Car) :
  trials cars track (py_range 1 (n_trials + 1)) (init cars) g = (Ok acc, g') ->
  In c cars ->
  exists d l p,
    dict_get (dnfs acc) (name c) = Some d /\
    dict_get (finish_times acc) (name c) = Some l /\
    dict_get (podium_counts acc) (name c) = Some p /\
    (0 <= d)%Z /\
    (d + Z.of_nat (length l) = Z.max 0 n_trials)%Z /\
    (p <= Z.of_nat (length l))%Z.
Proof.
  intros H Hc. pose proof (in_map name cars c Hc) as Hname.
  pose proof (trials_tally cars track (name c) Hname _ 0%nat (init cars) acc
                g g' (tally_init cars (name c) Hname) H)
    as (w & p & d & l & Hw & Hp & Hd & Hl & Hwp & Hpl & Hd0 & Hsum & Hall).
  exists d, l, p. repeat split; try assumption.
  rewrite Hsum, py_range_length. lia.
Qed.

Lemma every_trial_is_counted_witness :
  exists acc g' d l p,
    @trials ScriptedSource [car_A; car_B] one_lap_track (py_range 1 (2 + 1))
      (init [car_A; car_B]) [90; 0; 0; 10; 90; 0; 0; 90; 0; 0]%Z
    = (Ok acc, g') /\
    dict_get (dnfs acc) (name car_B) = Some d /\
    dict_get (finish_times acc) (name car_B) = Some l /\
    dict_get (podium_counts acc) (name car_B) = Some p /\
    (0 <= d)%Z /\
    (d + Z.of_nat (length l) = Z.max 0 2)%Z /\
    (p <= Z.of_nat (length l))%Z.
Proof.
  eexists. eexists.
  assert (H : @trials ScriptedSource [car_A; car_B] one_lap_track
                (py_range 1 (2 + 1)) (init [car_A; car_B])
                [90; 0; 0; 10; 90; 0; 0; 90; 0; 0]%Z = (Ok _, _))
    by (vm_compute; reflexivity).
  destruct (@every_trial_is_counted ScriptedSource [car_A; car_B]
              one_lap_track 2 _ _ _ car_B H (or_intror (or_introl eq_refl)))
    as (d & l & p & Hrest).
  exists d, l, p. split; [exact H | exact Hrest].
Defined.

(** ** How many wins there are *)

(** The sum of the counts of a dictionary. *)
Definition dict_total (d : dict Z) : Z :=
  fold_right (fun kv s => (snd kv + s)%Z) 0%Z d.

Lemma dict_total_set (d : dict Z) (k : string) (v x : Z) :
  dict_get d k = Some v ->
  dict_total (dict_set d k x) = (dict_total d - v + x)%Z.
Proof.
  induction d as [|[k0 v0] d IH]; simpl; [discriminate|].
  destruct (String.eqb_spec k0 k) as [->|Hne].
  - intros [= ->]. simpl. lia.
  - intros H. simpl. rewrite (IH H). lia.
Qed.

Lemma dict_incr_total (d d' : dict Z) (k : string) :
  dict_incr d k = Ok d' -> dict_total d' = (dict_total d + 1)%Z.
Proof.
  intros H. apply dict_incr_inv in H as (v & Hv & ->).
  rewrite (dict_total_set _ _ _ _ Hv). lia.
Qed.

Lemma incr_all_total (names : list string) :
  forall d d',
    incr_all d names = Ok d' ->
    dict_total d' = (dict_total d + Z.of_nat (length names))%Z.
Proof.
  induction names as [|m rest IH]; intros d d'; simpl incr_all.
  - intros [= <-]. simpl. lia.
  - unfold rbind. destruct (dict_incr d m) as [d1|err] eqn:E; [|discriminate].
    intros H. rewrite (IH _ _ H), (dict_incr_total _ _ _ E).
    simpl length. lia.
Qed.

Lemma dict_total_set_absent (d : dict Z) (k : string) (x : Z) :
  dict_get d k = None ->
  dict_total (dict_set d k x) = (dict_total d + x)%Z.
Proof.
  induction d as [|[k0 v0] d IH]; simpl.
  - intros _. lia.
  - destruct (String.eqb_spec k0 k); [discriminate|].
    intros H. simpl. rewrite (IH H). lia.
Qed.

Lemma by_name_fold_total (cars : list Car) :
  forall d,
    dict_total d = 0%Z -> (forall k v, dict_get d k = Some v -> v = 0%Z) ->
    dict_total (fold_left (fun d c => dict_set d (name c) 0%Z) cars d) = 0%Z.
Proof.
  induction cars as [|c rest IH]; intros d Ht Hz; simpl; [assumption|].
  apply IH.
  - destruct (dict_get d (name c)) as [v|] eqn:E.
    + rewrite (dict_total_set _ _ _ _ E), (Hz _ _ E). lia.
    + rewrite (dict_total_set_absent _ _ _ E). lia.
  - intros k v. destruct (string_dec (name c) k) as [<-|Hne].
    + rewrite dict_get_set_same. congruence.
    + rewrite dict_get_set_other by assumption. apply Hz.
Qed.

Lemma by_name_total (cars : list Car) : dict_total (by_name cars 0%Z) = 0%Z.
Proof.
  unfold by_name. apply by_name_fold_total; [reflexivity|].
  intros k v H. discriminate H.
Qed.

(** One trial adds at most one win and at most three podiums, and as many
    podiums as wins at least. *)
Lemma record_trial_totals (acc acc' : Acc) (res : dict Outcome) :
  record_trial acc res = Ok acc' ->
  exists dw dp,
    dict_total (winner_counts acc') = (dict_total (winner_counts acc) + dw)%Z /\
    dict_total (podium_counts acc') = (dict_total (podium_counts acc) + dp)%Z /\
    (0 <= dw <= 1)%Z /\ (dw <= dp <= 3 * dw)%Z /\
    (dw = 0%Z <-> race_order res = []).
Proof.
  unfold record_trial, rbind.
  destruct (count_podium acc res) as [acc1|err] eqn:E1; [|discriminate].
  intros E2.
  assert (Hsame : winner_counts acc' = winner_counts acc1 /\
                  podium_counts acc' = podium_counts acc1).
  { clear E1. revert acc1 E2. induction res as [|[m d] rest IH]; intros a E2.
    - simpl in E2. injection E2 as <-. auto.
    - simpl in E2. destruct (is_finished d); unfold rbind in E2.
      + destruct (dict_append (finish_times a) m (time d)); [|discriminate].
        apply IH in E2. exact E2.
      + destruct (dict_incr (dnfs a) m); [|discriminate].
        apply IH in E2. exact E2. }
  destruct Hsame as [-> ->]. clear E2.
  revert E1. unfold count_podium. fold (race_order res).
  unfold race_order at 1.
  destruct (filter (fun kv => is_finished (snd kv)) res) as [|q l] eqn:F.
  - intros [= <-]. exists 0%Z, 0%Z. unfold race_order. rewrite F. simpl.
    repeat split; try lia; try reflexivity.
  - unfold race_order. rewrite F.
    destruct (py_sorted _ (q :: l)) as [|[w o] rest] eqn:S; [discriminate|].
    unfold rbind.
    destruct (dict_incr (winner_counts acc) w) as [wc|err] eqn:Ew;
      [|discriminate].
    destruct (incr_all (podium_counts acc) (map fst (firstn 3 ((w, o) :: rest))))
      as [pc|err] eqn:Ep; [|discriminate].
    intros [= <-]. simpl winner_counts. simpl podium_counts.
    exists 1%Z, (Z.of_nat (length (map fst (firstn 3 ((w, o) :: rest))))).
    rewrite (dict_incr_total _ _ _ Ew), (incr_all_total _ _ _ Ep).
    pose proof (firstn_le_length 3 ((w, o) :: rest)) as Hle.
    rewrite length_map. simpl length in *.
    repeat split; try lia; try discriminate.
Qed.

Section TotalFacts.
Context {RS : RandomSource}.

Lemma trials_totals (cars : list Car) (track : Track) (trial_list : list Z) :
  forall acc acc' g g',
    trials cars track trial_list acc g = (Ok acc', g') ->
    exists dw dp,
      dict_total (winner_counts acc')
      = (dict_total (winner_counts acc) + dw)%Z /\
      dict_total (podium_counts acc')
      = (dict_total (podium_counts acc) + dp)%Z /\
      (0 <= dw <= Z.of_nat (length trial_list))%Z /\
      (dw <= dp <= 3 * dw)%Z.
Proof.
  induction trial_list as [|i rest IH]; intros acc acc' g g' H.
  - simpl in H. unfold ret in H. injection H as <- _.
    exists 0%Z, 0%Z. simpl. lia.
  - apply trials_cons_inv in H as (res & g1 & acc1 & _ & Hrec & H).
    apply record_trial_totals in Hrec
      as (dw1 & dp1 & Hw1 & Hp1 & Hb1 & Hb2 & Hz).
    apply IH in H as (dw & dp & Hw & Hp & Hb & Hbp).
    exists (dw1 + dw)%Z, (dp1 + dp)%Z. simpl length. lia.
Qed.

End TotalFacts.

(** X3. A trial has at most one winner and at most three podium places:
    after the trial loop the win counts of all cars add up to at most the
    number of trials, and the podium counts to at least the wins and at most
    three times the wins. *)
Theorem wins_add_up {RS : RandomSource} (cars : list Car) (track : Track)
    (n_trials : Z) (g g' : RNG) (acc : Acc) :
  trials cars track (py_range 1 (n_trials + 1)) (init cars) g = (Ok acc, g') ->
  (0 <= dict_total (winner_counts acc) <= Z.max 0 n_trials)%Z /\
  (dict_total (winner_counts acc) <= dict_total (podium_counts acc)
   <= 3 * dict_total (winner_counts acc))%Z.
Proof.
  intros H. apply trials_totals in H as (dw & dp & Hw & Hp & Hb & Hbp).
  simpl in Hw, Hp. rewrite by_name_total in Hw, Hp.
  rewrite py_range_length in Hb. lia.
Qed.

Lemma wins_add_up_witness :
  exists acc g',
    @trials ScriptedSource [car_A; car_B] one_lap_track (py_range 1 (2 + 1))
      (init [car_A; car_B]) [90; 0; 0; 10; 90; 0; 0; 90; 0; 0]%Z
    = (Ok acc, g') /\
    (0 <= dict_total (winner_counts acc) <= Z.max 0 2)%Z /\
    (dict_total (winner_counts acc) <= dict_total (podium_counts acc)
     <= 3 * dict_total (winner_counts acc))%Z.
Proof.
  eexists. eexists.
  assert (H : @trials ScriptedSource [car_A; car_B] one_lap_track
                (py_range 1 (2 + 1)) (init [car_A; car_B])
                [90; 0; 0; 10; 90; 0; 0; 90; 0; 0]%Z = (Ok _, _))
    by (vm_compute; reflexivity).
  split; [exact H|].
  exact (@wins_add_up ScriptedSource [car_A; car_B] one_lap_track 2 _ _ _ H).
Defined.

(** ** A negative trial count *)

Lemma summary_rows_of_init (cars0 : list Car) (n_iter : Z) (cars : list Car) :
  n_iter <> 0%Z ->
  incl (map name cars) (map name cars0) ->
  exists rows,
    summary_rows (init cars0) n_iter cars = Ok rows /\
    Forall (fun r =>
              Win_pct r == 0 /\ Podium_pct r == 0 /\ DNF_pct r == 0 /\
              Avg_time r = None) rows.
Proof.
  intros Hn. induction cars as [|c rest IH]; intros Hincl; simpl.
  - exists []. split; [reflexivity | constructor].
  - destruct IH as (rows & Hrows & Hall).
    { intros x Hx. apply Hincl. now right. }
    assert (Hc : In (name c) (map name cars0)) by (apply Hincl; now left).
    destruct (summary_row_ok (init cars0) n_iter c Hn)
      as (t & w & p & d & Ht & Hw & Hp & Hd & E).
    { eapply acc_inv_incl; [|apply init_inv]. intros x [<-|[]]. exact Hc. }
    simpl in Ht, Hw, Hp, Hd.
    rewrite by_name_get in Ht. rewrite by_name_get in Hw.
    rewrite by_name_get in Hp. rewrite by_name_get in Hd.
    destruct (in_dec string_dec (name c) (map name cars0)); [|contradiction].
    injection Ht as <-. injection Hw as <-. injection Hp as <-.
    injection Hd as <-.
    rewrite E, Hrows. simpl. eexists. split; [reflexivity|].
    constructor; [|exact Hall]. simpl.
    repeat split; try reflexivity; apply (pct_zero n_iter).
Qed.

(** X4. A negative trial count is not refused: no race is run, no draw is
    made, and the table comes back with Win %, Podium % and DNF % all zero
    and no average time, one row per car. *)
Theorem negative_trials_zero_table {RS : RandomSource} {DS : DataFrameSort}
    (cars : list Car) (track : Track) (n_iter : Z) (g : RNG) :
  (n_iter < 0)%Z -> cars <> [] ->
  exists table,
    MonteCarloRace.run cars track n_iter g = (Ok table, g) /\
    Permutation (map name cars) (map Car_name table) /\
    Forall (fun r =>
              Win_pct r == 0 /\ Podium_pct r == 0 /\ DNF_pct r == 0 /\
              Avg_time r = None) table.
Proof.
  intros Hn Hne.
  destruct (summary_rows_of_init cars n_iter cars ltac:(lia) (incl_refl _))
    as (rows & Hrows & Hall).
  exists (sort_values rows). split; [|split].
  - unfold MonteCarloRace.run, bind, lift.
    rewrite py_range_nil by lia. simpl. rewrite Hrows.
    pose proof (summary_rows_names _ _ _ _ Hrows) as Hnm.
    destruct rows as [|r rows]; [|reflexivity].
    destruct cars; [contradiction | discriminate].
  - rewrite <- (summary_rows_names _ _ _ _ Hrows).
    apply Permutation_map, sort_values_perm.
  - eapply Permutation_Forall; [apply sort_values_perm | exact Hall].
Qed.

Lemma negative_trials_zero_table_witness :
  exists table,
    @MonteCarloRace.run ScriptedSource StableSort [car_A; car_B] short_track
      (-3) [1; 2; 3]%Z = (Ok table, [1; 2; 3]%Z) /\
    Permutation (map name [car_A; car_B]) (map Car_name table) /\
    Forall (fun r =>
              Win_pct r == 0 /\ Podium_pct r == 0 /\ DNF_pct r == 0 /\
              Avg_time r = None) table.
Proof.
  apply (@negative_trials_zero_table ScriptedSource StableSort
           [car_A; car_B] short_track (-3)).
  - lia.
  - discriminate.
Defined.

(** A car whose spread of pace is negative. *)
Definition car_bad_std : Car :=
  {| name := "N"; base_speed := 100; speed_std := -1; crash_prob := 0;
     pit_mean := 0; pit_std := 0; pit_laps := []; tyre_decay := 0;
     boost_laps := []; boost_speed := 0; boost_crash := 0 |}.

(** ** The draws a car consumes *)

Inductive Draw : Type :=
| Uniform
| Normal.

Section Draws.
Context {RS : RandomSource}.

Definition advance (g : RNG) (d : Draw) : RNG :=
  match d with
  | Uniform => snd (rand g)
  | Normal => snd (randn g)
  end.

(** The generator after a sequence of draws. *)
Definition consume (draws : list Draw) (g : RNG) : RNG :=
  fold_left advance draws g.

(** The draws of a completed lap, in the order the loop body makes them:
    crash, pace, weather, and pit-stop duration on a pit lap. *)
Definition lap_draws (c : Car) (lap : Z) : list Draw :=
  Uniform :: Normal :: Normal ::
  (if lap_in lap (pit_laps c) then [Normal] else []).

(** The draws of a whole run of the lap loop, read off its exit. *)
Definition drive_draws (c : Car) (e : LoopExit) : list Draw :=
  flat_map (fun rec => lap_draws c (lr_lap rec)) (exit_log e)
  ++ match exit_status e with
     | Finished => []
     | DNF_on_lap _ => [Uniform]
     end.

Lemma consume_app (d1 d2 : list Draw) (g : RNG) :
  consume (d1 ++ d2) g = consume d2 (consume d1 g).
Proof. apply fold_left_app. Qed.

Lemma simulate_lap_draws (c : Car) (track : Track) (lap : Z) (total_time : Q)
    (last_pit_lap : Z) (g g' : RNG) (r : LapResult) :
  simulate_lap c track lap total_time last_pit_lap g = (Ok r, g') ->
  match r with
  | Crashed => g' = consume [Uniform] g
  | Completed rec _ _ => lr_lap rec = lap /\ g' = consume (lap_draws c lap) g
  end.
Proof.
  unfold simulate_lap, bind, np_random_rand, lap_draws, consume. simpl.
  destruct (rand g) as [u g1]. simpl.
  destruct (Qlt_le_dec u (lap_crash_prob c lap)).
  { unfold ret. intros [= <- <-]. reflexivity. }
  destruct (np_random_normal (base_speed c) (speed_std c) g1)
    as [[x|e] g2] eqn:E1; [|discriminate].
  apply np_random_normal_inv in E1 as [(_ & A2 & _)|(_ & _ & ->)];
    [discriminate|].
  destruct (np_random_normal 0 (weather_variance track) (snd (randn g1)))
    as [[w|e] g3] eqn:E2; [|discriminate].
  apply np_random_normal_inv in E2 as [(_ & B2 & _)|(_ & _ & ->)];
    [discriminate|].
  unfold lift. rewrite py_div_pos
    by (pose proof (py_max_floor
                      (x - tyre_penalty c lap last_pit_lap
                       + (if lap_in lap (boost_laps c) then boost_speed c else 0)
                       + w) (1 # 1000)); lra).
  destruct (lap_in lap (pit_laps c)).
  - destruct (_pit_stop_time c (snd (randn (snd (randn g1)))))
      as [[p|e] g4] eqn:E3; [|discriminate].
    apply pit_stop_time_inv in E3 as [(_ & C2 & _)|(_ & -> & _)];
      [discriminate|].
    unfold ret. intros [= <- <-]. split; reflexivity.
  - unfold ret. intros [= <- <-]. split; reflexivity.
Qed.

Lemma lap_loop_draws (c : Car) (track : Track) (lap_list : list Z) :
  forall total_time last_pit_lap lap_var g g' e,
    lap_loop c track lap_list total_time last_pit_lap lap_var g = (Ok e, g') ->
    g' = consume (drive_draws c e) g.
Proof.
  induction lap_list as [|lap rest IH]; intros total last lv g g' e; simpl.
  - unfold ret. intros [= <- <-]. reflexivity.
  - unfold bind at 1.
    destruct (simulate_lap c track lap total last g) as [[r|err] g1] eqn:E;
      [|discriminate].
    apply simulate_lap_draws in E. destruct r as [|rec total' last'].
    + unfold ret. intros [= <- <-]. exact E.
    + destruct E as [Hlap ->]. unfold bind.
      destruct (lap_loop c track rest total' last' (Some lap) _)
        as [[e1|err] g2] eqn:E1; [|discriminate].
      unfold ret. intros [= <- <-]. apply IH in E1.
      unfold drive_draws in *. simpl. rewrite Hlap.
      rewrite <- app_assoc, consume_app. exact E1.
Qed.

End Draws.

(** X6. The draws of one car.  A run of the lap loop advances the generator
    by exactly these draws, in this order: for each completed lap one
    uniform (crash), two normals (pace, weather) and a third normal if the
    lap is a pit lap, and one last uniform for the lap of the crash, if any.
    So a finisher of [n] laps with [s] stops makes [3 n + s] draws. *)
Theorem draws_of_a_car {RS : RandomSource} (c : Car) (track : Track)
    (g g' : RNG) (e : LoopExit) :
  drive c track g = (Ok e, g') ->
  g' = consume (drive_draws c e) g /\
  (length (drive_draws c e)
   = 3 * length (exit_log e)
     + length (filter (fun rec => lap_in (lr_lap rec) (pit_laps c)) (exit_log e))
     + match exit_status e with Finished => 0 | DNF_on_lap _ => 1 end)%nat.
Proof.
  intros H. split; [exact (lap_loop_draws _ _ _ _ _ _ _ _ _ H)|].
  unfold drive_draws. rewrite length_app.
  assert (Hlen : forall log,
            length (flat_map (fun rec => lap_draws c (lr_lap rec)) log)
            = (3 * length log
               + length (filter (fun rec => lap_in (lr_lap rec) (pit_laps c))
                           log))%nat).
  { induction log as [|rec log IH]; [reflexivity|].
    unfold lap_draws in *. simpl.
    destruct (lap_in (lr_lap rec) (pit_laps c)); simpl; rewrite IH; lia. }
  rewrite Hlen. destruct (exit_status e); simpl; lia.
Qed.

Lemma draws_of_a_car_witness :
  exists e g',
    @drive ScriptedSource car_A short_track
      [90; 0; 0; 90; 0; 0; 3; 75; 0; 0; 20]%Z = (Ok e, g') /\
    g' = @consume ScriptedSource (drive_draws car_A e)
           [90; 0; 0; 90; 0; 0; 3; 75; 0; 0; 20]%Z /\
    length (drive_draws car_A e) = 10%nat.
Proof.
  eexists. eexists.
  assert (H : @drive ScriptedSource car_A short_track
                [90; 0; 0; 90; 0; 0; 3; 75; 0; 0; 20]%Z = (Ok _, _))
    by (vm_compute; reflexivity).
  split; [exact H|].
  destruct (@draws_of_a_car ScriptedSource car_A short_track _ _ _ H)
    as [Hg Hlen].
  split; [exact Hg | reflexivity].
Defined.

(** X8. The results of a race have exactly one entry per name of a car,
    and for cars of distinct names they list the cars in input order. *)
Theorem results_follow_input {RS : RandomSource} (cars : list Car)
    (track : Track) (g g' : RNG) (res : dict Outcome) :
  RaceSimulator.run cars track g = (Ok res, g') ->
  NoDup (keys res) /\
  (forall n, In n (keys res) <-> In n (map name cars)) /\
  (NoDup (map name cars) -> keys res = map name cars).
Proof.
  intros H. destruct (run_keys _ _ _ _ _ H) as [Hnd Hk].
  repeat split; try assumption; try apply Hk.
  intros Hnames. unfold RaceSimulator.run in H.
  exact (run_cars_keys_order cars track [] res g g' Hnames H).
Qed.

Lemma results_follow_input_witness :
  exists res g',
    @RaceSimulator.run ScriptedSource [car_B; car_A] one_lap_track
      [90; 0; 0; 90; 0; 0]%Z = (Ok res, g') /\
    NoDup (keys res) /\
    (forall n, In n (keys res) <-> In n (map name [car_B; car_A])) /\
    (NoDup (map name [car_B; car_A]) -> keys res = map name [car_B; car_A]).
Proof.
  eexists. eexists.
  assert (H : @RaceSimulator.run ScriptedSource [car_B; car_A] one_lap_track
                [90; 0; 0; 90; 0; 0]%Z = (Ok _, _))
    by (vm_compute; reflexivity).
  split; [exact H|].
  exact (@results_follow_input ScriptedSource [car_B; car_A] one_lap_track
           _ _ _ H).
Defined.

(** ** Cars that are sure to crash, and cars that cannot *)

(** A lap of the race on which the crash draw, which lies in [0, 1), is
    certain to be below the crash probability. *)
Definition doomed (c : Car) (track : Track) : Prop :=
  exists k, (1 <= k <= n_laps track)%Z /\ 1 <= lap_crash_prob c k.

(** No lap of the race on which the crash draw can be below the crash
    probability. *)
Definition crash_free (c : Car) (track : Track) : Prop :=
  forall k, (1 <= k <= n_laps track)%Z -> lap_crash_prob c k <= 0.

Lemma in_py_range (lo hi x : Z) : (lo <= x < hi)%Z -> In x (py_range lo hi).
Proof.
  intros H. unfold py_range. apply in_map_iff.
  exists (Z.to_nat (x - lo)). split; [lia|]. apply in_seq. lia.
Qed.

Section SureFacts.
Context {RS : RandomSource}.

Lemma lap_loop_doomed (c : Car) (track : Track) (k : Z) (lap_list : list Z) :
  1 <= lap_crash_prob c k ->
  In k lap_list ->
  forall total_time last_pit_lap lap_var g g' e,
    lap_loop c track lap_list total_time last_pit_lap lap_var g = (Ok e, g') ->
    exists j, In j lap_list /\ exit_status e = DNF_on_lap j.
Proof.
  intros Hk. induction lap_list as [|lap rest IH];
    intros Hin total last lv g g' e; [contradiction|].
  simpl lap_loop. unfold bind at 1.
  destruct (simulate_lap c track lap total last g) as [[r|err] g1] eqn:E;
    [|discriminate].
  apply simulate_lap_inv in E. destruct r as [|rec total' last'].
  - unfold ret. intros [= <- <-]. exists lap. simpl. auto.
  - destruct E as (Hu & _). unfold bind.
    destruct (lap_loop c track rest total' last' (Some lap) g1)
      as [[e1|err] g2] eqn:E1; [|discriminate].
    unfold ret. intros [= <- <-]. simpl.
    destruct Hin as [->|Hin].
    + pose proof (rand_range g) as [_ Hlt]. lra.
    + destruct (IH Hin _ _ _ _ _ _ E1) as (j & Hj & Hs). exists j. auto.
Qed.

Lemma lap_loop_crash_free (c : Car) (track : Track) (lap_list : list Z) :
  (forall k, In k lap_list -> lap_crash_prob c k <= 0) ->
  forall total_time last_pit_lap lap_var g g' e,
    lap_loop c track lap_list total_time last_pit_lap lap_var g = (Ok e, g') ->
    exit_status e = Finished.
Proof.
  induction lap_list as [|lap rest IH];
    intros Hall total last lv g g' e; simpl lap_loop.
  - unfold ret. intros [= <- <-]. reflexivity.
  - unfold bind at 1.
    destruct (simulate_lap c track lap total last g) as [[r|err] g1] eqn:E;
      [|discriminate].
    apply simulate_lap_inv in E. destruct r as [|rec total' last'].
    + destruct E as [Hlt _]. pose proof (rand_range g) as [Hge _].
      pose proof (Hall lap (or_introl eq_refl)). lra.
    + unfold bind.
      destruct (lap_loop c track rest total' last' (Some lap) g1)
        as [[e1|err] g2] eqn:E1; [|discriminate].
      unfold ret. intros [= <- <-]. simpl.
      eapply IH; [|exact E1]. intros k Hk. apply Hall. now right.
Qed.

Lemma drive_doomed (c : Car) (track : Track) (g g' : RNG) (e : LoopExit) :
  doomed c track ->
  drive c track g = (Ok e, g') ->
  exists j, exit_status e = DNF_on_lap j.
Proof.
  intros (k & Hk & Hp) H. unfold drive in H.
  assert (Hin : In k (py_range 1 (n_laps track + 1)))
    by (apply in_py_range; lia).
  destruct (lap_loop_doomed c track k _ Hp Hin _ _ _ _ _ _ H)
    as (j & _ & Hj).
  eauto.
Qed.

Lemma drive_crash_free (c : Car) (track : Track) (g g' : RNG) (e : LoopExit) :
  crash_free c track ->
  drive c track g = (Ok e, g') ->
  exit_status e = Finished.
Proof.
  intros Hfree H. unfold drive in H.
  eapply lap_loop_crash_free; [|exact H].
  intros k Hk. apply py_range_in in Hk. apply Hfree. lia.
Qed.

Lemma car_outcome_status (track : Track) (e : LoopExit) (o : Outcome) :
  car_outcome track e = Ok o -> status o = exit_status e.
Proof.
  unfold car_outcome. destruct (exit_status e).
  - intros [= <-]. reflexivity.
  - destruct (exit_lap e); [|discriminate]. intros [= <-]. reflexivity.
Qed.

(** The entry of a race under a name all of whose cars are doomed, or all
    of whose cars are crash free. *)
Lemma run_sure (cars : list Car) (track : Track) (n : string) (b : bool)
    (g g' : RNG) (res : dict Outcome) (o : Outcome) :
  (forall c, In c cars -> name c = n ->
             if b then crash_free c track else doomed c track) ->
  RaceSimulator.run cars track g = (Ok res, g') ->
  dict_get res n = Some o ->
  is_finished o = b.
Proof.
  intros Hall Hrun Hget. unfold RaceSimulator.run in Hrun.
  destruct (run_cars_entries _ _ _ _ _ _ Hrun n o Hget)
    as [Hnil|(c & g0 & e & g1 & Hc & Hn & Hd & Ho)]; [discriminate|].
  specialize (Hall c Hc Hn). apply car_outcome_status in Ho.
  unfold is_finished. rewrite Ho. destruct b.
  - now rewrite (drive_crash_free _ _ _ _ _ Hall Hd).
  - destruct (drive_doomed _ _ _ _ _ Hall Hd) as [j ->]. reflexivity.
Qed.

End SureFacts.

(** X9. For a car that is the only one of its name in the race: if it has
    a lap of the race with crash probability at least 1 it never finishes
    (its entry is a DNF on some lap, with that lap as laps completed and no
    time); if its crash probability is at most 0 on every lap of the race
    it always finishes (its entry is Finished with all laps of the
    track). *)
Theorem sure_outcomes {RS : RandomSource} (cars : list Car) (track : Track)
    (g g' : RNG) (res : dict Outcome) (c : Car) (o : Outcome) :
  RaceSimulator.run cars track g = (Ok res, g') ->
  In c cars ->
  (forall c', In c' cars -> name c' = name c -> c' = c) ->
  dict_get res (name c) = Some o ->
  (doomed c track ->
   (exists j, status o = DNF_on_lap j /\ laps o = j) /\ time o = None) /\
  (crash_free c track ->
   status o = Finished /\ laps o = n_laps track).
Proof.
  intros Hrun Hc Huniq Hget.
  pose proof Hrun as Hrun'. unfold RaceSimulator.run in Hrun'.
  destruct (run_cars_entries _ _ _ _ _ _ Hrun' _ o Hget)
    as [Hnil|(c' & g0 & e & g1 & Hc' & Hn & Hd & Ho)]; [discriminate|].
  apply Huniq in Hn; [subst c'|assumption].
  destruct (drive_inv _ _ _ _ _ Hd) as (_ & _ & _ & o' & Ho' & Hs & Hout).
  assert (o' = o) by congruence. subst o'.
  split.
  - intros Hdoom. destruct (drive_doomed _ _ _ _ _ Hdoom Hd) as [j Hj].
    rewrite Hj in Hout, Hs. destruct Hout as [Ht Hl]. split; [|assumption].
    exists j. auto.
  - intros Hfree. pose proof (drive_crash_free _ _ _ _ _ Hfree Hd) as Hf.
    rewrite Hf in Hout, Hs. destruct Hout as [Ht Hl]. auto.
Qed.

Definition car_doomed : Car :=
  {| name := "D"; base_speed := 100; speed_std := 0; crash_prob := 1 # 2;
     pit_mean := 20; pit_std := 1; pit_laps := []; tyre_decay := 0;
     boost_laps := [2%Z]; boost_speed := 4; boost_crash := 1 # 2 |}.

Lemma sure_outcomes_witness :
  exists res g' o,
    @RaceSimulator.run ScriptedSource [car_doomed; car_B] two_lap_track
      [90; 0; 0; 99; 90; 0; 0; 90; 0; 0]%Z = (Ok res, g') /\
    dict_get res (name car_doomed) = Some o /\
    doomed car_doomed two_lap_track /\
    (exists j, status o = DNF_on_lap j /\ laps o = j) /\ time o = None.
Proof.
  eexists. eexists. eexists.
  assert (H : @RaceSimulator.run ScriptedSource [car_doomed; car_B]
                two_lap_track [90; 0; 0; 99; 90; 0; 0; 90; 0; 0]%Z
              = (Ok _, _)) by (vm_compute; reflexivity).
  split; [exact H|].
  assert (Hget : dict_get
                   [("D"%string,
                     {| time := None; status := DNF_on_lap 2; laps := 2 |});
                    ("B"%string,
                     {| time := Some (40 # 1); status := Finished;
                        laps := 2 |})]
                   (name car_doomed)
                 = Some {| time := None; status := DNF_on_lap 2; laps := 2 |})
    by reflexivity.
  split; [exact Hget|].
  assert (Hdoom : doomed car_doomed two_lap_track).
  { exists 2%Z. split; [simpl; lia|]. unfold lap_crash_prob. simpl. lra. }
  split; [exact Hdoom|].
  refine (proj1 (@sure_outcomes ScriptedSource [car_doomed; car_B]
                   two_lap_track _ _ _ car_doomed _ H _ _ Hget) Hdoom).
  - simpl. auto.
  - intros c' [<-|[<-|[]]]; [reflexivity | discriminate].
Defined.

(** ** Rows of cars that always crash, and of cars that never do *)

(** What the trial loop keeps for a name whose entry is finished in every
    race ([b = true]: no DNF is counted) or in none ([b = false]: no time is
    recorded). *)
Definition sure_tally (b : bool) (acc : Acc) (n : string) : Prop :=
  if b then dict_get (dnfs acc) n = Some 0%Z
  else dict_get (finish_times acc) n = Some [].

Lemma sure_init (b : bool) (cars : list Car) (n : string) :
  In n (map name cars) -> sure_tally b (init cars) n.
Proof.
  intros Hn. unfold sure_tally. simpl. rewrite !by_name_get.
  destruct (in_dec string_dec n (map name cars)); [|contradiction].
  now destruct b.
Qed.

Lemma sure_step (b : bool) (acc acc' : Acc) (res : dict Outcome)
    (n : string) (o : Outcome) :
  NoDup (keys res) ->
  dict_get res n = Some o ->
  is_finished o = b ->
  record_trial acc res = Ok acc' ->
  sure_tally b acc n ->
  sure_tally b acc' n.
Proof.
  intros Hnd Hget Hf Hrec Hs. unfold record_trial, rbind in Hrec.
  destruct (count_podium acc res) as [acc1|err] eqn:E1; [|discriminate].
  apply count_podium_inv in E1 as (Ht1 & Hd1 & _).
  apply (count_times_inv res Hnd) in Hrec as (_ & _ & _ & _ & Hdn & Htm).
  unfold sure_tally in *. destruct b.
  - rewrite <- Hd1 in Hs. rewrite (Hdn _ _ Hs). unfold dnf_at.
    now rewrite Hget, Hf.
  - rewrite <- Ht1 in Hs. rewrite (Htm _ _ Hs). unfold times_at.
    now rewrite Hget, Hf.
Qed.

Section SureRows.
Context {RS : RandomSource}.

Lemma trials_sure (cars : list Car) (track : Track) (n : string) (b : bool) :
  In n (map name cars) ->
  (forall c, In c cars -> name c = n ->
             if b then crash_free c track else doomed c track) ->
  forall trial_list acc acc' g g',
    sure_tally b acc n ->
    trials cars track trial_list acc g = (Ok acc', g') ->
    sure_tally b acc' n.
Proof.
  intros Hn Hall.
  induction trial_list as [|i rest IH]; intros acc acc' g g' Hs H.
  - simpl in H. unfold ret in H. now injection H as <- _.
  - apply trials_cons_inv in H as (res & g1 & acc1 & Hres & Hrec & H).
    pose proof (run_keys _ _ _ _ _ Hres) as [Hnd Hkeys].
    destruct (proj1 (in_keys_get res n) (proj2 (Hkeys n) Hn)) as [o Ho].
    pose proof (run_sure _ _ _ _ _ _ _ _ Hall Hres Ho) as Hf.
    exact (IH _ _ _ _ (sure_step _ _ _ _ _ _ Hnd Ho Hf Hrec Hs) H).
Qed.

(** The counts behind a row of a returned table. *)
Lemma row_counts {DS : DataFrameSort} (cars : list Car) (track : Track)
    (n_iter : Z) (g g' : RNG) (table : list Row) (r : Row) (b : bool) :
  (1 <= n_iter)%Z ->
  MonteCarloRace.run cars track n_iter g = (Ok table, g') ->
  In r table ->
  (forall c, In c cars -> name c = Car_name r ->
             if b then crash_free c track else doomed c track) ->
  exists w p d l,
    r = {| Car_name := Car_name r;
           Win_pct := pct w n_iter;
           Podium_pct := pct p n_iter;
           DNF_pct := pct d n_iter;
           Avg_time := match length l with
                       | O => None
                       | S _ => np_mean l
                       end |} /\
    (0 <= w <= p)%Z /\
    (p <= Z.of_nat (length l))%Z /\
    (d + Z.of_nat (length l) = n_iter)%Z /\
    Forall (fun t => t <> None) l /\
    (if b then d = 0%Z else l = []).
Proof.
  intros Hn H Hr Hall.
  apply run_inv in H as (acc & rows & Htr & Hrows & _ & ->).
  apply (Permutation_in r (Permutation_sym (sort_values_perm rows))) in Hr.
  destruct (summary_rows_in _ _ _ _ _ Hrows Hr) as (c & Hc & Hrow).
  apply summary_row_full in Hrow
    as (_ & w & p & d & l & Hw & Hp & Hd & Hl & Heq).
  assert (Hcn : Car_name r = name c) by (rewrite Heq; reflexivity).
  rewrite Hcn in Hall |- *.
  pose proof (in_map name cars c Hc) as Hname.
  pose proof (trials_tally cars track (name c) Hname _ 0%nat (init cars) acc
                g g' (tally_init cars (name c) Hname) Htr)
    as (w' & p' & d' & l' & Hw' & Hp' & Hd' & Hl' & Hwp & Hpl & Hd0 & Hsum
        & Hnan).
  assert (w' = w) by congruence. assert (p' = p) by congruence.
  assert (d' = d) by congruence. assert (l' = l) by congruence. subst.
  pose proof (trials_sure cars track (name c) b Hname Hall _ _ _ _ _
                (sure_init b cars (name c) Hname) Htr) as Hs.
  exists w, p, d, l. split; [reflexivity|].
  rewrite py_range_length in Hsum.
  repeat split; try assumption; try lia.
  unfold sure_tally in Hs. destruct b; congruence.
Qed.

End SureRows.

(** X10. The row of a car that has a lap of the race with crash probability
    at least 1 shows DNF % = 100, Win % = 0, Podium % = 0 and no average
    time, for every trial count of at least one. *)
Theorem doomed_row {RS : RandomSource} {DS : DataFrameSort}
    (cars : list Car) (track : Track) (n_iter : Z) (g g' : RNG)
    (table : list Row) (r : Row) :
  (1 <= n_iter)%Z ->
  MonteCarloRace.run cars track n_iter g = (Ok table, g') ->
  In r table ->
  (forall c, In c cars -> name c = Car_name r -> doomed c track) ->
  DNF_pct r == 100 /\ Win_pct r == 0 /\ Podium_pct r == 0 /\
  Avg_time r = None.
Proof.
  intros Hn H Hr Hall.
  destruct (row_counts cars track n_iter g g' table r false Hn H Hr Hall)
    as (w & p & d & l & Heq & Hwp & Hpl & Hsum & _ & Hl).
  rewrite Heq. subst l. simpl in *.
  assert (Hd : d = n_iter) by lia. assert (Hp : p = 0%Z) by lia.
  assert (Hw : w = 0%Z) by lia. rewrite Hd, Hp, Hw.
  repeat split; try apply pct_zero. apply pct_full. lia.
Qed.

Lemma doomed_row_witness :
  exists table g' r,
    @MonteCarloRace.run ScriptedSource StableSort [car_doomed; car_B]
      two_lap_track 1 [90; 0; 0; 99; 90; 0; 0; 90; 0; 0]%Z = (Ok table, g') /\
    In r table /\
    Car_name r = "D"%string /\
    DNF_pct r == 100 /\ Win_pct r == 0 /\ Podium_pct r == 0 /\
    Avg_time r = None.
Proof.
  eexists. eexists. eexists.
  assert (H : @MonteCarloRace.run ScriptedSource StableSort
                [car_doomed; car_B] two_lap_track 1
                [90; 0; 0; 99; 90; 0; 0; 90; 0; 0]%Z = (Ok _, _))
    by (vm_compute; reflexivity).
  split; [exact H|].
  match goal with
  | |- In ?r ?t /\ _ =>
      assert (Hin : In r t) by (simpl; right; left; reflexivity)
  end.
  split; [exact Hin|]. split; [reflexivity|].
  apply (@doomed_row ScriptedSource StableSort [car_doomed; car_B]
           two_lap_track 1 _ _ _ _ ltac:(lia) H Hin).
  intros c [<-|[<-|[]]]; simpl; [intros _ | discriminate].
  exists 2%Z. split; [simpl; lia|]. unfold lap_crash_prob. simpl. lra.
Defined.

(** X11. The row of a car whose crash probability is at most 0 on every lap
    of the race shows DNF % = 0, for every trial count of at least one. *)
Theorem crash_free_row {RS : RandomSource} {DS : DataFrameSort}
    (cars : list Car) (track : Track) (n_iter : Z) (g g' : RNG)
    (table : list Row) (r : Row) :
  (1 <= n_iter)%Z ->
  MonteCarloRace.run cars track n_iter g = (Ok table, g') ->
  In r table ->
  (forall c, In c cars -> name c = Car_name r -> crash_free c track) ->
  DNF_pct r == 0.
Proof.
  intros Hn H Hr Hall.
  destruct (row_counts cars track n_iter g g' table r true Hn H Hr Hall)
    as (w & p & d & l & Heq & Hwp & Hpl & Hsum & Hnan & Hd).
  rewrite Heq. subst d. simpl. apply pct_zero.
Qed.

Lemma crash_free_row_witness :
  exists table g' r,
    @MonteCarloRace.run ScriptedSource StableSort [steady_A; steady_B]
      one_lap_track 1 []%Z = (Ok table, g') /\
    In r table /\
    DNF_pct r == 0.
Proof.
  eexists. eexists. eexists.
  assert (H : @MonteCarloRace.run ScriptedSource StableSort
                [steady_A; steady_B] one_lap_track 1 []%Z = (Ok _, _))
    by (vm_compute; reflexivity).
  split; [exact H|].
  match goal with
  | |- In ?r ?t /\ _ =>
      assert (Hin : In r t) by (simpl; left; reflexivity)
  end.
  split; [exact Hin|].
  apply (@crash_free_row ScriptedSource StableSort [steady_A; steady_B]
           one_lap_track 1 _ _ _ _ ltac:(lia) H Hin).
  intros c [<-|[<-|[]]]; simpl; intros _ k _;
    unfold lap_crash_prob; simpl; lra.
Defined.

(** ** A negative deviation is found in the middle of a race *)

(** X13. A negative [speed_std] of the first car is not refused when the
    aggregator is called: with at least one trial and one lap, the first
    race draws the crash number of lap 1 first; if the car survives that
    check the run raises numpy's ValueError, with this one draw consumed,
    and no table is returned. *)
Theorem negative_std_raises_mid_race {RS : RandomSource}
    {DS : DataFrameSort} (c : Car) (rest : list Car) (track : Track)
    (n_iter : Z) (g : RNG) :
  speed_std c < 0 ->
  (1 <= n_laps track)%Z ->
  (1 <= n_iter)%Z ->
  lap_crash_prob c 1 <= fst (rand g) ->
  MonteCarloRace.run (c :: rest) track n_iter g
  = (Raise (ValueError "scale < 0"), snd (rand g)).
Proof.
  intros Hstd Hlaps Hn Hu.
  unfold MonteCarloRace.run. rewrite (py_range_cons 1 (n_iter + 1)) by lia.
  simpl trials. unfold RaceSimulator.run. simpl run_cars.
  unfold drive. rewrite (py_range_cons 1 (n_laps track + 1)) by lia.
  simpl lap_loop. unfold simulate_lap, bind, np_random_rand.
  destruct (rand g) as [u g1]. simpl in Hu |- *.
  destruct (Qlt_le_dec u (lap_crash_prob c 1)) as [Hlt|_]; [lra|].
  unfold np_random_normal.
  destruct (Qlt_le_dec (speed_std c) 0) as [_|Hge]; [reflexivity | lra].
Qed.

Lemma negative_std_raises_mid_race_witness :
  @MonteCarloRace.run ScriptedSource StableSort [car_bad_std; car_B]
    one_lap_track 1 [90; 0; 0]%Z
  = (Raise (ValueError "scale < 0"), [0; 0]%Z).
Proof.
  apply (@negative_std_raises_mid_race ScriptedSource StableSort car_bad_std
           [car_B] one_lap_track 1 [90; 0; 0]%Z).
  - simpl. lra.
  - simpl. lia.
  - lia.
  - unfold lap_crash_prob. vm_compute. discriminate.
Defined.

(** ** A single trial *)

(** What a row shows after one trial: the car crashed, or it finished. *)
Definition single_trial_row (r : Row) : Prop :=
  (Win_pct r == 0 \/ Win_pct r == 100) /\
  (Podium_pct r == 0 \/ Podium_pct r == 100) /\
  ((DNF_pct r == 100 /\ Podium_pct r == 0 /\ Avg_time r = None) \/
   DNF_pct r == 0).

Lemma row_of_single_tally (acc : Acc) (c : Car) (r : Row) :
  tally_ok 1 acc (name c) ->
  summary_row acc 1 c = Ok r ->
  single_trial_row r.
Proof.
  intros (w & p & d & l & Hw & Hp & Hd & Hl & Hwp & Hpl & Hd0 & Hsum & Hall) Hr.
  apply summary_row_full in Hr
    as (_ & w' & p' & d' & l' & Hw' & Hp' & Hd' & Hl' & ->).
  assert (w' = w) by congruence. assert (p' = p) by congruence.
  assert (d' = d) by congruence. assert (l' = l) by congruence. subst.
  assert (H100 : pct 1 1 == 100) by (apply pct_full; lia).
  unfold single_trial_row. simpl.
  destruct l as [|t l]; simpl length in *.
  - assert (Ed : d = 1%Z) by lia. assert (Ep : p = 0%Z) by lia.
    assert (Ew : w = 0%Z) by lia. rewrite Ed, Ep, Ew.
    pose proof (pct_zero 1). auto 6.
  - assert (Ed : d = 0%Z) by lia. rewrite Ed.
    assert (Cw : w = 0%Z \/ w = 1%Z) by lia.
    assert (Cp : p = 0%Z \/ p = 1%Z) by lia.
    pose proof (pct_zero 1). repeat split.
    + destruct Cw as [->| ->]; auto.
    + destruct Cp as [->| ->]; auto.
    + right. assumption.
Qed.

(** X15. After a single trial every row of the table has Win % and
    Podium % equal to 0 or 100, and either DNF % = 100 with Podium % = 0
    and no average time, or DNF % = 0. *)
Theorem single_trial_rows {RS : RandomSource} {DS : DataFrameSort}
    (cars : list Car) (track : Track) (g g' : RNG) (table : list Row) :
  MonteCarloRace.run cars track 1 g = (Ok table, g') ->
  Forall single_trial_row table.
Proof.
  intros H. apply run_inv in H as (acc & rows & Htr & Hrows & _ & ->).
  apply Forall_forall. intros r Hr.
  apply (Permutation_in r (Permutation_sym (sort_values_perm rows))) in Hr.
  destruct (summary_rows_in _ _ _ _ _ Hrows Hr) as (c & Hc & Hrow).
  apply (row_of_single_tally acc c); [|assumption].
  pose proof (in_map name cars c Hc) as Hname.
  exact (trials_tally cars track (name c) Hname _ 0%nat (init cars) acc g g'
           (tally_init cars (name c) Hname) Htr).
Qed.

Lemma single_trial_rows_witness :
  exists table g',
    @MonteCarloRace.run ScriptedSource StableSort [car_A; car_B]
      one_lap_track 1 [90; 0; 0; 10]%Z = (Ok table, g') /\
    Forall single_trial_row table.
Proof.
  eexists. eexists.
  assert (H : @MonteCarloRace.run ScriptedSource StableSort [car_A; car_B]
                one_lap_track 1 [90; 0; 0; 10]%Z = (Ok _, _))
    by (vm_compute; reflexivity).
  split; [exact H|].
  exact (@single_trial_rows ScriptedSource StableSort [car_A; car_B]
           one_lap_track _ _ _ H).
Defined.

(** ** A track without laps *)

Section NoLaps.
Context {RS : RandomSource}.

Lemma run_cars_no_laps (cars : list Car) (track : Track) (g : RNG) :
  (n_laps track <= 0)%Z ->
  forall results,
    exists res,
      run_cars cars track results g = (Ok res, g) /\
      forall n o,
        dict_get res n = Some o ->
        dict_get results n = Some o \/
        (In n (map name cars) /\
         o = {| time := Some 0; status := Finished; laps := n_laps track |}).
Proof.
  intros Hn. induction cars as [|c rest IH]; intros results; simpl run_cars.
  - exists results. split; [reflexivity | auto].
  - unfold bind, lift, drive. rewrite py_range_nil by lia. simpl.
    destruct (IH (dict_set results (name c)
                    {| time := Some 0; status := Finished;
                       laps := n_laps track |})) as (res & Hres & Hall).
    exists res. split; [exact Hres|].
    intros n o Ho. destruct (Hall n o Ho) as [Hset|[Hin ->]].
    + destruct (string_dec (name c) n) as [<-|Hne].
      * rewrite dict_get_set_same in Hset. injection Hset as <-.
        right. simpl. auto.
      * rewrite dict_get_set_other in Hset by assumption. auto.
    + right. simpl. auto.
Qed.

End NoLaps.

(** X16. On a track whose number of laps is zero or negative no lap is
    run: the race returns without consuming a random draw, and every car is
    Finished with time 0 and the track's own (possibly negative) number of
    laps as laps completed. *)
Theorem race_without_laps {RS : RandomSource} (cars : list Car)
    (track : Track) (g : RNG) :
  (n_laps track <= 0)%Z ->
  exists res,
    RaceSimulator.run cars track g = (Ok res, g) /\
    (forall n, In n (keys res) <-> In n (map name cars)) /\
    forall n o,
      dict_get res n = Some o ->
      o = {| time := Some 0; status := Finished; laps := n_laps track |}.
Proof.
  intros Hn. unfold RaceSimulator.run.
  destruct (run_cars_no_laps cars track g Hn []) as (res & Hres & Hall).
  exists res. split; [exact Hres|]. split.
  - apply (run_keys cars track g g res Hres).
  - intros n o Ho. destruct (Hall n o Ho) as [Hnil|[_ ->]];
      [discriminate | reflexivity].
Qed.

Definition no_lap_track : Track :=
  {| lap_length := 1000; n_laps := -2; weather_variance := 0 |}.

Lemma race_without_laps_witness :
  exists res,
    @RaceSimulator.run ScriptedSource [car_A; car_B] no_lap_track [7; 8]%Z
    = (Ok res, [7; 8]%Z) /\
    (forall n, In n (keys res) <-> In n (map name [car_A; car_B])) /\
    forall n o,
      dict_get res n = Some o ->
      o = {| time := Some 0; status := Finished; laps := n_laps no_lap_track |}.
Proof.
  apply (@race_without_laps ScriptedSource [car_A; car_B] no_lap_track
           [7; 8]%Z).
  simpl. lia.
Defined.

(** * The program in binary64 arithmetic

    Above, the numbers of the program are exact rationals.  Where a claim
    turns on what IEEE 754 double precision does (rounding, overflow to
    infinity, NaN, underflow to zero) the same program is read here over
    Rocq's primitive [float], which is binary64 with round to nearest even:
    Python's [float].  The text of the program is followed line by line as
    before; only the numbers change.

    - [<] with a NaN on either side is false ([PrimFloat.ltb]).
    - [max(a, b)] returns [b] only if [b > a], so [max(nan, b)] is NaN.
    - [float / float] raises [ZeroDivisionError] for a divisor equal to
      zero, and nothing else; [+], [-], [*] never raise.
    - [float * int] converts the integer first, and raises [OverflowError]
      when it is too large for a float.
    - [np.random.normal(loc, scale)] refuses a scale whose sign bit is set
      (unless it is NaN) and otherwise returns [loc + scale * z] for a
      finite standard normal sample [z]; [np.random.rand()] lies in
      [0, 1). *)

Module Binary64.

Set Warnings "-inexact-float".

Local Open Scope float_scope.

(** ** Floats *)

(** Neither an infinity nor NaN. *)
Definition fin64 (x : float) : bool :=
  match Prim2SF x with
  | S754_zero _ | S754_finite _ _ _ => true
  | S754_infinity _ | S754_nan => false
  end.

(** The sign bit of a float that is not NaN. *)
Definition negative64 (x : float) : bool :=
  match Prim2SF x with
  | S754_zero s | S754_infinity s | S754_finite s _ _ => s
  | S754_nan => false
  end.

(** [float(k)] for an integer [k]: the nearest float, or [OverflowError]. *)
Definition float_of_int (k : Z) : Result float :=
  let f := SF2Prim (binary_normalize prec emax k 0 false) in
  if fin64 f then Ok f else Raise OverflowError.

(** [max(a, b)]. *)
Definition py_max (a b : float) : float := if a <? b then b else a.

(** [a / b]. *)
Definition py_div (a b : float) : Result float :=
  if b =? 0 then Raise ZeroDivisionError else Ok (a / b).

(** ** Data classes *)

Record Car : Type := {
  name : string;
  base_speed : float;
  speed_std : float;
  crash_prob : float;
  pit_mean : float;
  pit_std : float;
  pit_laps : list Z;
  tyre_decay : float;
  boost_laps : list Z;
  boost_speed : float;
  boost_crash : float
}.

Record Track : Type := {
  lap_length : float;
  n_laps : Z;
  weather_variance : float
}.

(** One entry of the dictionary returned by [RaceSimulator.run]; the time
    of a car that did not finish is [np.nan]. *)
Record Outcome : Type := {
  time : float;
  status : Status;
  laps : Z
}.

Definition is_finished (o : Outcome) : bool :=
  match status o with
  | Finished => true
  | DNF_on_lap _ => false
  end.

(** ** The generator and the simulation monad *)

Class RandomSource : Type := {
  RNG : Type;
  rand : RNG -> float * RNG;
  randn : RNG -> float * RNG;
  rand_range :
    forall g, (0 <=? fst (rand g)) = true /\ (fst (rand g) <? 1) = true;
  randn_finite : forall g, fin64 (fst (randn g)) = true
}.

Section Monad.
Context {RS : RandomSource}.

Definition Sim (A : Type) : Type := RNG -> Result A * RNG.

Definition ret {A : Type} (a : A) : Sim A := fun g => (Ok a, g).

Definition lift {A : Type} (r : Result A) : Sim A := fun g => (r, g).

Definition bind {A B : Type} (m : Sim A) (k : A -> Sim B) : Sim B :=
  fun g =>
    match m g with
    | (Ok a, g') => k a g'
    | (Raise e, g') => (Raise e, g')
    end.

Definition np_random_rand : Sim float :=
  fun g => let (u, g') := rand g in (Ok u, g').

Definition np_random_normal (loc scale : float) : Sim float :=
  fun g =>
    if negative64 scale then (Raise (ValueError "scale < 0"), g)
    else let (z, g') := randn g in (Ok (loc + scale * z), g').

End Monad.

Declare Scope b64_scope.

Notation "x <- m ;; k" := (bind m (fun x => k))
  (at level 100, m at next level, right associativity) : b64_scope.

Local Open Scope b64_scope.

(** ** One race *)

(** What one completed lap computed (a ghost record, as above). *)
Record LapRecord : Type := {
  lr_lap : Z;
  lr_laps_since_pit : Z;
  lr_tyre_penalty : float;
  lr_speed : float;
  lr_lap_time : float;
  lr_pit_time : option float
}.

Inductive LapResult : Type :=
| Crashed
| Completed (rec : LapRecord) (total_time : float) (last_pit_lap : Z).

Record LoopExit : Type := {
  exit_status : Status;
  exit_total_time : float;
  exit_lap : option Z;
  exit_log : list LapRecord
}.

Section WithRandomSource.
Context {RS : RandomSource}.

Definition _pit_stop_time (car : Car) : Sim float :=
  x <- np_random_normal (pit_mean car) (pit_std car) ;;
  ret (py_max x 0).

Definition lap_crash_prob (car : Car) (lap : Z) : float :=
  if lap_in lap (boost_laps car)
  then crash_prob car + boost_crash car
  else crash_prob car.

Definition laps_since_pit (lap last_pit_lap : Z) : Z :=
  (lap - last_pit_lap - 1)%Z.

Definition tyre_penalty (car : Car) (lap last_pit_lap : Z) : Result float :=
  (k <~ float_of_int (laps_since_pit lap last_pit_lap) ;;
   Ok (base_speed car * tyre_decay car * k))%py.

(** The body of the [for lap] loop (lines 78 to 102). *)
Definition simulate_lap (car : Car) (track : Track) (lap : Z)
    (total_time : float) (last_pit_lap : Z) : Sim LapResult :=
  u <- np_random_rand ;;
  if u <? lap_crash_prob car lap then ret Crashed
  else
    penalty <- lift (tyre_penalty car lap last_pit_lap) ;;
    x <- np_random_normal (base_speed car) (speed_std car) ;;
    w <- np_random_normal 0 (weather_variance track) ;;
    let speed :=
      x - penalty
      + (if lap_in lap (boost_laps car) then boost_speed car else 0)
      + w in
    let speed := py_max speed 0.001 in
    lap_time <- lift (py_div (lap_length track) speed) ;;
    let total_time := total_time + lap_time in
    if lap_in lap (pit_laps car) then
      p <- _pit_stop_time car ;;
      ret (Completed
             {| lr_lap := lap;
                lr_laps_since_pit := laps_since_pit lap last_pit_lap;
                lr_tyre_penalty := penalty;
                lr_speed := speed;
                lr_lap_time := lap_time;
                lr_pit_time := Some p |}
             (total_time + p) lap)
    else
      ret (Completed
             {| lr_lap := lap;
                lr_laps_since_pit := laps_since_pit lap last_pit_lap;
                lr_tyre_penalty := penalty;
                lr_speed := speed;
                lr_lap_time := lap_time;
                lr_pit_time := None |}
             total_time last_pit_lap).

Definition log_lap (rec : LapRecord) (e : LoopExit) : LoopExit :=
  {| exit_status := exit_status e;
     exit_total_time := exit_total_time e;
     exit_lap := exit_lap e;
     exit_log := rec :: exit_log e |}.

Fixpoint lap_loop (car : Car) (track : Track) (lap_list : list Z)
    (total_time : float) (last_pit_lap : Z) (lap_var : option Z)
  : Sim LoopExit :=
  match lap_list with
  | [] =>
      ret {| exit_status := Finished;
             exit_total_time := total_time;
             exit_lap := lap_var;
             exit_log := [] |}
  | lap :: rest =>
      r <- simulate_lap car track lap total_time last_pit_lap ;;
      match r with
      | Crashed =>
          ret {| exit_status := DNF_on_lap lap;
                 exit_total_time := total_time;
                 exit_lap := Some lap;
                 exit_log := [] |}
      | Completed rec total_time' last_pit_lap' =>
          e <- lap_loop car track rest total_time' last_pit_lap' (Some lap) ;;
          ret (log_lap rec e)
      end
  end.

Definition drive (car : Car) (track : Track) : Sim LoopExit :=
  lap_loop car track (py_range 1 (n_laps track + 1)) 0 0%Z None.

(** The dictionary stored under [car.name] (lines 104 to 108). *)
Definition car_outcome (track : Track) (e : LoopExit) : Result Outcome :=
  match exit_status e with
  | Finished =>
      Ok {| time := exit_total_time e;
            status := Finished;
            laps := n_laps track |}
  | DNF_on_lap k =>
      match exit_lap e with
      | Some lap => Ok {| time := nan; status := DNF_on_lap k; laps := lap |}
      | None => Raise (UnboundLocalError "lap")
      end
  end.

Fixpoint run_cars (cars : list Car) (track : Track) (results : dict Outcome)
  : Sim (dict Outcome) :=
  match cars with
  | [] => ret results
  | car :: rest =>
      e <- drive car track ;;
      o <- lift (car_outcome track e) ;;
      run_cars rest track (dict_set results (name car) o)
  end.

(** [RaceSimulator.run]. *)
Definition run (cars : list Car) (track : Track) : Sim (dict Outcome) :=
  run_cars cars track [].

End WithRandomSource.

(** ** The trial loop of the aggregator *)

(** The four tracking dictionaries. *)
Record Acc : Type := {
  winner_counts : dict Z;
  podium_counts : dict Z;
  finish_times : dict (list float);
  dnfs : dict Z
}.

Definition by_name {V : Type} (cars : list Car) (v : V) : dict V :=
  fold_left (fun d c => dict_set d (name c) v) cars [].

Definition init (cars : list Car) : Acc :=
  {| winner_counts := by_name cars 0%Z;
     podium_counts := by_name cars 0%Z;
     finish_times := by_name cars [];
     dnfs := by_name cars 0%Z |}.

(** Win and podium statistics of one race (lines 134 to 140); [sorted]
    compares the times with [<]. *)
Definition count_podium (acc : Acc) (res : dict Outcome) : Result Acc :=
  let finished := filter (fun kv => is_finished (snd kv)) res in
  match finished with
  | [] => Ok acc
  | _ :: _ =>
      let order :=
        py_sorted (fun a b => time (snd a) <? time (snd b)) finished in
      match order with
      | [] => Raise IndexError
      | (w, _) :: _ =>
          (wc <~ dict_incr (winner_counts acc) w ;;
           pc <~ MonteCarloRace.incr_all (podium_counts acc)
                   (map fst (firstn 3 order)) ;;
           Ok {| winner_counts := wc;
                 podium_counts := pc;
                 finish_times := finish_times acc;
                 dnfs := dnfs acc |})%py
      end
  end.

(** Time and DNF statistics of one race (lines 142 to 146). *)
Fixpoint count_times (acc : Acc) (items : list (string * Outcome))
  : Result Acc :=
  match items with
  | [] => Ok acc
  | (n, d) :: rest =>
      if is_finished d then
        (ft <~ dict_append (finish_times acc) n (time d) ;;
         count_times {| winner_counts := winner_counts acc;
                        podium_counts := podium_counts acc;
                        finish_times := ft;
                        dnfs := dnfs acc |} rest)%py
      else
        (dn <~ dict_incr (dnfs acc) n ;;
         count_times {| winner_counts := winner_counts acc;
                        podium_counts := podium_counts acc;
                        finish_times := finish_times acc;
                        dnfs := dn |} rest)%py
  end.

Definition record_trial (acc : Acc) (res : dict Outcome) : Result Acc :=
  (acc' <~ count_podium acc res ;; count_times acc' res)%py.

Section Trials.
Context {RS : RandomSource}.

(** The trial loop; [trial_list] is [range(1, n_iter + 1)]. *)
Fixpoint trials (cars : list Car) (track : Track) (trial_list : list Z)
    (acc : Acc) : Sim Acc :=
  match trial_list with
  | [] => ret acc
  | _ :: rest =>
      res <- run cars track ;;
      acc' <- lift (record_trial acc res) ;;
      trials cars track rest acc'
  end.

End Trials.

(** ** A generator that replays a script

    The state is the list of samples still to come; a sample outside what
    the generator can deliver is replaced by 0, as is a missing one. *)
Definition script_rand (g : list float) : float * list float :=
  match g with
  | [] => (0, [])
  | x :: g' => (if (0 <=? x) && (x <? 1) then x else 0, g')
  end.

Definition script_randn (g : list float) : float * list float :=
  match g with
  | [] => (0, [])
  | x :: g' => (if fin64 x then x else 0, g')
  end.

Lemma script_rand_in_range (g : list float) :
  (0 <=? fst (script_rand g)) = true /\ (fst (script_rand g) <? 1) = true.
Proof.
  destruct g as [|x g]; simpl; [split; reflexivity|].
  destruct ((0 <=? x) && (x <? 1))%bool eqn:E.
  - apply andb_prop in E. exact E.
  - split; reflexivity.
Qed.

Lemma script_randn_finite (g : list float) :
  fin64 (fst (script_randn g)) = true.
Proof.
  destruct g as [|x g]; simpl; [reflexivity|].
  destruct (fin64 x) eqn:E; [exact E | reflexivity].
Qed.

Definition ScriptedSource : RandomSource :=
  {| RNG := list float;
     rand := script_rand;
     randn := script_randn;
     rand_range := script_rand_in_range;
     randn_finite := script_randn_finite |}.

(** ** Facts about floats *)

Lemma mul_zero_fin (z : float) :
  fin64 z = true -> 0 * z = 0 \/ 0 * z = -0.
Proof.
  unfold fin64. intros H. pose proof (mul_spec 0 z) as M.
  change (Prim2SF 0) with (S754_zero false) in M.
  destruct (Prim2SF z) as [s|s| |s m e]; try discriminate;
    unfold SF64mul, SFmul in M; simpl in M;
    (destruct s; [right|left]; apply Prim2SF_inj; rewrite M; reflexivity).
Qed.

Lemma mul_fin_zero (x : float) :
  fin64 x = true -> x * 0 = 0 \/ x * 0 = -0.
Proof.
  unfold fin64. intros H. pose proof (mul_spec x 0) as M.
  change (Prim2SF 0) with (S754_zero false) in M.
  destruct (Prim2SF x) as [s|s| |s m e]; try discriminate;
    unfold SF64mul, SFmul in M; simpl in M;
    (destruct s; [right|left]; apply Prim2SF_inj; rewrite M; reflexivity).
Qed.

(** A sample of [0, 1) is not below zero. *)
Lemma nonneg_not_lt (u : float) : (0 <=? u) = true -> (u <? 0) = false.
Proof.
  rewrite leb_spec, ltb_spec. change (Prim2SF 0) with (S754_zero false).
  destruct (Prim2SF u) as [s|s| |s m e]; simpl; try discriminate;
    try reflexivity; destruct s; simpl; try discriminate; reflexivity.
Qed.

(** A float equal to zero is below the floor of the clamp. *)
Lemma zero_below_floor (x : float) : (x =? 0) = true -> (x <? 0.001) = true.
Proof.
  rewrite eqb_spec, ltb_spec. change (Prim2SF 0) with (S754_zero false).
  set (f := Prim2SF 0.001). vm_compute in f. subst f.
  destruct (Prim2SF x) as [s|s| |s m e]; simpl; try discriminate;
    try reflexivity; destruct s; simpl; discriminate.
Qed.

(** What [max(speed, 1e-3)] does ensure: the result is not below the floor
    and is not zero.  It may be NaN, which is neither below the floor nor
    at least the floor. *)
Lemma clamp_not_below (x : float) : (py_max x 0.001 <? 0.001) = false.
Proof.
  unfold py_max. destruct (x <? 0.001) eqn:E; [reflexivity | exact E].
Qed.

Lemma clamp_not_zero (x : float) : (py_max x 0.001 =? 0) = false.
Proof.
  unfold py_max. destruct (x <? 0.001) eqn:E; [reflexivity|].
  destruct (x =? 0) eqn:Z; [|reflexivity].
  apply zero_below_floor in Z. congruence.
Qed.

Lemma clamp_div (a x : float) :
  py_div a (py_max x 0.001) = Ok (a / py_max x 0.001).
Proof. unfold py_div. now rewrite clamp_not_zero. Qed.

(** ** The clamp and NaN *)

(** A car whose pace has a huge spread, on a track with a huge weather
    variance: all fields are finite floats. *)
Definition car_gusty : Car :=
  {| name := "G"; base_speed := 100; speed_std := 1e308; crash_prob := 0;
     pit_mean := 0; pit_std := 0; pit_laps := []; tyre_decay := 0;
     boost_laps := []; boost_speed := 0; boost_crash := 0 |}.

Definition stormy_track : Track :=
  {| lap_length := 1000; n_laps := 1; weather_variance := 1e308 |}.

(** C9. The clamp misses NaN.  With a pace sample of [+2] and a weather
    sample of [-2] the raw speed of [car_gusty] is
    [(100 + 1e308 * 2) - 0 + 0 + (0 + 1e308 * -2)], that is
    [inf + -inf], NaN; [max(nan, 1e-3)] is NaN, so the divisor of
    [lap_length] is not at least the floor, the lap time is NaN, and the
    car is recorded as Finished with a time of NaN.  No exception is
    raised. *)
Theorem nan_speed_is_not_clamped :
  exists e g',
    @drive ScriptedSource car_gusty stormy_track [0.5; 2; -2] = (Ok e, g') /\
    exit_status e = Finished /\
    length (exit_log e) = 1%nat /\
    Forall (fun rec =>
              is_nan (lr_speed rec) = true /\
              (0.001 <=? lr_speed rec) = false /\
              is_nan (lr_lap_time rec) = true)
           (exit_log e) /\
    is_nan (exit_total_time e) = true /\
    @run ScriptedSource [car_gusty] stormy_track [0.5; 2; -2]
    = (Ok [("G"%string, {| time := nan; status := Finished; laps := 1 |})],
       g').
Proof.
  eexists. eexists. split; [vm_compute; reflexivity|].
  vm_compute. repeat split. repeat constructor.
Qed.

(** ** The laps of one car *)

(** What the loop body is bound to have computed for a lap it completed
    from [last_pit_lap]. *)
Record lap_ok (car : Car) (track : Track) (last_pit_lap : Z)
    (rec : LapRecord) : Prop := {
  ok_since_pit :
    lr_laps_since_pit rec = laps_since_pit (lr_lap rec) last_pit_lap;
  ok_penalty :
    tyre_penalty car (lr_lap rec) last_pit_lap = Ok (lr_tyre_penalty rec);
  ok_not_below : (lr_speed rec <? 0.001) = false;
  ok_not_zero : (lr_speed rec =? 0) = false;
  ok_lap_time : lr_lap_time rec = lap_length track / lr_speed rec
}.

Fixpoint log_ok (car : Car) (track : Track) (last_pit_lap : Z)
    (log : list LapRecord) : Prop :=
  match log with
  | [] => True
  | rec :: rest =>
      lap_ok car track last_pit_lap rec /\
      log_ok car track
        (if lap_in (lr_lap rec) (pit_laps car) then lr_lap rec
         else last_pit_lap)
        rest
  end.

Section LapFacts.
Context {RS : RandomSource}.

Lemma simulate_lap_completed (car : Car) (track : Track) (lap : Z)
    (total : float) (last : Z) (g g' : RNG) (rec : LapRecord)
    (total' : float) (last' : Z) :
  simulate_lap car track lap total last g
  = (Ok (Completed rec total' last'), g') ->
  lr_lap rec = lap /\
  lap_ok car track last rec /\
  last' = (if lap_in lap (pit_laps car) then lap else last).
Proof.
  unfold simulate_lap, bind, np_random_rand, lift, ret.
  destruct (rand g) as [u g1].
  destruct (u <? lap_crash_prob car lap); [discriminate|].
  destruct (tyre_penalty car lap last) as [pen|err] eqn:Hpen; [|discriminate].
  destruct (np_random_normal (base_speed car) (speed_std car) g1)
    as [[x|err] g2]; [|discriminate].
  destruct (np_random_normal 0 (weather_variance track) g2)
    as [[w|err] g3]; [|discriminate].
  rewrite clamp_div.
  destruct (lap_in lap (pit_laps car)).
  - destruct (_pit_stop_time car g3) as [[p|err] g4]; [|discriminate].
    intros [= <- <- <- <-]. simpl. split; [reflexivity|]. split; [|reflexivity].
    constructor; simpl;
      [reflexivity | exact Hpen | apply clamp_not_below
       | apply clamp_not_zero | reflexivity].
  - intros [= <- <- <- <-]. simpl. split; [reflexivity|]. split; [|reflexivity].
    constructor; simpl;
      [reflexivity | exact Hpen | apply clamp_not_below
       | apply clamp_not_zero | reflexivity].
Qed.

(** The laps logged are the first laps of the list, each computed from the
    pit lap left by the one before. *)
Lemma lap_loop_log (car : Car) (track : Track) (lap_list : list Z) :
  forall (total : float) (last : Z) (lap_var : option Z) (g g' : RNG)
         (e : LoopExit),
    lap_loop car track lap_list total last lap_var g = (Ok e, g') ->
    log_ok car track last (exit_log e) /\
    exists post, lap_list = map lr_lap (exit_log e) ++ post.
Proof.
  induction lap_list as [|lap rest IH]; intros total last lv g g' e;
    simpl lap_loop.
  - unfold ret. intros [= <- <-]. simpl. split; [exact I|]. now exists [].
  - unfold bind at 1.
    destruct (simulate_lap car track lap total last g)
      as [[[|rec total' last']|err] g1] eqn:E; [| |discriminate].
    + unfold ret. intros [= <- <-]. simpl. split; [exact I|].
      now exists (lap :: rest).
    + apply simulate_lap_completed in E as (Hlap & Hrec & ->).
      unfold bind.
      destruct (lap_loop car track rest total' _ (Some lap) g1)
        as [[e1|err] g2] eqn:E1; [|discriminate].
      unfold ret. intros [= <- <-]. simpl.
      destruct (IH _ _ _ _ _ _ E1) as [Hlog [post Hpost]].
      rewrite Hlap. split; [split; assumption|].
      exists post. now rewrite Hpost.
Qed.

End LapFacts.

(** The loop's running [last_pit_lap] is the latest scheduled stop before
    the lap. *)
Lemma log_last_pit (car : Car) (track : Track) (hi : Z) :
  forall (log : list LapRecord) (lo : Z) (post : list Z),
    (1 <= lo)%Z ->
    map lr_lap log ++ post = py_range lo hi ->
    log_ok car track (latest_stop (pit_laps car) lo) log ->
    Forall (fun rec =>
              (lo <= lr_lap rec)%Z /\
              lap_ok car track (latest_stop (pit_laps car) (lr_lap rec)) rec)
           log.
Proof.
  induction log as [|rec rest IH]; intros lo post Hlo Hmap Hlog;
    constructor.
  - destruct (Z_lt_ge_dec lo hi) as [Hlt|Hge];
      [|rewrite py_range_nil in Hmap by lia; discriminate].
    rewrite py_range_cons in Hmap by assumption.
    simpl in Hmap. injection Hmap as Hlap _. destruct Hlog as [Hrec _].
    rewrite Hlap. split; [lia | exact Hrec].
  - destruct (Z_lt_ge_dec lo hi) as [Hlt|Hge];
      [|rewrite py_range_nil in Hmap by lia; discriminate].
    rewrite py_range_cons in Hmap by assumption.
    simpl in Hmap. injection Hmap as Hlap Hrest. destruct Hlog as [_ Hlog].
    rewrite Hlap in Hlog.
    rewrite <- (latest_stop_succ (pit_laps car) lo Hlo) in Hlog.
    eapply Forall_impl; [|exact (IH (lo + 1)%Z post ltac:(lia) Hrest Hlog)].
    intros r [Hr Hok]. split; [lia | exact Hok].
Qed.

(** ** Tyre age *)

(** The latest scheduled stop before [lap], 0 when there is none. *)
Definition last_pit_before (car : Car) (lap : Z) : Z :=
  latest_stop (pit_laps car) lap.

(** Claim C8 as it is stated: the tyre age of every completed lap is the
    lap minus the last pit lap minus one, on the lap after a pit lap it is
    0 and so is the tyre penalty, and it grows by one from lap to lap until
    the next stop. *)
Definition tyre_age_as_stated (car : Car) (log : list LapRecord) : Prop :=
  Forall (fun rec =>
            lr_laps_since_pit rec
            = (lr_lap rec - last_pit_before car (lr_lap rec) - 1)%Z) log /\
  (forall rec L,
     In rec log -> In L (pit_laps car) -> lr_lap rec = (L + 1)%Z ->
     lr_laps_since_pit rec = 0%Z /\ (lr_tyre_penalty rec =? 0) = true) /\
  (forall pre r1 r2 post,
     log = pre ++ r1 :: r2 :: post ->
     lr_lap r2 = (lr_lap r1 + 1)%Z /\
     lr_laps_since_pit r2
     = if lap_in (lr_lap r1) (pit_laps car) then 0%Z
       else (lr_laps_since_pit r1 + 1)%Z).

(** The claim with the penalty as the program computes it:
    [base_speed * tyre_decay * laps_since_pit] in floats, which for a tyre
    age of 0 is zero when [base_speed * tyre_decay] is finite. *)
Definition tyre_age (car : Car) (log : list LapRecord) : Prop :=
  Forall (fun rec =>
            lr_laps_since_pit rec
            = (lr_lap rec - last_pit_before car (lr_lap rec) - 1)%Z /\
            exists k,
              float_of_int (lr_laps_since_pit rec) = Ok k /\
              lr_tyre_penalty rec = base_speed car * tyre_decay car * k)
         log /\
  (forall rec L,
     In rec log -> In L (pit_laps car) -> lr_lap rec = (L + 1)%Z ->
     lr_laps_since_pit rec = 0%Z /\
     lr_tyre_penalty rec = base_speed car * tyre_decay car * 0 /\
     (fin64 (base_speed car * tyre_decay car) = true ->
      (lr_tyre_penalty rec =? 0) = true)) /\
  (forall pre r1 r2 post,
     log = pre ++ r1 :: r2 :: post ->
     lr_lap r2 = (lr_lap r1 + 1)%Z /\
     lr_laps_since_pit r2
     = if lap_in (lr_lap r1) (pit_laps car) then 0%Z
       else (lr_laps_since_pit r1 + 1)%Z).

Lemma penalty_of_lap (car : Car) (track : Track) (last : Z)
    (rec : LapRecord) :
  lap_ok car track last rec ->
  exists k,
    float_of_int (lr_laps_since_pit rec) = Ok k /\
    lr_tyre_penalty rec = base_speed car * tyre_decay car * k.
Proof.
  intros [Hs Hp _ _ _]. unfold tyre_penalty, rbind in Hp. rewrite <- Hs in Hp.
  destruct (float_of_int (lr_laps_since_pit rec)) as [k|err];
    [|discriminate].
  injection Hp as Hp. eauto.
Qed.

Lemma tyre_age_of_laps (car : Car) (track : Track) (hi : Z)
    (log : list LapRecord) (rest : list Z) :
  map lr_lap log ++ rest = py_range 1 hi ->
  log_ok car track 0 log ->
  tyre_age car log.
Proof.
  intros Hmap Hlog.
  assert (H0 : latest_stop (pit_laps car) 1 = 0%Z).
  { pose proof (latest_stop_bounds (pit_laps car) 1 ltac:(lia)). lia. }
  rewrite <- H0 in Hlog.
  pose proof (log_last_pit car track hi log 1 rest ltac:(lia) Hmap Hlog)
    as Hall.
  rewrite Forall_forall in Hall.
  assert (Hage : forall rec, In rec log ->
            lr_laps_since_pit rec
            = (lr_lap rec - last_pit_before car (lr_lap rec) - 1)%Z).
  { intros rec Hin. destruct (Hall rec Hin) as [_ Hok].
    exact (ok_since_pit _ _ _ _ Hok). }
  split; [|split].
  - apply Forall_forall. intros rec Hin. split; [now apply Hage|].
    destruct (Hall rec Hin) as [_ Hok]. exact (penalty_of_lap _ _ _ _ Hok).
  - intros rec L Hin HL Hlap.
    assert (Hz : lr_laps_since_pit rec = 0%Z).
    { rewrite (Hage rec Hin), Hlap. destruct (Hall rec Hin) as [H1 _].
      unfold last_pit_before. destruct (Z.eq_dec L 0) as [->|HL0].
      - simpl. rewrite H0. reflexivity.
      - rewrite latest_stop_succ by lia.
        rewrite (lap_in_true _ _ HL). lia. }
    split; [assumption|].
    destruct (Hall rec Hin) as [_ Hok].
    destruct (penalty_of_lap _ _ _ _ Hok) as (k & Hk & Hpen).
    rewrite Hz in Hk. injection Hk as <-.
    assert (Hpen0 : lr_tyre_penalty rec
                    = base_speed car * tyre_decay car * 0) by exact Hpen.
    split; [exact Hpen0|].
    intros Hfin. rewrite Hpen0.
    destruct (mul_fin_zero _ Hfin) as [E|E]; rewrite E; reflexivity.
  - intros pre r1 r2 post Hsplit.
    assert (Hc : (1 <= lr_lap r1)%Z /\ lr_lap r2 = (lr_lap r1 + 1)%Z).
    { apply (py_range_consecutive 1 hi _ _ (map lr_lap pre)
               (map lr_lap post ++ rest)).
      rewrite <- Hmap, Hsplit, map_app. simpl. rewrite <- app_assoc.
      reflexivity. }
    destruct Hc as [H1 H2]. split; [assumption|].
    assert (Hin1 : In r1 log) by (rewrite Hsplit; apply in_elt).
    assert (Hin2 : In r2 log).
    { rewrite Hsplit. apply in_or_app. right. right. now left. }
    rewrite (Hage r2 Hin2), (Hage r1 Hin1), H2. unfold last_pit_before.
    rewrite latest_stop_succ by assumption.
    destruct (lap_in (lr_lap r1) (pit_laps car)); lia.
Qed.

(** A car whose [base_speed * tyre_decay] overflows: [1e308 * 10] is
    infinite, and [inf * 0] is NaN. *)
Definition car_overflow : Car :=
  {| name := "O"; base_speed := 1e308; speed_std := 0; crash_prob := 0;
     pit_mean := 0; pit_std := 0; pit_laps := [1%Z]; tyre_decay := 10;
     boost_laps := []; boost_speed := 0; boost_crash := 0 |}.

Definition two_laps : Track :=
  {| lap_length := 1000; n_laps := 2; weather_variance := 0 |}.

(** C8, refuted as stated.  [car_overflow] stops on lap 1 and completes
    lap 2 with a tyre age of 0, but its tyre penalty on lap 2 is
    [1e308 * 10 * 0], which is NaN and not 0. *)
Lemma overflowing_penalty_is_nan :
  exists e g',
    @drive ScriptedSource car_overflow two_laps [0.5; 0; 0; 0; 0.5; 0; 0]
    = (Ok e, g') /\
    map lr_lap (exit_log e) = [1; 2]%Z /\
    map lr_laps_since_pit (exit_log e) = [0; 0]%Z /\
    ~ tyre_age_as_stated car_overflow (exit_log e).
Proof.
  eexists. eexists. split; [vm_compute; reflexivity|].
  split; [reflexivity|]. split; [reflexivity|].
  intros (_ & H & _).
  destruct (H _ 1%Z (or_intror (or_introl eq_refl)) (or_introl eq_refl)
              eq_refl) as [_ Hpen].
  vm_compute in Hpen. discriminate.
Qed.

(** C8, amended.  For every lap a car completes, the [laps_since_pit] used
    for its tyre penalty is current lap - last pit lap - 1, where the last
    pit lap is the latest scheduled stop before the current lap (0 if
    none), and the penalty is the float product
    [base_speed * tyre_decay * laps_since_pit].  On the lap after a pit lap
    the tyre age is 0 and the penalty is [base_speed * tyre_decay * 0]:
    zero when [base_speed * tyre_decay] is finite.  From one completed lap
    to the next the tyre age grows by one unless the earlier lap was a pit
    lap. *)
Theorem tyre_age_resets {RS : RandomSource} (car : Car) (track : Track)
    (g g' : RNG) (e : LoopExit) :
  drive car track g = (Ok e, g') -> tyre_age car (exit_log e).
Proof.
  unfold drive. intros H. apply lap_loop_log in H as [Hlog [post Hpost]].
  eapply tyre_age_of_laps; [symmetry; exact Hpost | exact Hlog].
Qed.

(** A car that stops on lap 2 of three (the floats of [car_A] above). *)
Definition car_pitting : Car :=
  {| name := "A"; base_speed := 100; speed_std := 0; crash_prob := 0.5;
     pit_mean := 20; pit_std := 1; pit_laps := [2%Z]; tyre_decay := 0.01;
     boost_laps := [3%Z]; boost_speed := 4; boost_crash := 0.1 |}.

Definition three_laps : Track :=
  {| lap_length := 1000; n_laps := 3; weather_variance := 0 |}.

Lemma tyre_age_resets_witness :
  exists e g',
    @drive ScriptedSource car_pitting three_laps
      [0.9; 0; 0; 0.9; 0; 0; 3; 0.75; 0; 0] = (Ok e, g') /\
    exit_status e = Finished /\
    map lr_laps_since_pit (exit_log e) = [0; 1; 0]%Z /\
    tyre_age car_pitting (exit_log e).
Proof.
  eexists. eexists.
  assert (H : @drive ScriptedSource car_pitting three_laps
                [0.9; 0; 0; 0.9; 0; 0; 3; 0.75; 0; 0] = (Ok _, _))
    by (vm_compute; reflexivity).
  split; [exact H|]. split; [reflexivity|]. split; [reflexivity|].
  exact (@tyre_age_resets ScriptedSource car_pitting three_laps _ _ _ H).
Defined.

(** ** The deterministic scenario *)

Lemma ltb_asym (a b : float) : (a <? b) = true -> (b <? a) = false.
Proof.
  rewrite !ltb_spec. unfold SFltb.
  destruct (Prim2SF a) as [sa|sa| |sa ma ea];
    destruct (Prim2SF b) as [sb|sb| |sb mb eb]; simpl;
    try discriminate; try reflexivity;
    try (destruct sa; simpl; try discriminate; reflexivity);
    try (destruct sb; simpl; try discriminate; reflexivity);
    try (destruct sa, sb; simpl; try discriminate; reflexivity).
  destruct sa, sb; simpl; try discriminate; try reflexivity;
    rewrite (Z.compare_antisym ea eb);
    destruct (Z.compare ea eb); simpl; try discriminate; try reflexivity;
    rewrite !Pos.compare_cont_spec; simpl;
    rewrite (Pos.compare_antisym ma mb);
    destruct (Pos.compare ma mb); simpl; try discriminate; reflexivity.
Qed.

(** A car with no source of variance: no crash risk, no spread of pace, no
    pit stop, no tyre decay (the conditions claim C7 lists). *)
Definition steady (c : Car) (speed : float) : Prop :=
  base_speed c = speed /\
  speed_std c = 0 /\
  crash_prob c = 0 /\
  boost_crash c = 0 /\
  pit_laps c = [] /\
  tyre_decay c = 0.

(** No boost of pace (a condition claim C7 leaves out). *)
Definition no_boost (c : Car) : Prop :=
  boost_speed c = 0 \/ boost_laps c = [].

(** Every tyre age of the race converts to a float (as 0, 1, 2, ... do up
    to far beyond any number of laps that can be driven). *)
Definition laps_convert (track : Track) : Prop :=
  forall k, (0 <= k < n_laps track)%Z -> exists f, float_of_int k = Ok f.

(** [total_time] after [n_laps] laps of the same lap time: the sum is
    built lap by lap, each addition rounded. *)
Definition total_of_laps (n_laps : Z) (lap_time : float) : float :=
  fold_left (fun total _ => total + lap_time) (py_range 1 (n_laps + 1)) 0.

Lemma float_of_int_fin (k : Z) (f : float) :
  float_of_int k = Ok f -> fin64 f = true.
Proof.
  unfold float_of_int.
  destruct (fin64 (SF2Prim (binary_normalize prec emax k 0 false))) eqn:E;
    [|discriminate].
  intros [= <-]. exact E.
Qed.

Section Steady.
Context {RS : RandomSource}.
Variables (c : Car) (v : float) (track : Track).
Hypothesis Hsteady : steady c v.
Hypothesis Hboost : no_boost c.
Hypothesis Hweather : weather_variance track = 0.
Hypothesis Hconv : laps_convert track.
(** What is used of the pace [v]; all of it holds of 100 and of 50. *)
Hypothesis Hv0 : v * 0 = 0.
Hypothesis Hadd : v + 0 = v /\ v + -0 = v.
Hypothesis Hsub : v - 0 = v /\ v - -0 = v.
Hypothesis Hfloor : (v <? 0.001) = false.
Hypothesis Hnz : (v =? 0) = false.

Lemma steady_lap (lap : Z) (total_time : float) (g : RNG) :
  (1 <= lap <= n_laps track)%Z ->
  exists rec g',
    simulate_lap c track lap total_time 0 g
    = (Ok (Completed rec (total_time + lap_length track / v) 0%Z), g').
Proof.
  intros Hlap. destruct Hsteady as (Hb & Hs & Hc & Hbc & Hp & Hd).
  destruct Hadd as [Ha0 Han]. destruct Hsub as [Hs0 Hsn].
  unfold simulate_lap, bind, np_random_rand, lift, ret.
  pose proof (rand_range g) as [Hu _].
  destruct (rand g) as [u g1]. simpl in Hu.
  assert (Hcrash : lap_crash_prob c lap = 0).
  { unfold lap_crash_prob. rewrite Hc, Hbc.
    destruct (lap_in lap (boost_laps c)); reflexivity. }
  rewrite Hcrash, (nonneg_not_lt u Hu).
  destruct (Hconv (lap - 0 - 1)%Z ltac:(lia)) as [f Hf].
  pose proof (float_of_int_fin _ _ Hf) as Hfin.
  unfold tyre_penalty, laps_since_pit, rbind. rewrite Hf, Hb, Hd, Hv0.
  unfold np_random_normal. rewrite Hs, Hweather.
  change (negative64 0) with false. cbv iota.
  pose proof (randn_finite g1) as Hz1.
  destruct (randn g1) as [z1 g2]. simpl in Hz1.
  pose proof (randn_finite g2) as Hz2.
  destruct (randn g2) as [z2 g3]. simpl in Hz2.
  assert (Hx : v + 0 * z1 = v)
    by (destruct (mul_zero_fin z1 Hz1) as [E|E]; rewrite E; assumption).
  assert (Hw : 0 + 0 * z2 = 0)
    by (destruct (mul_zero_fin z2 Hz2) as [E|E]; rewrite E; reflexivity).
  assert (Hpen : v - 0 * f = v)
    by (destruct (mul_zero_fin f Hfin) as [E|E]; rewrite E; assumption).
  assert (Hbst : (if lap_in lap (boost_laps c) then boost_speed c else 0)
                 = 0).
  { destruct Hboost as [H0|Hnil].
    - rewrite H0. destruct (lap_in lap (boost_laps c)); reflexivity.
    - rewrite Hnil. reflexivity. }
  rewrite Hx, Hw, Hpen, Hbst, Ha0, Ha0.
  unfold py_max. rewrite Hfloor. unfold py_div. rewrite Hnz.
  rewrite Hp. simpl. eexists. eexists. reflexivity.
Qed.

Lemma steady_loop (lap_list : list Z) :
  (forall lap, In lap lap_list -> (1 <= lap <= n_laps track)%Z) ->
  forall (total_time : float) (lap_var : option Z) (g : RNG),
  exists e g',
    lap_loop c track lap_list total_time 0 lap_var g = (Ok e, g') /\
    exit_status e = Finished /\
    exit_total_time e
    = fold_left (fun total _ => total + lap_length track / v) lap_list
        total_time.
Proof.
  induction lap_list as [|lap rest IH]; intros Hin total lv g.
  - simpl. unfold ret. eexists; eexists; split; [reflexivity|]. simpl. auto.
  - destruct (steady_lap lap total g (Hin lap (or_introl eq_refl)))
      as (rec & g1 & Hlap).
    destruct (IH (fun l Hl => Hin l (or_intror Hl))
                (total + lap_length track / v) (Some lap) g1)
      as (e & g2 & He & Hs & Hte).
    exists (log_lap rec e), g2. split; [|split].
    + simpl. unfold bind at 1. rewrite Hlap. unfold bind. rewrite He.
      reflexivity.
    + exact Hs.
    + simpl. exact Hte.
Qed.

(** The steady car finishes, and its time is the running sum of [n_laps]
    lap times [lap_length / v]. *)
Lemma steady_drive (g : RNG) :
  exists e g',
    drive c track g = (Ok e, g') /\
    car_outcome track e
    = Ok {| time := total_of_laps (n_laps track) (lap_length track / v);
            status := Finished;
            laps := n_laps track |}.
Proof.
  unfold drive.
  destruct (steady_loop (py_range 1 (n_laps track + 1))
              (fun lap H => ltac:(apply py_range_in in H; lia)) 0 None g)
    as (e & g' & He & Hs & Ht).
  exists e, g'. split; [exact He|].
  unfold car_outcome, total_of_laps. now rewrite Hs, Ht.
Qed.

End Steady.

Section TwoCars.
Context {RS : RandomSource}.

(** A race of two cars of different names that both finish. *)
Lemma race_of_two (c1 c2 : Car) (track : Track) (g g1 g2 : RNG)
    (e1 e2 : LoopExit) (o1 o2 : Outcome) :
  name c1 <> name c2 ->
  drive c1 track g = (Ok e1, g1) -> car_outcome track e1 = Ok o1 ->
  drive c2 track g1 = (Ok e2, g2) -> car_outcome track e2 = Ok o2 ->
  run [c1; c2] track g = (Ok [(name c1, o1); (name c2, o2)], g2).
Proof.
  intros Hne H1 Ho1 H2 Ho2.
  unfold run, run_cars, bind, lift.
  rewrite H1, Ho1. simpl. rewrite H2, Ho2.
  destruct (String.eqb_spec (name c1) (name c2)); [contradiction|].
  reflexivity.
Qed.

(** The one trial of such a race: the car with the smaller time takes the
    win, the first listed when neither time is smaller, and both times are
    recorded. *)
Lemma trial_of_two (c1 c2 : Car) (track : Track) (i : Z) (g g' : RNG)
    (t1 t2 : float) (l1 l2 : Z) :
  name c1 <> name c2 ->
  run [c1; c2] track g
  = (Ok [(name c1, {| time := t1; status := Finished; laps := l1 |});
         (name c2, {| time := t2; status := Finished; laps := l2 |})],
     g') ->
  exists acc,
    trials [c1; c2] track [i] (init [c1; c2]) g = (Ok acc, g') /\
    dict_get (winner_counts acc) (name c1)
    = Some (if t2 <? t1 then 0%Z else 1%Z) /\
    dict_get (winner_counts acc) (name c2)
    = Some (if t2 <? t1 then 1%Z else 0%Z) /\
    dict_get (finish_times acc) (name c1) = Some [t1] /\
    dict_get (finish_times acc) (name c2) = Some [t2].
Proof.
  intros Hne Hrun.
  assert (E12 : String.eqb (name c1) (name c2) = false)
    by now apply String.eqb_neq.
  assert (E21 : String.eqb (name c2) (name c1) = false)
    by (apply String.eqb_neq; congruence).
  unfold trials, bind, lift. rewrite Hrun.
  unfold record_trial, count_podium, init, by_name. simpl.
  rewrite E12. simpl.
  destruct (t2 <? t1); simpl;
    unfold dict_incr, dict_append, dict_lookup; simpl;
    repeat (progress (rewrite ?String.eqb_refl, ?E12, ?E21; simpl));
    unfold ret; eexists; (split; [reflexivity|]); simpl;
    repeat (progress (rewrite ?String.eqb_refl, ?E12, ?E21; simpl));
    repeat split; reflexivity.
Qed.

End TwoCars.

(** The scenario of claim C7: two steady cars of different names, of base
    speeds 100 and 50, on a circuit without weather. *)
Definition scenario (A B : Car) (track : Track) : Prop :=
  steady A 100 /\ steady B 50 /\ name A <> name B /\
  weather_variance track = 0 /\
  (0 <? lap_length track) = true /\ (1 <= n_laps track)%Z.

(** What claim C7 concludes, after the one trial: car [A] has one win and
    one recorded finish time, equal to [n_laps * lap_length / 100]. *)
Definition fast_car_wins {RS : RandomSource} (A : Car) (cars : list Car)
    (track : Track) (g : RNG) : Prop :=
  exists acc g' t n,
    trials cars track (py_range 1 (1 + 1)) (init cars) g = (Ok acc, g') /\
    dict_get (winner_counts acc) (name A) = Some 1%Z /\
    dict_get (finish_times acc) (name A) = Some [t] /\
    float_of_int (n_laps track) = Ok n /\
    (t =? n * lap_length track / 100) = true.

Definition steady_A : Car :=
  {| name := "A"; base_speed := 100; speed_std := 0; crash_prob := 0;
     pit_mean := 0; pit_std := 0; pit_laps := []; tyre_decay := 0;
     boost_laps := []; boost_speed := 0; boost_crash := 0 |}.

Definition steady_B : Car :=
  {| name := "B"; base_speed := 50; speed_std := 0; crash_prob := 0;
     pit_mean := 0; pit_std := 0; pit_laps := []; tyre_decay := 0;
     boost_laps := []; boost_speed := 0; boost_crash := 0 |}.

Definition boosted_A : Car :=
  {| name := "A"; base_speed := 100; speed_std := 0; crash_prob := 0;
     pit_mean := 0; pit_std := 0; pit_laps := []; tyre_decay := 0;
     boost_laps := [1%Z]; boost_speed := 100; boost_crash := 0 |}.

Definition boosted_B : Car :=
  {| name := "B"; base_speed := 50; speed_std := 0; crash_prob := 0;
     pit_mean := 0; pit_std := 0; pit_laps := []; tyre_decay := 0;
     boost_laps := [1%Z]; boost_speed := 1000; boost_crash := 0 |}.

Definition one_lap : Track :=
  {| lap_length := 1000; n_laps := 1; weather_variance := 0 |}.

Definition ten_laps : Track :=
  {| lap_length := 10; n_laps := 10; weather_variance := 0 |}.

(** One lap of the smallest positive float. *)
Definition tiny_lap : Track :=
  {| lap_length := 0x1p-1074; n_laps := 1; weather_variance := 0 |}.


(** What the program does in the scenario: both times are the running
    sums of the lap times [lap_length / 100] and [lap_length / 50], and
    car [A] has the one win whenever its sum is the smaller one. *)
Definition fast_car_result {RS : RandomSource} (A B : Car)
    (cars : list Car) (track : Track) (g : RNG) : Prop :=
  let tA := total_of_laps (n_laps track) (lap_length track / 100) in
  let tB := total_of_laps (n_laps track) (lap_length track / 50) in
  exists acc g',
    trials cars track (py_range 1 (1 + 1)) (init cars) g = (Ok acc, g') /\
    dict_get (finish_times acc) (name A) = Some [tA] /\
    dict_get (finish_times acc) (name B) = Some [tB] /\
    ((tA <? tB) = true ->
     dict_get (winner_counts acc) (name A) = Some 1%Z).



End Binary64.
